(** * LDL language support: symbols, lookup, caches, references, ranking

    A shallow embedding of the TypeScript sources of the LDL editor extension
    (parser.ts, referenceProvider.ts, definitionProvider.ts,
    workspaceSymbolProvider.ts, completionProvider.ts) and the properties of
    the symbol-resolution core that are established about them. *)

From Stdlib Require Import ZArith NArith List Bool Lia String Ascii Sorted
  Permutation.
From stdpp Require Import gmap list.
Import ListNotations.

Local Open Scope nat_scope.

(** ** JavaScript strings

    A JavaScript string is a sequence of UTF-16 code units.  Indices are
    natural numbers; [indexOf] and [lastIndexOf] return [-1] when nothing is
    found, so their results are integers. *)

Abbreviation jsstring := (list N).

(** [u "text"] is the JavaScript string literal made of the given ASCII
    characters. *)
Definition u (s : string) : jsstring :=
  map N_of_ascii (list_ascii_of_string s).
Arguments u s%_string.

Module JS.

(** Code units matched by [\s] and stripped by [trim]: WhiteSpace and
    LineTerminator of ECMAScript. *)
Definition is_space (c : N) : bool :=
  ((9 <=? c) && (c <=? 13) || (c =? 32) || (c =? 160) || (c =? 5760)
   || (8192 <=? c) && (c <=? 8202) || (c =? 8232) || (c =? 8233)
   || (c =? 8239) || (c =? 8287) || (c =? 12288) || (c =? 65279))%N.

(** Code units matched by [\w]: [A-Za-z0-9_]. *)
Definition is_word (c : N) : bool :=
  ((65 <=? c) && (c <=? 90) || (97 <=? c) && (c <=? 122)
   || (48 <=? c) && (c <=? 57) || (c =? 95))%N.

(** LineTerminator: the code units after which [^] matches under the [m]
    flag. *)
Definition is_line_terminator (c : N) : bool :=
  ((c =? 10) || (c =? 13) || (c =? 8232) || (c =? 8233))%N.

Definition chr (s : string) : N :=
  match u s with c :: _ => c | [] => 0%N end.
Arguments chr s%_string.

Definition is_char (c : N) : N -> bool := fun x => (x =? c)%N.
Definition one_of (cs : jsstring) : N -> bool :=
  fun x => existsb (N.eqb x) cs.
Definition none_of (cs : jsstring) : N -> bool :=
  fun x => negb (existsb (N.eqb x) cs).
Definition in_range (lo hi : N) : N -> bool :=
  fun x => ((lo <=? x) && (x <=? hi))%N.
Definition or_cls (p q : N -> bool) : N -> bool := fun x => p x || q x.

Definition str_eqb (a b : jsstring) : bool := bool_decide (a = b).

Fixpoint drop_while (p : N -> bool) (s : jsstring) : jsstring :=
  match s with
  | c :: t => if p c then drop_while p t else s
  | [] => []
  end.

(** [s.trim()] *)
Definition trim (s : jsstring) : jsstring :=
  rev (drop_while is_space (rev (drop_while is_space s))).

(** [s.substring(a, b)] for [0 <= a <= b]. *)
Definition substring (a b : nat) (s : jsstring) : jsstring :=
  take (b - a) (drop a s).

(** [s.substring(a)] *)
Definition substring_from (a : nat) (s : jsstring) : jsstring := drop a s.

(** [s.startsWith(p)] *)
Fixpoint startsWith (p s : jsstring) : bool :=
  match p, s with
  | [], _ => true
  | c :: p', d :: s' => (c =? d)%N && startsWith p' s'
  | _ :: _, [] => false
  end.

(** [s.split('\n')]: always at least one piece. *)
Fixpoint split_nl (s : jsstring) : list jsstring :=
  match s with
  | [] => [[]]
  | c :: t =>
      if (c =? 10)%N then [] :: split_nl t
      else match split_nl t with
           | l :: ls => (c :: l) :: ls
           | [] => [[c]]
           end
  end.

(** Position of the first occurrence of [p] in [s] at or after offset [i]
    ([i] is the offset of the head of [s]). *)
Fixpoint index_from (p s : jsstring) (i : nat) : option nat :=
  if startsWith p s then Some i
  else match s with
       | _ :: t => index_from p t (S i)
       | [] => None
       end.

(** [s.indexOf(p)] *)
Definition indexOf (p s : jsstring) : Z :=
  match index_from p s 0 with
  | Some i => Z.of_nat i
  | None => (-1)%Z
  end.

Fixpoint last_index_from (p s : jsstring) (i : nat) (found : option nat)
  : option nat :=
  let found' := if startsWith p s then Some i else found in
  match s with
  | _ :: t => last_index_from p t (S i) found'
  | [] => found'
  end.

(** [s.lastIndexOf(p)] *)
Definition lastIndexOf (p s : jsstring) : Z :=
  match last_index_from p s 0 None with
  | Some i => Z.of_nat i
  | None => (-1)%Z
  end.

(** [s.includes(p)] *)
Definition includes (p s : jsstring) : bool :=
  match index_from p s 0 with Some _ => true | None => false end.

Fixpoint take_while (p : N -> bool) (s : jsstring) : jsstring :=
  match s with
  | c :: t => if p c then c :: take_while p t else []
  | [] => []
  end.

(** [s.split(/\s+/).pop() || '']: the text after the last white-space
    code unit of [s] (all of [s] when it has none). *)
Definition last_word (s : jsstring) : jsstring :=
  rev (take_while (fun c => negb (is_space c)) (rev s)).

(** Code-unit order on strings, the order of [Array.prototype.sort] without
    a comparison function and of the relational operators on strings. *)
Fixpoint str_leb (a b : jsstring) : bool :=
  match a, b with
  | [], _ => true
  | _ :: _, [] => false
  | c :: a', d :: b' =>
      if (c <? d)%N then true
      else if (d <? c)%N then false
      else str_leb a' b'
  end.

(** [array.sort(cmp)]: a stable sort; [leb x y] stands for [cmp(x, y) <= 0]. *)
Fixpoint insert_sorted {A} (leb : A -> A -> bool) (x : A) (l : list A)
  : list A :=
  match l with
  | [] => [x]
  | y :: l' => if leb x y then x :: l else y :: insert_sorted leb x l'
  end.

Definition sort_by {A} (leb : A -> A -> bool) (l : list A) : list A :=
  fold_right (insert_sorted leb) [] l.

Fixpoint digits_loop (fuel : nat) (n : N) (acc : jsstring) : jsstring :=
  match fuel with
  | O => acc
  | S fuel' =>
      let acc' := (48 + n mod 10)%N :: acc in
      if (n / 10 =? 0)%N then acc' else digits_loop fuel' (n / 10)%N acc'
  end.

Definition digits (n : N) : jsstring :=
  digits_loop (S (N.to_nat (N.log2 n))) n [].

(** [String(z)] for an integer [z] *)
Definition toString (z : Z) : jsstring :=
  if (z <? 0)%Z then 45%N :: digits (Z.to_N (- z)) else digits (Z.to_N z).

(** [s.padStart(n, fill)] for a fill string of one code unit *)
Definition padStart (n : nat) (fill : N) (s : jsstring) : jsstring :=
  repeat fill (n - length s) ++ s.

End JS.

(** ** Regular expressions

    The fragment of ECMAScript regular expressions that the sources use:
    literals, character classes, greedy repetition of a character class,
    optional groups, alternation, capture groups, the assertions [^], [$],
    [\b] and negative lookahead.  Matching is by backtracking, leftmost
    alternative and longest repetition first, as in ECMAScript. *)

Module RegExp.

Inductive regex : Type :=
| Eps
| Chr (p : N -> bool)            (* one code unit of a class *)
| Lit (s : jsstring)             (* a literal sequence *)
| Seq (a b : regex)
| Alt (a b : regex)
| Star (p : N -> bool)           (* [p*], greedy *)
| Opt (a : regex)                (* [(?:a)?], greedy *)
| Group (n : nat) (a : regex)    (* capture group number [n] *)
| Bol (multiline : bool)         (* [^] *)
| Eol                            (* [$] without the [m] flag *)
| WordB                          (* [\b] *)
| NotAhead (a : regex).          (* [(?!a)] *)

Definition Plus (p : N -> bool) : regex := Seq (Chr p) (Star p).

Fixpoint seq_all (rs : list regex) : regex :=
  match rs with
  | [] => Eps
  | [r] => r
  | r :: rs' => Seq r (seq_all rs')
  end.

(** The matcher's position in the subject: the code unit before the
    position, the text from the position on, the offset and the captures
    made so far. *)
Record mstate := MState {
  m_prev : option N;
  m_rest : jsstring;
  m_pos : nat;
  m_caps : list (nat * jsstring)
}.

Definition advance (st : mstate) (c : N) (t : jsstring) : mstate :=
  MState (Some c) t (S (m_pos st)) (m_caps st).

Fixpoint strip_lit (s : jsstring) (st : mstate) : option mstate :=
  match s with
  | [] => Some st
  | c :: s' =>
      match m_rest st with
      | d :: t => if (c =? d)%N then strip_lit s' (advance st d t) else None
      | [] => None
      end
  end.

Definition opt_is_word (o : option N) : bool :=
  match o with Some c => JS.is_word c | None => false end.

Definition at_line_start (multiline : bool) (st : mstate) : bool :=
  match m_prev st with
  | None => true
  | Some c => multiline && JS.is_line_terminator c
  end.

Definition at_word_boundary (st : mstate) : bool :=
  xorb (opt_is_word (m_prev st)) (opt_is_word (head (m_rest st))).

Fixpoint star_loop (p : N -> bool) (k : mstate -> option mstate)
    (prev : option N) (rest : jsstring) (pos : nat)
    (caps : list (nat * jsstring)) : option mstate :=
  match rest with
  | c :: t =>
      if p c
      then match star_loop p k (Some c) t (S pos) caps with
           | Some r => Some r
           | None => k (MState prev rest pos caps)
           end
      else k (MState prev rest pos caps)
  | [] => k (MState prev rest pos caps)
  end.

(** [rmatch r st k]: match [r] at [st], then the rest of the pattern [k];
    [None] when every alternative fails. *)
Fixpoint rmatch (r : regex) (st : mstate) (k : mstate -> option mstate)
  : option mstate :=
  match r with
  | Eps => k st
  | Chr p =>
      match m_rest st with
      | c :: t => if p c then k (advance st c t) else None
      | [] => None
      end
  | Lit s =>
      match strip_lit s st with
      | Some st' => k st'
      | None => None
      end
  | Seq a b => rmatch a st (fun st' => rmatch b st' k)
  | Alt a b =>
      match rmatch a st k with
      | Some r => Some r
      | None => rmatch b st k
      end
  | Star p => star_loop p k (m_prev st) (m_rest st) (m_pos st) (m_caps st)
  | Opt a =>
      match rmatch a st k with
      | Some r => Some r
      | None => k st
      end
  | Group n a =>
      rmatch a st (fun st' =>
        k (MState (m_prev st') (m_rest st') (m_pos st')
             ((n, take (m_pos st' - m_pos st) (m_rest st)) :: m_caps st')))
  | Bol ml => if at_line_start ml st then k st else None
  | Eol => match m_rest st with [] => k st | _ :: _ => None end
  | WordB => if at_word_boundary st then k st else None
  | NotAhead a =>
      match rmatch a st Some with
      | Some _ => None
      | None => k st
      end
  end.

(** The result of a successful [exec]: [match.index], [match[0]], the end
    offset (the new [lastIndex] of a global expression) and the groups. *)
Record RegExpMatch := Match {
  index : nat;
  matched : jsstring;
  end_index : nat;
  groups : list (nat * jsstring)
}.

(** [match[n]]; [None] is [undefined]. *)
Fixpoint group (n : nat) (caps : list (nat * jsstring)) : option jsstring :=
  match caps with
  | [] => None
  | (i, s) :: caps' => if Nat.eqb i n then Some s else group n caps'
  end.

(** Try every start offset from the current one on, leftmost first. *)
Fixpoint exec_from (r : regex) (prev : option N) (rest : jsstring) (pos : nat)
  : option RegExpMatch :=
  match rmatch r (MState prev rest pos []) Some with
  | Some st' =>
      Some (Match pos (take (m_pos st' - pos) rest) (m_pos st') (m_caps st'))
  | None =>
      match rest with
      | c :: t => exec_from r (Some c) t (S pos)
      | [] => None
      end
  end.

Definition prev_at (text : jsstring) (i : nat) : option N :=
  match i with O => None | S j => text !! j end.

(** [r.exec(text)] with [r.lastIndex = lastIndex]. *)
Definition exec (r : regex) (text : jsstring) (lastIndex : nat)
  : option RegExpMatch :=
  if length text <? lastIndex then None
  else exec_from r (prev_at text lastIndex) (drop lastIndex text) lastIndex.

(** The loop [while ((match = r.exec(text)) !== null) { ... }] over a global
    expression: the successive matches.  Every expression of the sources
    consumes at least one code unit per match, so that [lastIndex] grows and
    [length text + 1] rounds are enough: the loop then ends on a call of
    [exec] that finds nothing (lemmas [exec_loop_ends] and
    [exec_loop_fuel]). *)
Fixpoint exec_loop (fuel : nat) (r : regex) (text : jsstring) (lastIndex : nat)
  : list RegExpMatch :=
  match fuel with
  | O => []
  | S fuel' =>
      match exec r text lastIndex with
      | None => []
      | Some m => m :: exec_loop fuel' r text (end_index m)
      end
  end.

Definition exec_all (r : regex) (text : jsstring) : list RegExpMatch :=
  exec_loop (S (length text)) r text 0.

(** [text.match(r)] for an expression without the [g] flag. *)
Definition match_first (r : regex) (text : jsstring) : option RegExpMatch :=
  exec r text 0.

(** [r.test(text)] *)
Definition test (r : regex) (text : jsstring) : bool :=
  match exec r text 0 with Some _ => true | None => false end.

End RegExp.

(** ** The parser (parser.ts) *)

Module Parser.
Import RegExp.

Definition dquote : N := 34.
Definition squote : N := 39.
Definition backslash : N := 92.
Definition newline : N := 10.

(** [vscode.Position] *)
Record Position := mkPosition { line : nat; character : nat }.

(** The part of [vscode.TextDocument] that the sources call.  The editor
    owns the implementation; [positionAt] and [offsetAt] take and return
    JavaScript numbers. *)
Record TextDocument := mkTextDocument {
  uri : jsstring;
  getText : jsstring;
  positionAt : Z -> Position;
  offsetAt : Position -> nat;
  lineAt : nat -> jsstring
}.

Inductive SymbolType :=
| function | pipeline | type_alias | macro | constant | class | method.

(** [interface LDLSymbol]; an optional field that is absent is [None]. *)
Record LDLSymbol := mkSymbol {
  name : jsstring;
  position : Position;
  type : SymbolType;
  version : option jsstring;
  value : option jsstring;
  aliasType : option jsstring;
  className : option jsstring;
  parentClass : option jsstring;
  isStatic : option bool;
  labels : option (list jsstring);
  documentation : option jsstring
}.

#[global] Instance SymbolType_eq_dec : EqDecision SymbolType.
Proof. solve_decision. Defined.
#[global] Instance Position_eq_dec : EqDecision Position.
Proof. solve_decision. Defined.
#[global] Instance LDLSymbol_eq_dec : EqDecision LDLSymbol.
Proof. solve_decision. Defined.

(** A JavaScript [Map] with string keys: the entries in insertion order, one
    entry per key. *)
Definition JSMap (V : Type) : Type := list (jsstring * V).

Fixpoint map_get {V} (k : jsstring) (m : JSMap V) : option V :=
  match m with
  | [] => None
  | (k', v) :: m' => if JS.str_eqb k' k then Some v else map_get k m'
  end.

Definition map_has {V} (k : jsstring) (m : JSMap V) : bool :=
  match map_get k m with Some _ => true | None => false end.

(** [m.set(k, v)]: an existing key keeps its place, a new key goes last. *)
Fixpoint map_set {V} (k : jsstring) (v : V) (m : JSMap V) : JSMap V :=
  match m with
  | [] => [(k, v)]
  | (k', v') :: m' =>
      if JS.str_eqb k' k then (k', v) :: m' else (k', v') :: map_set k v m'
  end.

Definition map_keys {V} (m : JSMap V) : list jsstring := map fst m.
Definition map_values {V} (m : JSMap V) : list V := map snd m.

(** [if (!m.has(k)) m.set(k, []); m.get(k)!.push(x);] *)
Definition map_push {V} (k : jsstring) (x : V) (m : JSMap (list V))
  : JSMap (list V) :=
  let m' := if negb (map_has k m) then map_set k [] m else m in
  match map_get k m' with
  | Some bucket => map_set k (bucket ++ [x]) m'
  | None => m'
  end.

(** [class LDLParser]: its two private maps. *)
Record LDLParser := mkParser {
  symbols : JSMap (list LDLSymbol);
  labelIndex : JSMap (list LDLSymbol)
}.

(** [new LDLParser()] *)
Definition newParser : LDLParser := mkParser [] [].

(** [/^@label\([\x22']([^\x22']+)[\x22']\)$/]; in the comments of this
    file [\x22] stands for the double quote of the source expression. *)
Definition labelRegex : regex :=
  seq_all [Bol false; Lit (u "@label(");
           Chr (JS.one_of [dquote; squote]);
           Group 1 (Plus (JS.none_of [dquote; squote]));
           Chr (JS.one_of [dquote; squote]); Lit (u ")"); Eol].

Definition or_empty (o : option jsstring) : jsstring :=
  match o with Some s => s | None => [] end.

(** The backward loop of [parseLabelsAndDocumentation] over the lines,
    nearest line first. *)
Fixpoint scanBackward (ls : list jsstring) (labels_ : list jsstring)
    (documentation_ : option jsstring)
  : list jsstring * option jsstring :=
  match ls with
  | [] => (labels_, documentation_)
  | l :: ls' =>
      let line_ := JS.trim l in
      match match_first labelRegex line_ with
      | Some labelMatch =>
          scanBackward ls' (or_empty (group 1 (groups labelMatch)) :: labels_)
            documentation_
      | None =>
          if JS.startsWith (u "///") line_
          then scanBackward ls' labels_
                 (Some (JS.trim (JS.substring_from 3 line_)))
          else if negb (JS.str_eqb line_ [])
                  && negb (JS.startsWith (u "@") line_)
                  && negb (JS.startsWith (u "//") line_)
          then (labels_, documentation_)
          else scanBackward ls' labels_ documentation_
      end
  end.

Definition parseLabelsAndDocumentation (text : jsstring) (startIndex : nat)
  : list jsstring * option jsstring :=
  let lines := JS.split_nl (JS.substring 0 startIndex text) in
  scanBackward (rev lines) [] None.

Definition addToLabelIndex (symbol : LDLSymbol) (p : LDLParser) : LDLParser :=
  match labels symbol with
  | Some ls =>
      mkParser (symbols p)
        (fold_left (fun idx label => map_push label symbol idx) ls
           (labelIndex p))
  | None => p
  end.

(** The statements [if (!this.symbols.has(name)) ...; ...push(symbol)]. *)
Definition addSymbol (symbol : LDLSymbol) (p : LDLParser) : LDLParser :=
  mkParser (map_push (name symbol) symbol (symbols p)) (labelIndex p).

(** The scanner state of [findClassEndIndex]. *)
Record BraceState := mkBraceState {
  braceCount : Z;
  inString : bool;
  stringChar : option N   (* [None] is the initial [''] *)
}.

Definition braceInit : BraceState := mkBraceState 0 false None.

(** One round of the loop of [findClassEndIndex] on the code unit [char]
    with [before = text[i - 1]]: the new state, and whether the function
    returns [i + 1] in this round. *)
Definition braceStep (before : option N) (char : N) (st : BraceState)
  : BraceState * bool :=
  if negb (inString st) then
    if (char =? dquote)%N || (char =? squote)%N
    then (mkBraceState (braceCount st) true (Some char), false)
    else if (char =? JS.chr "{")%N
    then (mkBraceState (braceCount st + 1) false (stringChar st), false)
    else if (char =? JS.chr "}")%N
    then (mkBraceState (braceCount st - 1) false (stringChar st),
          (braceCount st - 1 =? 0)%Z)
    else (st, false)
  else
    if bool_decide (Some char = stringChar st)
       && negb (bool_decide (before = Some backslash))
    then (mkBraceState (braceCount st) false (stringChar st), false)
    else (st, false).

(** The loop [for (let i = startIndex; i < text.length; i++)] on the rest of
    the text from offset [i]; [None] when the loop runs to the end of the
    text. *)
Fixpoint braceLoop (before : option N) (rest : jsstring) (i : nat)
    (st : BraceState) : option nat :=
  match rest with
  | [] => None
  | char :: rest' =>
      let '(st', ret) := braceStep before char st in
      if ret then Some (i + 1) else braceLoop (Some char) rest' (S i) st'
  end.

Definition findClassEndIndex (text : jsstring) (startIndex : nat) : nat :=
  match braceLoop (prev_at text startIndex) (drop startIndex text) startIndex
          braceInit with
  | Some r => r
  | None => length text
  end.


(** [/class\s+(\w+)(?:\s+extends\s+(\w+))?/g] *)
Definition classRegex : regex :=
  seq_all [Lit (u "class"); Plus JS.is_space; Group 1 (Plus JS.is_word);
           Opt (seq_all [Plus JS.is_space; Lit (u "extends");
                         Plus JS.is_space; Group 2 (Plus JS.is_word)])].

(** [(?:\s*\([^)]*version:\s*\x22([^\x22]+)\x22[^)]*\))?], the optional
    parameter list with a version literal shared by the two expressions
    below. *)
Definition versionTail : regex :=
  Opt (seq_all [Star JS.is_space; Lit (u "("); Star (JS.none_of (u ")"));
                Lit (u "version:"); Star JS.is_space; Chr (JS.is_char dquote);
                Group 3 (Plus (JS.none_of [dquote]));
                Chr (JS.is_char dquote); Star (JS.none_of (u ")"));
                Lit (u ")")]).

(** [/(static\s+)?fn\s+(\w+)TAIL/g], where [TAIL] is the optional parameter
    list above. *)
Definition methodRegex : regex :=
  seq_all [Opt (Group 1 (Seq (Lit (u "static")) (Plus JS.is_space)));
           Lit (u "fn"); Plus JS.is_space; Group 2 (Plus JS.is_word);
           versionTail].

(** [/(?:^|\n)\s*(fn\s+(\w+)TAIL)/gm], with the same [TAIL]. *)
Definition fnRegex : regex :=
  seq_all [Alt (Bol true) (Chr (JS.is_char newline)); Star JS.is_space;
           Group 1 (seq_all [Lit (u "fn"); Plus JS.is_space;
                             Group 2 (Plus JS.is_word); versionTail])].

(** [/pipeline\s+(\w+)/g] *)
Definition pipelineRegex : regex :=
  seq_all [Lit (u "pipeline"); Plus JS.is_space; Group 1 (Plus JS.is_word)].

(** [/using\s+(\w+)\s*=\s*(\w+)/g] *)
Definition aliasRegex : regex :=
  seq_all [Lit (u "using"); Plus JS.is_space; Group 1 (Plus JS.is_word);
           Star JS.is_space; Lit (u "="); Star JS.is_space;
           Group 2 (Plus JS.is_word)].

(** [/macro\s+(\w+)\s+([^\r\n]+)/g] *)
Definition macroRegex : regex :=
  seq_all [Lit (u "macro"); Plus JS.is_space; Group 1 (Plus JS.is_word);
           Plus JS.is_space; Group 2 (Plus (JS.none_of [13; 10]%N))].

(** [/const\s+(\w+)\s*=\s*([^\r\n]+)/g] *)
Definition constRegex : regex :=
  seq_all [Lit (u "const"); Plus JS.is_space; Group 1 (Plus JS.is_word);
           Star JS.is_space; Lit (u "="); Star JS.is_space;
           Group 2 (Plus (JS.none_of [13; 10]%N))].

Definition cap (n : nat) (m : RegExpMatch) : option jsstring :=
  group n (groups m).

(** The two statements that end the loop bodies of the class, method,
    function and pipeline scans: push the symbol on the bucket of its name,
    then index it by its labels. *)
Definition insertSymbol (symbol : LDLSymbol) (p : LDLParser) : LDLParser :=
  addToLabelIndex symbol (addSymbol symbol p).

(** The symbol built in the loop of [parseClassMethods] for one match. *)
Definition methodSymbol (text : jsstring) (document : TextDocument)
    (className_ : jsstring) (classStartIndex : nat) (m : RegExpMatch)
  : LDLSymbol :=
  let isStatic_ := match cap 1 m with Some (_ :: _) => true | _ => false end in
  let methodName := or_empty (cap 2 m) in
  let version_ := cap 3 m in
  let position_ := positionAt document (Z.of_nat (classStartIndex + index m)) in
  let '(labels_, documentation_) :=
    parseLabelsAndDocumentation text (classStartIndex + index m) in
  mkSymbol methodName position_ method version_ None None (Some className_)
    None (Some isStatic_) (Some labels_) documentation_.

Definition parseClassMethods (text : jsstring) (document : TextDocument)
    (className_ : jsstring) (classStartIndex : nat) (p : LDLParser)
  : LDLParser :=
  let classEndIndex := findClassEndIndex text classStartIndex in
  let classBody := JS.substring classStartIndex classEndIndex text in
  fold_left
    (fun p m =>
       insertSymbol (methodSymbol text document className_ classStartIndex m) p)
    (exec_all methodRegex classBody) p.

(** The symbol built in the loop of [parseClasses] for one match. *)
Definition classSymbol (text : jsstring) (document : TextDocument)
    (m : RegExpMatch) : LDLSymbol :=
  let name_ := or_empty (cap 1 m) in
  let parentClass_ := cap 2 m in
  let position_ := positionAt document (Z.of_nat (index m)) in
  let '(labels_, documentation_) :=
    parseLabelsAndDocumentation text (index m) in
  mkSymbol name_ position_ class None None None None parentClass_ None
    (Some labels_) documentation_.

Definition parseClasses (text : jsstring) (document : TextDocument)
    (p : LDLParser) : LDLParser :=
  fold_left
    (fun p m =>
       let symbol := classSymbol text document m in
       parseClassMethods text document (name symbol) (index m)
         (insertSymbol symbol p))
    (exec_all classRegex text) p.

Definition isInsideClass (text : jsstring) (position_ : nat) : bool :=
  let beforeText := JS.substring 0 position_ text in
  let lastClassIndex := JS.lastIndexOf (u "class ") beforeText in
  let lastBraceIndex := JS.lastIndexOf (u "}") beforeText in
  (lastBraceIndex <? lastClassIndex)%Z && negb (lastClassIndex =? -1)%Z.

(** The symbol built in the loop of [parseFunctions] for one match. *)
Definition functionSymbol (text : jsstring) (document : TextDocument)
    (m : RegExpMatch) : LDLSymbol :=
  let name_ := or_empty (cap 2 m) in
  let version_ := cap 3 m in
  let position_ :=
    positionAt document
      (Z.of_nat (index m) + JS.indexOf (u "fn") (matched m))%Z in
  let '(labels_, documentation_) :=
    parseLabelsAndDocumentation text (index m) in
  mkSymbol name_ position_ function version_ None None None None None
    (Some labels_) documentation_.

Definition parseFunctions (text : jsstring) (document : TextDocument)
    (p : LDLParser) : LDLParser :=
  fold_left
    (fun p m =>
       if isInsideClass text (index m) then p
       else insertSymbol (functionSymbol text document m) p)
    (exec_all fnRegex text) p.

Definition pipelineSymbol (text : jsstring) (document : TextDocument)
    (m : RegExpMatch) : LDLSymbol :=
  let name_ := or_empty (cap 1 m) in
  let position_ := positionAt document (Z.of_nat (index m)) in
  let '(labels_, documentation_) :=
    parseLabelsAndDocumentation text (index m) in
  mkSymbol name_ position_ pipeline None None None None None None
    (Some labels_) documentation_.

Definition parsePipelines (text : jsstring) (document : TextDocument)
    (p : LDLParser) : LDLParser :=
  fold_left (fun p m => insertSymbol (pipelineSymbol text document m) p)
    (exec_all pipelineRegex text) p.

Definition aliasSymbol (document : TextDocument) (m : RegExpMatch)
  : LDLSymbol :=
  let name_ := or_empty (cap 1 m) in
  let aliasType_ := cap 2 m in
  let position_ := positionAt document (Z.of_nat (index m)) in
  mkSymbol name_ position_ type_alias None None aliasType_ None None None
    None None.

(** Type aliases, macros and constants are pushed without being indexed. *)
Definition parseTypeAliases (text : jsstring) (document : TextDocument)
    (p : LDLParser) : LDLParser :=
  fold_left (fun p m => addSymbol (aliasSymbol document m) p)
    (exec_all aliasRegex text) p.

Definition macroSymbol (document : TextDocument) (m : RegExpMatch)
  : LDLSymbol :=
  let name_ := or_empty (cap 1 m) in
  let value_ := JS.trim (or_empty (cap 2 m)) in
  let position_ := positionAt document (Z.of_nat (index m)) in
  mkSymbol name_ position_ macro None (Some value_) None None None None
    None None.

Definition parseMacros (text : jsstring) (document : TextDocument)
    (p : LDLParser) : LDLParser :=
  fold_left (fun p m => addSymbol (macroSymbol document m) p)
    (exec_all macroRegex text) p.

Definition constantSymbol (document : TextDocument) (m : RegExpMatch)
  : LDLSymbol :=
  let name_ := or_empty (cap 1 m) in
  let value_ := JS.trim (or_empty (cap 2 m)) in
  let position_ := positionAt document (Z.of_nat (index m)) in
  mkSymbol name_ position_ constant None (Some value_) None None None None
    None None.

Definition parseConstants (text : jsstring) (document : TextDocument)
    (p : LDLParser) : LDLParser :=
  fold_left (fun p m => addSymbol (constantSymbol document m) p)
    (exec_all constRegex text) p.

(** [this.symbols.clear(); this.labelIndex.clear();] *)
Definition clear (p : LDLParser) : LDLParser := mkParser [] [].

(** [parseDocument] mutates the parser it is called on: the parser before
    the call is an argument, the parser after the call the result. *)
Definition parseDocument (document : TextDocument) (p : LDLParser)
  : LDLParser :=
  let p0 := clear p in
  let text := getText document in
  let p1 := parseClasses text document p0 in
  let p2 := parseFunctions text document p1 in
  let p3 := parsePipelines text document p2 in
  let p4 := parseTypeAliases text document p3 in
  let p5 := parseMacros text document p4 in
  parseConstants text document p5.

(** A string argument counts as given when it is truthy: defined and not
    empty. *)
Definition truthy (o : option jsstring) : bool :=
  match o with Some (_ :: _) => true | _ => false end.

Definition findSymbol (p : LDLParser) (name_ : jsstring)
    (version_ className_ : option jsstring) : option LDLSymbol :=
  match map_get name_ (symbols p) with
  | None => None
  | Some symbols_ =>
      let classMethod :=
        if truthy className_
        then find (fun s => bool_decide (className s = className_)) symbols_
        else None in
      match classMethod with
      | Some s => Some s
      | None =>
          if truthy version_
          then find (fun s => bool_decide (version s = version_)) symbols_
          else head symbols_
      end
  end.

Definition findAllSymbols (p : LDLParser) (name_ : jsstring)
    (version_ className_ : option jsstring) : list LDLSymbol :=
  match map_get name_ (symbols p) with
  | None => []
  | Some symbols_ =>
      let classMethods :=
        if truthy className_
        then List.filter (fun s => bool_decide (className s = className_))
               symbols_
        else [] in
      if truthy className_ && (0 <? length classMethods)
      then if truthy version_
           then List.filter (fun s => bool_decide (version s = version_))
                  classMethods
           else classMethods
      else if truthy version_
      then List.filter (fun s => bool_decide (version s = version_)) symbols_
      else symbols_
  end.

Definition findSymbolsByLabel (p : LDLParser) (label : jsstring)
  : list LDLSymbol :=
  match map_get label (labelIndex p) with Some l => l | None => [] end.

(** [Array.from(this.labelIndex.keys()).sort()] *)
Definition getAllLabels (p : LDLParser) : list jsstring :=
  JS.sort_by JS.str_leb (map_keys (labelIndex p)).

Definition getAllSymbols (p : LDLParser) : list LDLSymbol :=
  concat (map_values (symbols p)).

(** A document held as its text, with lines separated by the line feed: the
    line and column of an offset as the editor computes them for such a
    text. *)
Fixpoint position_of (text : jsstring) (offset : nat) (l c : nat) : Position :=
  match offset, text with
  | O, _ => mkPosition l c
  | S n, ch :: t =>
      if (ch =? newline)%N then position_of t n (S l) 0
      else position_of t n l (S c)
  | S _, [] => mkPosition l c
  end.

Fixpoint offset_of (lines : list jsstring) (l c : nat) : nat :=
  match l, lines with
  | O, ln :: _ => Nat.min c (length ln)
  | O, [] => 0
  | S l', ln :: rest => S (length ln) + offset_of rest l' c
  | S _, [] => 0
  end.

Definition mkDocument (uri_ text : jsstring) : TextDocument :=
  mkTextDocument uri_ text
    (fun offset => position_of text (Z.to_nat offset) 0 0)
    (fun pos => offset_of (JS.split_nl text) (line pos) (character pos))
    (fun l => nth l (JS.split_nl text) []).

End Parser.

(** ** The per-file parser cache

    [getParserForDocument] is the same method in referenceProvider.ts,
    workspaceSymbolProvider.ts and definitionProvider.ts.  Parsers are
    objects: the provider holds references to them, so the store of parser
    objects is part of the state and a reference is an index into it. *)

Module Cache.
Import Parser.

(** [{ parser: LDLParser; lastModified: number }] *)
Record CacheEntry := mkEntry {
  parser : nat;
  lastModified : Z
}.

Record Provider := mkProvider {
  parsedDocuments : gmap jsstring CacheEntry;
  heap : list LDLParser
}.

Definition newProvider : Provider := mkProvider ∅ [].

(** [mtime] is the result of [(await vscode.workspace.fs.stat(uri)).mtime];
    nothing is awaited after it.  The result is the reference returned and
    the provider after the call. *)
Definition getParserForDocument (document : TextDocument) (mtime : Z)
    (st : Provider) : nat * Provider :=
  let uri_ := uri document in
  let lastModified_ := mtime in
  let fresh :=
    let parser_ := length (heap st) in
    let heap' := heap st ++ [parseDocument document newParser] in
    (parser_,
     mkProvider (<[uri_ := mkEntry parser_ lastModified_]> (parsedDocuments st))
       heap') in
  match parsedDocuments st !! uri_ with
  | Some cached =>
      if (lastModified_ <=? lastModified cached)%Z
      then (parser cached, st)
      else fresh
  | None => fresh
  end.

(** [clearCache] *)
Definition clearCache (st : Provider) : Provider :=
  mkProvider ∅ (heap st).

End Cache.

(** ** Reference search (referenceProvider.ts) *)

Module References.
Import RegExp Parser.

Definition isInComment (line_ : jsstring) (position_ : nat) : bool :=
  let commentIndex := JS.indexOf (u "//") line_ in
  if negb (commentIndex =? -1)%Z && (commentIndex <=? Z.of_nat position_)%Z
  then true
  else
    let docCommentIndex := JS.indexOf (u "///") line_ in
    if negb (docCommentIndex =? -1)%Z
       && (docCommentIndex <=? Z.of_nat position_)%Z
    then true
    else false.

(** The three flags of [isInString]. *)
Record QuoteState := mkQuoteState {
  inString : bool;
  inSingleQuote : bool;
  inDoubleQuote : bool
}.

Definition quoteStep (st : QuoteState) (char : N) : QuoteState :=
  if (char =? dquote)%N && negb (inSingleQuote st) then
    let inDoubleQuote' := negb (inDoubleQuote st) in
    mkQuoteState (inDoubleQuote' || inSingleQuote st) (inSingleQuote st)
      inDoubleQuote'
  else if (char =? squote)%N && negb (inDoubleQuote st) then
    let inSingleQuote' := negb (inSingleQuote st) in
    mkQuoteState (inDoubleQuote st || inSingleQuote') inSingleQuote'
      (inDoubleQuote st)
  else st.

(** [for (let i = 0; i < position && i < line.length; i++)] *)
Definition isInString (line_ : jsstring) (position_ : nat) : bool :=
  inString (fold_left quoteStep (take position_ line_)
              (mkQuoteState false false false)).

(** The four expressions built for a symbol name.  [escapeRegex] quotes
    every special character of the name, so that the name stands for itself
    in the compiled expression: [Lit symbolName]. *)
Definition callPattern (symbolName : jsstring) : regex :=
  seq_all [WordB; Lit symbolName; Star JS.is_space; Lit (u "(")].

Definition usePattern (symbolName : jsstring) : regex :=
  seq_all [WordB; Lit symbolName; WordB;
           NotAhead (Seq (Star JS.is_space) (Chr (JS.one_of (u ":(="))))].

Definition typePattern (symbolName : jsstring) : regex :=
  seq_all [Alt (Lit (u ":")) (Lit (u "extends")); Plus JS.is_space;
           Lit symbolName; WordB].

Definition dotPattern (symbolName : jsstring) : regex :=
  seq_all [Lit (u "."); Star JS.is_space; Lit symbolName; WordB].

Definition patterns (symbolName : jsstring) : list regex :=
  [callPattern symbolName; usePattern symbolName; typePattern symbolName;
   dotPattern symbolName].

(** [new RegExp(`\\b${name}\\b`)] *)
Definition symbolPattern (symbolName : jsstring) : regex :=
  seq_all [WordB; Lit symbolName; WordB].

Definition samePosition (a b : Position) : bool :=
  Nat.eqb (line a) (line b) && Nat.eqb (character a) (character b).

(** The body of the [while] loop for one match of one pattern. *)
Definition addReference (lineIndex : nat) (line_ : jsstring)
    (symbolName : jsstring) (references : list Position) (m : RegExpMatch)
  : list Position :=
  if isInComment line_ (index m) then references
  else if isInString line_ (index m) then references
  else
    match match_first (symbolPattern symbolName) (matched m) with
    | Some symbolMatch =>
        let symbolStart := index m + index symbolMatch in
        let position_ := mkPosition lineIndex symbolStart in
        if existsb (fun ref => samePosition ref position_) references
        then references
        else references ++ [position_]
    | None => references
    end.

Definition scanPattern (lineIndex : nat) (line_ : jsstring)
    (symbolName : jsstring) (references : list Position) (pattern : regex)
  : list Position :=
  fold_left (addReference lineIndex line_ symbolName)
    (exec_all pattern line_) references.

Definition scanLine (symbolName : jsstring) (references : list Position)
    (entry : nat * jsstring) : list Position :=
  let '(lineIndex, line_) := entry in
  fold_left (scanPattern lineIndex line_ symbolName) (patterns symbolName)
    references.

Definition findReferencesInDocument (document : TextDocument)
    (symbolName : jsstring) : list Position :=
  let text := getText document in
  let lines := JS.split_nl text in
  fold_left (scanLine symbolName) (combine (seq 0 (length lines)) lines) [].

End References.

(** ** Completion: ranking and the version generator (completionProvider.ts) *)

Module Completion.
Import RegExp Parser.

(** [interface UsageStats] *)
Record UsageStats := mkUsage {
  symbol : jsstring;
  frequency : Z;
  lastUsed : Z;
  contexts : list jsstring
}.

(** [interface CompletionContext] *)
Record CompletionContext := mkContext {
  currentFunction : option jsstring;
  currentClass : option jsstring;
  nearbySymbols : list LDLSymbol;
  recentlyUsed : list jsstring;
  documentScope : list LDLSymbol
}.

Inductive CompletionItemKind :=
| Function | EnumMember | Keyword | TypeParameter | Class | Interface
| Variable_.

Inductive InsertText :=
| PlainText (s : jsstring)
| SnippetString (s : jsstring).

(** The fields of [vscode.CompletionItem] that the provider writes. *)
Record CompletionItem := mkItem {
  label : jsstring;
  kind : CompletionItemKind;
  detail : option jsstring;
  insertText : option InsertText;
  documentation : option jsstring;
  sortText : option jsstring;
  deprecatedTag : bool
}.

(** The state of [LDLCompletionProvider] read by the functions below. *)
Record Provider := mkProvider {
  parser : LDLParser;
  usageHistory : gmap jsstring UsageStats;
  contextHistory : list jsstring
}.

Definition maxHistorySize : nat := 50.

(** [updateUsageStats(symbol, context)] at the clock reading [now]. *)
Definition updateUsageStats (symbol_ : jsstring) (context : option jsstring)
    (now : Z) (st : Provider) : Provider :=
  let usageHistory' :=
    match usageHistory st !! symbol_ with
    | Some existing =>
        let contexts' :=
          match context with
          | Some c =>
              if truthy context
                 && negb (existsb (JS.str_eqb c) (contexts existing))
              then contexts existing ++ [c] else contexts existing
          | None => contexts existing
          end in
        <[symbol_ := mkUsage (symbol existing) (frequency existing + 1) now
                        contexts']> (usageHistory st)
    | None =>
        <[symbol_ := mkUsage symbol_ 1 now
                        (match context with
                         | Some c => if truthy context then [c] else []
                         | None => []
                         end)]> (usageHistory st)
    end in
  let contextHistory' := contextHistory st ++ [symbol_] in
  let contextHistory'' :=
    if maxHistorySize <? length contextHistory'
    then drop 1 contextHistory' else contextHistory' in
  mkProvider (parser st) usageHistory' contextHistory''.

(** [/fn\s+(\w+)[^}]*$/] *)
Definition currentFunctionRegex : regex :=
  seq_all [Lit (u "fn"); Plus JS.is_space; Group 1 (Plus JS.is_word);
           Star (JS.none_of (u "}")); Eol].

(** [/class\s+(\w+)[^}]*$/] *)
Definition currentClassRegex : regex :=
  seq_all [Lit (u "class"); Plus JS.is_space; Group 1 (Plus JS.is_word);
           Star (JS.none_of (u "}")); Eol].

Definition findCurrentFunction (document : TextDocument) (position_ : Position)
  : option jsstring :=
  let text := getText document in
  let offset := offsetAt document position_ in
  let beforeText := JS.substring 0 offset text in
  match match_first currentFunctionRegex beforeText with
  | Some functionMatch => cap 1 functionMatch
  | None => None
  end.

Definition findCurrentClass (document : TextDocument) (position_ : Position)
  : option jsstring :=
  let text := getText document in
  let offset := offsetAt document position_ in
  let beforeText := JS.substring 0 offset text in
  match match_first currentClassRegex beforeText with
  | Some classMatch => cap 1 classMatch
  | None => None
  end.

Definition lineDistance (s : LDLSymbol) (currentLine : nat) : Z :=
  Z.abs (Z.of_nat (line (position s)) - Z.of_nat currentLine).

Definition findNearbySymbols (p : LDLParser) (position_ : Position)
    (range : Z) : list LDLSymbol :=
  let allSymbols := getAllSymbols p in
  let currentLine := line position_ in
  JS.sort_by
    (fun a b =>
       (lineDistance a currentLine - lineDistance b currentLine <=? 0)%Z)
    (List.filter (fun s => (lineDistance s currentLine <=? range)%Z)
       allSymbols).

(** [this.contextHistory.slice(-limit)] *)
Definition getRecentlyUsedSymbols (st : Provider) (limit : nat)
  : list jsstring :=
  drop (length (contextHistory st) - limit) (contextHistory st).

Definition buildCompletionContext (st : Provider) (document : TextDocument)
    (position_ : Position) : CompletionContext :=
  let allSymbols := getAllSymbols (parser st) in
  let documentScope_ := allSymbols in
  mkContext (findCurrentFunction document position_)
    (findCurrentClass document position_)
    (findNearbySymbols (parser st) position_ 10)
    (getRecentlyUsedSymbols st 10)
    documentScope_.

Section Ranking.

(** The two locale-dependent string methods of the host. *)
Variable toLowerCase : jsstring -> jsstring.
Variable localeCompare : jsstring -> jsstring -> Z.

(** The prefix or substring match of the label against the typed word. *)
Definition matchScore (typed : jsstring) (item : CompletionItem) : Z :=
  if JS.startsWith (toLowerCase typed) (toLowerCase (label item)) then 100
  else if JS.includes (toLowerCase typed) (toLowerCase (label item)) then 50
  else 0.

Definition frequencyScore (usage : UsageStats) : Z :=
  Z.min (frequency usage * 10) 50.

Definition recencyScore (now : Z) (usage : UsageStats) : Z :=
  let timeDiff := (now - lastUsed usage)%Z in
  if (timeDiff <? 60000)%Z then 30
  else if (timeDiff <? 300000)%Z then 20
  else if (timeDiff <? 3600000)%Z then 10
  else 0.

Definition usageScore (usageHistory_ : gmap jsstring UsageStats) (now : Z)
    (item : CompletionItem) : Z :=
  match usageHistory_ !! label item with
  | Some usage => frequencyScore usage + recencyScore now usage
  | None => 0
  end.

Definition contextScore (context : CompletionContext) (item : CompletionItem)
  : Z :=
  match currentFunction context, detail item with
  | Some f, Some d =>
      if truthy (Some f) && JS.includes f d then 25 else 0
  | _, _ => 0
  end.

(** The value of [score] at the end of the callback of [map]. *)
Definition itemScore (usageHistory_ : gmap jsstring UsageStats)
    (typed : jsstring) (context : CompletionContext) (now : Z)
    (item : CompletionItem) : Z :=
  (matchScore typed item + usageScore usageHistory_ now item
   + contextScore context item)%Z.

(** [`${String(1000 - score).padStart(4, '0')}_${item.label}`] *)
Definition sortKey (score : Z) (label_ : jsstring) : jsstring :=
  JS.padStart 4 48%N (JS.toString (1000 - score)) ++ u "_" ++ label_.

(** The callback of [completions.map]; [now] is the reading of [Date.now()]
    in this call. *)
Definition rankItem (usageHistory_ : gmap jsstring UsageStats)
    (typed : jsstring) (context : CompletionContext) (now : Z)
    (item : CompletionItem) : CompletionItem :=
  let score := itemScore usageHistory_ typed context now item in
  mkItem (label item) (kind item) (detail item) (insertText item)
    (documentation item) (Some (sortKey score (label item)))
    (deprecatedTag item).

(** [(a, b) => (a.sortText || '').localeCompare(b.sortText || '')], as the
    test [cmp(a, b) <= 0]. *)
Definition sortTextLeb (a b : CompletionItem) : bool :=
  (localeCompare (or_empty (sortText a)) (or_empty (sortText b)) <=? 0)%Z.

(** [clock i] is the reading of [Date.now()] while the item at index [i] is
    scored. *)
Definition applyIntelligentRanking (st : Provider) (clock : nat -> Z)
    (completions : list CompletionItem) (textBeforeCursor : jsstring)
    (context : CompletionContext) : list CompletionItem :=
  let typed := JS.last_word textBeforeCursor in
  JS.sort_by sortTextLeb
    (imap
       (fun i item => rankItem (usageHistory st) typed context (clock i) item)
       completions).

End Ranking.

(** [/(\w+)\s*\([^)]*version\s*:\s*[\x22']?[^\x22']*$/] *)
Definition versionCallRegex : regex :=
  seq_all [Group 1 (Plus JS.is_word); Star JS.is_space; Lit (u "(");
           Star (JS.none_of (u ")")); Lit (u "version"); Star JS.is_space;
           Lit (u ":"); Star JS.is_space;
           Opt (Chr (JS.one_of [dquote; squote]));
           Star (JS.none_of [dquote; squote]); Eol].

(** A [Set<string>]: its elements in insertion order. *)
Definition set_has (x : jsstring) (s : list jsstring) : bool :=
  existsb (JS.str_eqb x) s.

Definition set_add (x : jsstring) (s : list jsstring) : list jsstring :=
  if set_has x s then s else s ++ [x].

(** The loop that collects [func.version] of every symbol into the set. *)
Definition collectVersions (functions : list LDLSymbol) : list jsstring :=
  fold_left
    (fun versions func =>
       if truthy (version func)
       then set_add (or_empty (version func)) versions
       else versions)
    functions [].

Definition commonVersions : list jsstring :=
  [u "basic"; u "advanced"; u "academic"; u "practical"; u "simplified";
   u "enhanced"].

(** The item of a version in use; its detail is the function name followed
    by a space and three CJK code units, its documentation is a CJK caption
    and the version between backquotes. *)
Definition existingVersionItem (functionName version_ : jsstring)
  : CompletionItem :=
  mkItem version_ EnumMember
    (Some (functionName ++ [32; 30340; 29256; 26412]%N))
    (Some (PlainText version_))
    (Some ([20989; 25968; 29256; 26412; 58; 32; 96]%N ++ version_ ++ [96%N]))
    None false.

(** The item of a catalog version, with [sortText = `z_${version}`]. *)
Definition commonVersionItem (version_ : jsstring) : CompletionItem :=
  mkItem version_ EnumMember
    (Some [24120; 29992; 29256; 26412; 21517]%N)
    (Some (PlainText version_)) None (Some (u "z_" ++ version_)) false.

Definition provideVersionCompletions (p : LDLParser)
    (textBeforeCursor : jsstring) : list CompletionItem :=
  match match_first versionCallRegex textBeforeCursor with
  | None => []
  | Some functionMatch =>
      let functionName := or_empty (cap 1 functionMatch) in
      let functions := findAllSymbols p functionName None None in
      let versions := collectVersions functions in
      map (existingVersionItem functionName) versions
      ++ map commonVersionItem
           (List.filter (fun v => negb (set_has v versions)) commonVersions)
  end.

Definition quote_cls : N -> bool := JS.one_of [dquote; squote].
Definition not_quote_cls : N -> bool := JS.none_of [dquote; squote].
Definition alpha_cls : N -> bool :=
  JS.or_cls (JS.in_range 97 122) (JS.in_range 65 90).
Definition alpha__cls : N -> bool := JS.or_cls alpha_cls (JS.is_char 95).

(** [/@label\(\s*[\x22']?$/] or [/@label\(\s*[\x22'][^\x22']*$/] *)
Definition isLabelContext (textBeforeCursor : jsstring) : bool :=
  test (seq_all [Lit (u "@label("); Star JS.is_space; Opt (Chr quote_cls); Eol])
    textBeforeCursor
  || test (seq_all [Lit (u "@label("); Star JS.is_space; Chr quote_cls;
                    Star not_quote_cls; Eol])
       textBeforeCursor.

(** [/^\s*[a-zA-Z_]*$/] or [/[\s\{\}\(\),]\s*[a-zA-Z_]*$/] *)
Definition isFunctionCallContext (textBeforeCursor : jsstring) : bool :=
  test (seq_all [Bol false; Star JS.is_space; Star alpha__cls; Eol])
    textBeforeCursor
  || test (seq_all [Chr (JS.or_cls JS.is_space (JS.one_of (u "{}(),")));
                    Star JS.is_space; Star alpha__cls; Eol])
       textBeforeCursor.

(** [/^\s*[a-zA-Z]*$/] or [/\b(let|return|if|else|for|while)\s+[a-zA-Z]*$/] *)
Definition isKeywordContext (textBeforeCursor : jsstring) : bool :=
  test (seq_all [Bol false; Star JS.is_space; Star alpha_cls; Eol])
    textBeforeCursor
  || test (seq_all [WordB;
                    Group 1 (Alt (Lit (u "let")) (Alt (Lit (u "return"))
                      (Alt (Lit (u "if")) (Alt (Lit (u "else"))
                        (Alt (Lit (u "for")) (Lit (u "while")))))));
                    Plus JS.is_space; Star alpha_cls; Eol])
       textBeforeCursor.

(** [/:\s*[a-zA-Z_]*$/] or [/->\s*[a-zA-Z_]*$/] *)
Definition isTypeContext (textBeforeCursor : jsstring) : bool :=
  test (seq_all [Lit (u ":"); Star JS.is_space; Star alpha__cls; Eol])
    textBeforeCursor
  || test (seq_all [Lit (u "->"); Star JS.is_space; Star alpha__cls; Eol])
       textBeforeCursor.

Definition isParameterContext (textBeforeCursor lineText : jsstring)
    (position_ : Position) : bool :=
  let beforeCursor := textBeforeCursor in
  let afterCursor := JS.substring_from (character position_) lineText in
  let lastOpenParen := JS.lastIndexOf (u "(") beforeCursor in
  let lastCloseParen := JS.lastIndexOf (u ")") beforeCursor in
  let nextCloseParen := JS.indexOf (u ")") afterCursor in
  (lastCloseParen <? lastOpenParen)%Z && negb (nextCloseParen =? -1)%Z.

(** [/version\s*:\s*[\x22']?[^\x22']*$/] *)
Definition isVersionContext (textBeforeCursor : jsstring) : bool :=
  test (seq_all [Lit (u "version"); Star JS.is_space; Lit (u ":");
                 Star JS.is_space; Opt (Chr quote_cls); Star not_quote_cls;
                 Eol])
    textBeforeCursor.

(** [/\b(let|const)\s+\w*$/] or [/^\s*\w*$/] or [/[=\s]\w*$/] *)
Definition isVariableContext (textBeforeCursor : jsstring) : bool :=
  test (seq_all [WordB; Group 1 (Alt (Lit (u "let")) (Lit (u "const")));
                 Plus JS.is_space; Star JS.is_word; Eol])
    textBeforeCursor
  || test (seq_all [Bol false; Star JS.is_space; Star JS.is_word; Eol])
       textBeforeCursor
  || test (seq_all [Chr (JS.or_cls (JS.is_char 61) JS.is_space);
                    Star JS.is_word; Eol])
       textBeforeCursor.

Definition shouldProvideVariables (textBeforeCursor : jsstring) : bool :=
  let word := JS.last_word textBeforeCursor in
  (0 <? length word)
  && test (seq_all [Bol false; Chr alpha__cls; Star JS.is_word; Eol]) word
  && negb (isLabelContext textBeforeCursor)
  && negb (isVersionContext textBeforeCursor)
  && negb (isTypeContext textBeforeCursor).

Section Provider.

Variable toLowerCase : jsstring -> jsstring.
Variable localeCompare : jsstring -> jsstring -> Z.

(** The generators of the other contexts and the variable provider, which
    this development does not look into. *)
Variables provideLabelCompletions provideFunctionCompletions
  provideKeywordCompletions provideTypeCompletions
  provideParameterCompletions provideVariableCompletions
  provideIntelligentSuggestions
  : Provider -> TextDocument -> Position -> jsstring -> CompletionContext ->
    list CompletionItem.

(** [provideCompletionItems] when the completion cache has no fresh entry
    for the request: the items returned and the provider after the call
    (its parser has been run on the document). *)
Definition provideCompletionItems (st : Provider) (clock : nat -> Z)
    (document : TextDocument) (position_ : Position)
  : list CompletionItem * Provider :=
  let lineText := lineAt document (line position_) in
  let textBeforeCursor := JS.substring 0 (character position_) lineText in
  let st1 :=
    mkProvider (parseDocument document (parser st)) (usageHistory st)
      (contextHistory st) in
  let completionContext := buildCompletionContext st1 document position_ in
  let generated :=
    if isLabelContext textBeforeCursor then
      provideLabelCompletions st1 document position_ textBeforeCursor
        completionContext
    else if isFunctionCallContext textBeforeCursor then
      provideFunctionCompletions st1 document position_ textBeforeCursor
        completionContext
    else if isKeywordContext textBeforeCursor then
      provideKeywordCompletions st1 document position_ textBeforeCursor
        completionContext
    else if isTypeContext textBeforeCursor then
      provideTypeCompletions st1 document position_ textBeforeCursor
        completionContext
    else if isParameterContext textBeforeCursor lineText position_ then
      provideParameterCompletions st1 document position_ textBeforeCursor
        completionContext
    else if isVersionContext textBeforeCursor then
      provideVersionCompletions (parser st1) textBeforeCursor
    else if isVariableContext textBeforeCursor then
      provideVariableCompletions st1 document position_ textBeforeCursor
        completionContext
    else
      provideIntelligentSuggestions st1 document position_ textBeforeCursor
        completionContext in
  let completions :=
    if shouldProvideVariables textBeforeCursor
    then generated
         ++ provideVariableCompletions st1 document position_ textBeforeCursor
              completionContext
    else generated in
  (applyIntelligentRanking toLowerCase localeCompare st1 clock completions
     textBeforeCursor completionContext,
   st1).

End Provider.

(** The host functions on ASCII text: lower case of the Latin letters, and
    comparison by code units. *)
Definition asciiLowerCase (s : jsstring) : jsstring :=
  map (fun c => if JS.in_range 65 90 c then (c + 32)%N else c) s.

Fixpoint codeUnitCompare (a b : jsstring) : Z :=
  match a, b with
  | [], [] => 0
  | [], _ :: _ => -1
  | _ :: _, [] => 1
  | c :: a', d :: b' =>
      if (c <? d)%N then -1
      else if (d <? c)%N then 1
      else codeUnitCompare a' b'
  end.

End Completion.

(** ** The generators of function and label candidates
    (completionProvider.ts) *)

Module Generators.
Import RegExp Parser Completion.

(** The string that is the value of [symbol.type]. *)
Definition typeName (t : SymbolType) : jsstring :=
  match t with
  | function => u "function"
  | pipeline => u "pipeline"
  | type_alias => u "type_alias"
  | macro => u "macro"
  | constant => u "constant"
  | class => u "class"
  | method => u "method"
  end.

(** [array.join(sep)] *)
Fixpoint join (sep : jsstring) (l : list jsstring) : jsstring :=
  match l with
  | [] => []
  | [x] => x
  | x :: l' => x ++ sep ++ join sep l'
  end.

(** [func.labels && func.labels.length > 0] *)
Definition hasLabels (func : LDLSymbol) : bool :=
  match labels func with Some (_ :: _) => true | _ => false end.

Definition labelsOf (func : LDLSymbol) : list jsstring :=
  match labels func with Some ls => ls | None => [] end.

Definition getFunctionDetail (func : LDLSymbol) : jsstring :=
  let detail0 := typeName (type func) in
  let detail1 :=
    if truthy (version func)
    then detail0 ++ u " (v" ++ or_empty (version func) ++ u ")"
    else detail0 in
  let detail2 :=
    if truthy (className func)
    then detail1 ++ u " in " ++ or_empty (className func)
    else detail1 in
  if hasLabels func
  then detail2 ++ u " @" ++ join (u " @") (labelsOf func)
  else detail2.

Definition backquote : N := 96.

(** The value of the [MarkdownString] built by [getFunctionDocumentation];
    the captions between the asterisks are CJK words, given by their code
    units. *)
Definition getFunctionDocumentation (func : LDLSymbol) : jsstring :=
  let docs0 :=
    if truthy (Parser.documentation func)
    then u "**" ++ or_empty (Parser.documentation func) ++ u "**"
         ++ [newline; newline]
    else [] in
  let docs1 :=
    docs0 ++ u "**" ++ [31867; 22411]%N ++ u "**: " ++ typeName (type func)
    ++ [newline; newline] in
  let docs2 :=
    if truthy (version func)
    then docs1 ++ u "**" ++ [29256; 26412]%N ++ u "**: "
         ++ or_empty (version func) ++ [newline; newline]
    else docs1 in
  let docs3 :=
    if hasLabels func
    then docs2 ++ u "**" ++ [26631; 31614]%N ++ u "**: "
         ++ join (u ", ")
              (map (fun l => backquote :: l ++ [backquote]) (labelsOf func))
         ++ [newline; newline]
    else docs2 in
  if truthy (className func)
  then docs3 ++ u "**" ++ [25152; 23646; 31867]%N ++ u "**: "
       ++ backquote :: or_empty (className func) ++ [backquote]
       ++ [newline; newline]
  else docs3.

Definition getFunctionSortText (func : LDLSymbol) : jsstring :=
  let priority0 := u "b" in
  let priority1 :=
    if truthy (Parser.documentation func) then u "a" else priority0 in
  let priority2 :=
    if bool_decide (type func = pipeline) then u "a" else priority1 in
  priority2 ++ u "_" ++ name func.

(** The candidate built in the loop of [provideFunctionCompletions]. *)
Definition functionItem (func : LDLSymbol) : CompletionItem :=
  mkItem (name func) Function
    (Some (getFunctionDetail func))
    (Some (if bool_decide (type func = function)
              || bool_decide (type func = method)
           then SnippetString (name func ++ u "($1)$0")
           else PlainText (name func)))
    (Some (getFunctionDocumentation func))
    (Some (getFunctionSortText func))
    (hasLabels func).

Definition provideFunctionCompletions (st : Provider)
    (document : TextDocument) (position_ : Position)
    (textBeforeCursor : jsstring) (context : CompletionContext)
  : list CompletionItem :=
  let allSymbols := getAllSymbols (parser st) in
  let functions :=
    List.filter
      (fun s =>
         bool_decide (type s = function) || bool_decide (type s = pipeline)
         || bool_decide (type s = method))
      allSymbols in
  map functionItem functions.

Definition commonLabels : list jsstring :=
  [u "learning"; u "reading"; u "memory"; u "analysis"; u "thinking";
   u "philosophy"; u "science"; u "mathematics"; u "language";
   u "academic"; u "practical"; u "beginner"; u "intermediate";
   u "advanced"; u "visual"; u "auditory"; u "kinesthetic"; u "systematic";
   u "creative"].

(** The item of a label in use; its detail and the caption of its
    documentation are CJK words. *)
Definition existingLabelItem (label_ : jsstring) : CompletionItem :=
  mkItem label_ EnumMember
    (Some [24050; 23384; 22312; 30340; 26631; 31614]%N)
    (Some (PlainText label_))
    (Some ([20351; 29992; 29616; 26377; 26631; 31614; 58; 32; 96]%N
           ++ label_ ++ [backquote]))
    None false.

(** The item of a catalog label, with [sortText = `z_${label}`]. *)
Definition commonLabelItem (label_ : jsstring) : CompletionItem :=
  mkItem label_ EnumMember
    (Some [24120; 29992; 26631; 31614]%N)
    (Some (PlainText label_))
    (Some ([24120; 29992; 26631; 31614; 24314; 35758; 58; 32; 96]%N
           ++ label_ ++ [backquote]))
    (Some (u "z_" ++ label_)) false.

(** [existingLabels.includes(label)] *)
Definition includes_ (x : jsstring) (l : list jsstring) : bool :=
  existsb (JS.str_eqb x) l.

Definition provideLabelCompletions (st : Provider) (document : TextDocument)
    (position_ : Position) (textBeforeCursor : jsstring)
    (context : CompletionContext) : list CompletionItem :=
  let existingLabels := getAllLabels (parser st) in
  map existingLabelItem existingLabels
  ++ map commonLabelItem
       (List.filter (fun label_ => negb (includes_ label_ existingLabels))
          commonLabels).

End Generators.

(** * Vocabulary of the statements *)

Import RegExp Parser.

(** ** Measures of regular expressions *)

(** A lower bound on the number of code units that a match consumes. *)
Fixpoint min_len (r : regex) : nat :=
  match r with
  | Chr _ => 1
  | Lit s => length s
  | Seq a b => min_len a + min_len b
  | Alt a b => Nat.min (min_len a) (min_len b)
  | Group _ a => min_len a
  | Eps | Star _ | Opt _ | Bol _ | Eol | WordB | NotAhead _ => 0
  end.

(** Every capture group of the expression consumes at least one code unit,
    so that no capture is the empty string. *)
Fixpoint groups_nonempty (r : regex) : bool :=
  match r with
  | Seq a b | Alt a b => groups_nonempty a && groups_nonempty b
  | Opt a => groups_nonempty a
  | Group _ a => (0 <? min_len a) && groups_nonempty a
  | _ => true
  end.

(** Group [n] takes part in every match of the expression. *)
Fixpoint sets_group (n : nat) (r : regex) : bool :=
  match r with
  | Seq a b => sets_group n a || sets_group n b
  | Alt a b => sets_group n a && sets_group n b
  | Group i a => Nat.eqb i n || sets_group n a
  | _ => false
  end.

(** No capture is the empty string. *)
Definition caps_ok (caps : list (nat * jsstring)) : Prop :=
  Forall (fun c => snd c <> []) caps.

(** What matching [r] from [st] to [st'] guarantees: progress by at least
    [min_len r], within the subject, and the captures added. *)
Record step_ok (r : regex) (st st' : mstate) : Prop := {
  step_pos : m_pos st + min_len r <= m_pos st';
  step_len : m_pos st' + length (m_rest st') = m_pos st + length (m_rest st);
  step_caps : exists extra,
    m_caps st' = extra ++ m_caps st /\
    (groups_nonempty r = true -> caps_ok extra) /\
    (forall n, sets_group n r = true -> group n extra <> None)
}.

(** What a match of [r] found between the offsets [lo] and [hi]
    guarantees. *)
Record match_ok (r : regex) (lo hi : nat) (m : RegExpMatch) : Prop := {
  mok_index : lo <= index m;
  mok_end : index m + min_len r <= end_index m;
  mok_hi : end_index m <= hi;
  mok_caps : groups_nonempty r = true -> caps_ok (groups m);
  mok_sets : forall n, sets_group n r = true -> group n (groups m) <> None
}.

(** The value of [lastIndex] after the matches [ms], found from [i] on. *)
Fixpoint lastIndexAfter (ms : list RegExpMatch) (i : nat) : nat :=
  match ms with
  | [] => i
  | m :: ms' => lastIndexAfter ms' (end_index m)
  end.

(** ** The brace scanner without its early return *)

(** No code unit of [body], read after [before], closes a string opened by
    the quote [q]: every [q] in it follows a backslash. *)
Fixpoint staysOpen (q : N) (before : N) (body : jsstring) : bool :=
  match body with
  | [] => true
  | c :: body' =>
      (negb (c =? q)%N || (before =? backslash)%N) && staysOpen q c body'
  end.

(** The state after [n] rounds of the loop. *)
Fixpoint braceRun (before : option N) (rest : jsstring) (n : nat)
    (st : BraceState) : BraceState :=
  match n, rest with
  | S n', char :: rest' =>
      braceRun (Some char) rest' n' (fst (braceStep before char st))
  | _, _ => st
  end.

(** The state in which the loop started at [startIndex] reaches offset
    [i]. *)
Definition braceStateAt (text : jsstring) (startIndex i : nat) : BraceState :=
  braceRun (prev_at text startIndex) (drop startIndex text) (i - startIndex)
    braceInit.

(** The braces balance at offset [i]: a closing brace outside any string
    brings the count to zero there. *)
Definition closesAt (text : jsstring) (startIndex i : nat) : bool :=
  match text !! i with
  | Some char =>
      snd (braceStep (prev_at text i) char (braceStateAt text startIndex i))
  | None => false
  end.

(** The same test on the rest of the text, by rounds. *)
Definition roundReturns (before : option N) (rest : jsstring) (st : BraceState)
    (n : nat) : bool :=
  match rest !! n with
  | Some char =>
      snd (braceStep (match n with O => before | S m => rest !! m end) char
             (braceRun before rest n st))
  | None => false
  end.

(** ** The symbols of a parse, in the order of their insertion *)

Definition methodTrace (text : jsstring) (document : TextDocument)
    (className_ : jsstring) (classStartIndex : nat) : list LDLSymbol :=
  map (methodSymbol text document className_ classStartIndex)
    (exec_all methodRegex
       (JS.substring classStartIndex (findClassEndIndex text classStartIndex)
          text)).

Definition classTrace (text : jsstring) (document : TextDocument)
  : list LDLSymbol :=
  flat_map
    (fun m =>
       classSymbol text document m
       :: methodTrace text document (name (classSymbol text document m))
            (index m))
    (exec_all classRegex text).

Definition functionTrace (text : jsstring) (document : TextDocument)
  : list LDLSymbol :=
  map (functionSymbol text document)
    (List.filter (fun m => negb (isInsideClass text (index m)))
       (exec_all fnRegex text)).

Definition parseTrace (document : TextDocument) : list LDLSymbol :=
  let text := getText document in
  classTrace text document ++ functionTrace text document
  ++ map (pipelineSymbol text document) (exec_all pipelineRegex text)
  ++ map (aliasSymbol document) (exec_all aliasRegex text)
  ++ map (macroSymbol document) (exec_all macroRegex text)
  ++ map (constantSymbol document) (exec_all constRegex text).

(** Insert the symbols one after the other. *)
Definition insertAll (l : list LDLSymbol) (p : LDLParser) : LDLParser :=
  fold_left (fun p s => insertSymbol s p) l p.

(** The test that selects the bucket of a name. *)
Definition named (n : jsstring) (s : LDLSymbol) : bool :=
  JS.str_eqb (name s) n.

(** What the expressions of the parser guarantee of every symbol: a name,
    owner and version tag that are not empty, and an owner for methods
    only. *)
Definition wellFormed (s : LDLSymbol) : Prop :=
  name s <> [] /\ version s <> Some [] /\ className s <> Some [] /\
  (type s = method <-> className s <> None).


(** ** Sample documents *)

(** The quoted string literal [\x22text\x22]. *)
Definition quoted (s : string) : jsstring := dquote :: u s ++ [dquote].
Arguments quoted s%_string.

(** Two overloads of one free function. *)
Definition overloadsDocument : TextDocument :=
  mkDocument (u "methods.ldl")
    (u "fn SQ3R(version: " ++ quoted "classic" ++ u ")" ++ [newline]
     ++ u "fn SQ3R(version: " ++ quoted "academic" ++ u ")" ++ [newline]).

Definition classicSymbol : LDLSymbol :=
  mkSymbol (u "SQ3R") (mkPosition 0 0) function (Some (u "classic")) None None
    None None None (Some []) None.

Definition academicSymbol : LDLSymbol :=
  mkSymbol (u "SQ3R") (mkPosition 1 0) function (Some (u "academic")) None
    None None None None (Some []) None.

(** A method and a free function of the same name. *)
Definition ownerDocument : TextDocument :=
  mkDocument (u "owner.ldl")
    (u "class T {" ++ [newline] ++ u "  fn foo()" ++ [newline] ++ u "}"
     ++ [newline] ++ u "fn foo()" ++ [newline]).

Definition methodFoo : LDLSymbol :=
  mkSymbol (u "foo") (mkPosition 1 2) method None None None (Some (u "T"))
    None (Some false) (Some []) None.

Definition freeFoo : LDLSymbol :=
  mkSymbol (u "foo") (mkPosition 3 0) function None None None None None None
    (Some []) None.

(** Two documentation comments above one function. *)
Definition twoCommentsDocument : TextDocument :=
  mkDocument (u "doc.ldl")
    (u "/// far" ++ [newline] ++ u "/// near" ++ [newline] ++ u "fn f()").

(** ** The lines seen by the backward scan *)

Definition isLabelLine (l : jsstring) : bool :=
  match match_first labelRegex (JS.trim l) with
  | Some _ => true
  | None => false
  end.

Definition isDocLine (l : jsstring) : bool :=
  negb (isLabelLine l) && JS.startsWith (u "///") (JS.trim l).

(** The lines at which the scan stops: not blank, not an annotation, not a
    comment. *)
Definition stopsScan (l : jsstring) : bool :=
  negb (isLabelLine l) && negb (JS.startsWith (u "///") (JS.trim l))
  && (negb (JS.str_eqb (JS.trim l) [])
      && negb (JS.startsWith (u "@") (JS.trim l))
      && negb (JS.startsWith (u "//") (JS.trim l))).

(** The lines that the scan visits, nearest first. *)
Fixpoint scannedLines (ls : list jsstring) : list jsstring :=
  match ls with
  | [] => []
  | l :: ls' => if stopsScan l then [] else l :: scannedLines ls'
  end.

(** The text recorded for a documentation line. *)
Definition docText (l : jsstring) : jsstring :=
  JS.trim (JS.substring_from 3 (JS.trim l)).

(** ** Lexicographic order on code units *)

Inductive lexLt : jsstring -> jsstring -> Prop :=
| lexLt_nil c b : lexLt [] (c :: b)
| lexLt_lt c d a b : (c < d)%N -> lexLt (c :: a) (d :: b)
| lexLt_eq c a b : lexLt a b -> lexLt (c :: a) (c :: b).

(** Labels written out of alphabetical order. *)
Definition labelsDocument : TextDocument :=
  mkDocument (u "labels.ldl")
    (u "@label(" ++ quoted "reading" ++ u ")" ++ [newline]
     ++ u "@label(" ++ quoted "academic" ++ u ")" ++ [newline]
     ++ u "fn SQ3R()" ++ [newline]
     ++ u "@label(" ++ quoted "reading" ++ u ")" ++ [newline]
     ++ u "pipeline study" ++ [newline]).

(** A parser that has been run on another document. *)
Definition staleParser : LDLParser := parseDocument ownerDocument newParser.

(** ** The cache and the clock of the file system *)

(** The cache holds no snapshot of the file that is later than the
    modification time [t]: the times of a file are observed in
    non-decreasing order. *)
Definition cacheNotNewer (st : Cache.Provider) (uri_ : jsstring) (t : Z)
  : Prop :=
  forall e, Cache.parsedDocuments st !! uri_ = Some e ->
    (Cache.lastModified e <= t)%Z.

(** ** Where a reference comes from *)

(** [pos] was produced by a match [m] of one of the four patterns on the line
    of [pos], a match that starts neither in a comment nor in a string. *)
Definition referenceOrigin (document : TextDocument) (symbolName : jsstring)
    (pos : Position) : Prop :=
  exists line_ pattern m symbolMatch,
    nth_error (JS.split_nl (getText document)) (line pos) = Some line_ /\
    In pattern (References.patterns symbolName) /\
    In m (exec_all pattern line_) /\
    References.isInComment line_ (index m) = false /\
    References.isInString line_ (index m) = false /\
    match_first (References.symbolPattern symbolName) (matched m)
      = Some symbolMatch /\
    character pos = index m + index symbolMatch.

Definition isQuote (c : N) : bool := (c =? dquote)%N || (c =? squote)%N.

(** The line of the specification: a call inside a string literal. *)
Definition stringLineDocument : TextDocument :=
  mkDocument (u "refs.ldl") (u "let s = " ++ quoted "call foo() here").

(** The invariant of the loops of [findReferencesInDocument]. *)
Definition refsOk (document : TextDocument) (symbolName : jsstring)
    (references : list Position) : Prop :=
  List.NoDup references /\
  forall pos, In pos references -> referenceOrigin document symbolName pos.

(** ** Ranking vocabulary *)

(** Frequencies are counts: [updateUsageStats] starts them at one and adds
    one. *)
Definition usageOk (h : gmap jsstring Completion.UsageStats) : Prop :=
  forall k usage, h !! k = Some usage -> (1 <= Completion.frequency usage)%Z.

(** The first four code units of a sort key: the score subtracted from the
    ceiling, padded to four digits. *)
Definition keyPrefix (x : Z) : jsstring := JS.padStart 4 48%N (JS.toString x).

(** The contract of a comparison function, and the order of the host on the
    padded numbers that occur in sort keys. *)
Record comparatorOk (cmp : jsstring -> jsstring -> Z) : Prop := {
  cmp_sign : forall a b, (cmp a b < 0)%Z <-> (0 < cmp b a)%Z;
  cmp_trans : forall a b c, (cmp a b <= 0)%Z -> (cmp b c <= 0)%Z ->
                (cmp a c <= 0)%Z;
  cmp_digits : forall x y s t, (795 <= x)%Z -> (x < y)%Z -> (y <= 1000)%Z ->
                 (cmp (keyPrefix x ++ s) (keyPrefix y ++ t) < 0)%Z
}.

(** Candidates without detail, and a context without function. *)
Definition plainItem (label_ : string) : Completion.CompletionItem :=
  Completion.mkItem (u label_) Completion.Function None None None None false.
Arguments plainItem label_%_string.

Definition noContext : Completion.CompletionContext :=
  Completion.mkContext None None [] [] [].

Definition rankWith (h : gmap jsstring Completion.UsageStats)
    (completions : list Completion.CompletionItem)
  : list Completion.CompletionItem :=
  Completion.applyIntelligentRanking Completion.asciiLowerCase
    Completion.codeUnitCompare (Completion.mkProvider newParser h [])
    (fun _ => 10000000%Z) completions [] noContext.

(** ** Version completion: sample workspace *)

(** A generator that offers nothing, for the contexts that the samples do
    not reach. *)
Definition noCompletions (_ : Completion.Provider) (_ : TextDocument)
    (_ : Position) (_ : jsstring) (_ : Completion.CompletionContext)
  : list Completion.CompletionItem := [].

(** A completion request on a new provider, with the host functions of
    ASCII text and a clock that stands still. *)
Definition completeAt (document : TextDocument) (position_ : Position)
  : list Completion.CompletionItem :=
  fst (Completion.provideCompletionItems Completion.asciiLowerCase
         Completion.codeUnitCompare noCompletions noCompletions noCompletions
         noCompletions noCompletions noCompletions noCompletions
         (Completion.mkProvider newParser ∅ []) (fun _ => 0%Z)
         document position_).

(** A file of the workspace that declares a version of [SQ3R]. *)
Definition libraryDocument : TextDocument :=
  mkDocument (u "library.ldl")
    (u "fn SQ3R(version: " ++ quoted "classic" ++ u ")" ++ [newline]).

(** Another file, in which a call of [SQ3R] is being typed. *)
Definition callerDocument : TextDocument :=
  mkDocument (u "caller.ldl") (u "SQ3R(version: " ++ [dquote]).

(** The two overloads with bodies, and a call typed inside another
    function. *)
Definition bodiesDocument : TextDocument :=
  mkDocument (u "bodies.ldl")
    (u "fn SQ3R(version: " ++ quoted "classic" ++ u ") {" ++ [newline]
     ++ u "}" ++ [newline]
     ++ u "fn SQ3R(version: " ++ quoted "academic" ++ u ") {" ++ [newline]
     ++ u "}" ++ [newline]
     ++ u "fn main() {" ++ [newline]
     ++ u "  SQ3R(version: " ++ [dquote]).

(** The scenario of the specification: the two overloads, then the call. *)
Definition scenarioDocument : TextDocument :=
  mkDocument (u "scenario.ldl")
    (u "fn SQ3R(version: " ++ quoted "classic" ++ u ")" ++ [newline]
     ++ u "fn SQ3R(version: " ++ quoted "academic" ++ u ")" ++ [newline]
     ++ u "SQ3R(version: " ++ [dquote]).

(** ** What an expression matches

    The matcher is a search; [matches r st st'] says what it searches for: a
    way to read [r] from the position [st] of the subject to the position
    [st'].  Repetition is of a character class only, so that the relation is
    defined by recursion on the expression. *)

Inductive star_steps (p : N -> bool) : mstate -> mstate -> Prop :=
| star_done st : star_steps p st st
| star_more st c t st' :
    m_rest st = c :: t -> p c = true ->
    star_steps p (advance st c t) st' -> star_steps p st st'.

Fixpoint matches (r : regex) (st st' : mstate) : Prop :=
  match r with
  | Eps => st' = st
  | Chr p => exists c t, m_rest st = c :: t /\ p c = true /\ st' = advance st c t
  | Lit s => strip_lit s st = Some st'
  | Seq a b => exists st1, matches a st st1 /\ matches b st1 st'
  | Alt a b => matches a st st' \/ matches b st st'
  | Star p => star_steps p st st'
  | Opt a => matches a st st' \/ st' = st
  | Group n a =>
      exists st1, matches a st st1 /\
        st' = MState (m_prev st1) (m_rest st1) (m_pos st1)
                ((n, take (m_pos st1 - m_pos st) (m_rest st)) :: m_caps st1)
  | Bol ml => at_line_start ml st = true /\ st' = st
  | Eol => m_rest st = [] /\ st' = st
  | WordB => at_word_boundary st = true /\ st' = st
  | NotAhead a => (forall st1, ~ matches a st st1) /\ st' = st
  end.

(** The position of the matcher at offset [i] of [text], with the captures
    [caps]. *)
Definition at_ (text : jsstring) (i : nat) (caps : list (nat * jsstring))
  : mstate :=
  MState (prev_at text i) (drop i text) i caps.

(** Every code unit of [text] from offset [i] up to offset [j] is in the
    class [p]. *)
Definition all_in (p : N -> bool) (text : jsstring) (i j : nat) : Prop :=
  forall k, i <= k < j -> exists x, text !! k = Some x /\ p x = true.

(** ** The label index *)

(** The number of times the label [lab] is written above the declaration of
    [s]. *)
Definition labelCount (lab : jsstring) (s : LDLSymbol) : nat :=
  match labels s with
  | Some ls => length (List.filter (fun l => JS.str_eqb l lab) ls)
  | None => 0
  end.

(** The symbols of [l] that carry the label, in the order of [l], each once
    for every time it carries the label. *)
Definition labelled (lab : jsstring) (l : list LDLSymbol) : list LDLSymbol :=
  flat_map (fun s => repeat s (labelCount lab s)) l.

(** The label written on a label line. *)
Definition labelText (l : jsstring) : jsstring :=
  match match_first labelRegex (JS.trim l) with
  | Some labelMatch => or_empty (group 1 (groups labelMatch))
  | None => []
  end.

(** The value of a bucket of a map of arrays, the empty array for a key that
    is absent. *)
Definition bucket {V} (k : jsstring) (m : JSMap (list V)) : list V :=
  match map_get k m with Some b => b | None => [] end.

(** A workspace file with a method of class [T] and a free function of the
    same name, asked for the method of a class [U] that has none. *)
Definition otherOwner : jsstring := u "U".

(** The names of the symbols of [l], each once, in the order in which they
    first occur. *)
Definition namesInOrder (l : list LDLSymbol) : list jsstring :=
  fold_left (fun ks s => Completion.set_add (name s) ks) l [].

(** ** Sample lines for the reference search *)

(** A call, a member access and a mention in a comment. *)
Definition usesDocument : TextDocument :=
  mkDocument (u "uses.ldl")
    (u "foo(1)" ++ [newline] ++ u "x.foo // foo" ++ [newline]).

(** Every entry of the cache refers to a parser of the store. *)
Definition cacheValid (st : Cache.Provider) : Prop :=
  forall uri_ e, Cache.parsedDocuments st !! uri_ = Some e ->
    Cache.parser e < length (Cache.heap st).

(** The file of [ownerDocument] after an edit. *)
Definition editedDocument : TextDocument :=
  mkDocument (u "owner.ldl") (u "fn bar()" ++ [newline]).

(** ** The call in which a version is typed *)

(** The text that follows the name of such a call, up to the cursor: white
    space, an opening parenthesis, arguments without a closing parenthesis,
    the keyword, a colon, at most one quote and a text without quotes. *)
Definition versionTailShape (rest : jsstring) : Prop :=
  exists sp args sp2 sp3 oq tail,
    rest = sp ++ u "(" ++ args ++ u "version" ++ sp2 ++ u ":" ++ sp3 ++ oq
           ++ tail /\
    forallb JS.is_space sp = true /\
    forallb (JS.none_of (u ")")) args = true /\
    forallb JS.is_space sp2 = true /\ forallb JS.is_space sp3 = true /\
    (oq = [] \/ exists q, isQuote q = true /\ oq = [q]) /\
    forallb (fun c => negb (isQuote c)) tail = true.

(** At offset [i] of [text] stands the word [name], followed by such a
    text. *)
Definition versionCallAt (text : jsstring) (i : nat) (name_ : jsstring)
  : Prop :=
  name_ <> [] /\ forallb JS.is_word name_ = true /\
  exists rest, drop i text = name_ ++ rest /\ versionTailShape rest.

(** A call of [SQ3R] typed as an argument of a call of [outer], in a file
    that declares a version of each. *)
Definition nestedDocument : TextDocument :=
  mkDocument (u "nested.ldl")
    (u "fn SQ3R(version: " ++ quoted "classic" ++ u ")" ++ [newline]
     ++ u "fn outer(version: " ++ quoted "zeta" ++ u ")" ++ [newline]
     ++ u "outer(SQ3R(version: " ++ [dquote]).

(** A call with a version after an argument that is itself a call. *)
Definition afterCallText : jsstring :=
  u "foo(bar(1), version: " ++ [dquote].

(** ** Sessions of the completion provider *)


(** The completion provider after its constructor. *)
Definition newCompletionProvider : Completion.Provider :=
  Completion.mkProvider newParser ∅ [].

Section Session.
Variable toLowerCase : jsstring -> jsstring.
Variable localeCompare : jsstring -> jsstring -> Z.
Variables provideLabelCompletions provideFunctionCompletions
  provideKeywordCompletions provideTypeCompletions
  provideParameterCompletions provideVariableCompletions
  provideIntelligentSuggestions
  : Completion.Provider -> TextDocument -> Position -> jsstring ->
    Completion.CompletionContext -> list Completion.CompletionItem.



End Session.




(** ** A string literal that ends in an escaped backslash *)

(** The body of class [A] has two fields: the literal of [s] holds the
    letter [a] and an escaped backslash, the literal of [t] a closing
    brace. *)
Definition escapedBackslashText : jsstring :=
  u "class A { s = " ++ [dquote] ++ u "a" ++ [backslash; backslash; dquote]
  ++ u " t = " ++ quoted "}" ++ u " }".

(** The same fields on lines of their own, above a method. *)
Definition escapedBackslashDocument : TextDocument :=
  mkDocument (u "escaped.ldl")
    (u "class A {" ++ [newline]
     ++ u "  s = " ++ [dquote] ++ u "a" ++ [backslash; backslash; dquote]
     ++ [newline]
     ++ u "  t = " ++ quoted "}" ++ [newline]
     ++ u "  fn m()" ++ [newline]
     ++ u "}" ++ [newline]).

(** * Properties *)

(** ** The matcher *)

Lemma group_app n x y :
  group n (x ++ y) =
  match group n x with Some s => Some s | None => group n y end.
Proof.
  induction x as [|[i s] x IH]; [reflexivity|].
  simpl. destruct (Nat.eqb i n); auto.
Qed.

Lemma step_ok_same r st : min_len r = 0 -> (forall n, sets_group n r = false) ->
  step_ok r st st.
Proof.
  intros H Hs. split; [lia|lia|].
  exists []. split; [reflexivity|]. split; [intros; constructor|].
  intros n Hn. rewrite Hs in Hn. discriminate.
Qed.

Lemma strip_lit_ok s : forall st st',
  strip_lit s st = Some st' ->
  m_pos st' = m_pos st + length s /\
  m_pos st' + length (m_rest st') = m_pos st + length (m_rest st) /\
  m_caps st' = m_caps st.
Proof.
  induction s as [|c s IH]; intros st st' H.
  - injection H as <-. simpl. repeat split; lia.
  - simpl in H. destruct (m_rest st) as [|d t] eqn:E; [discriminate|].
    destruct (c =? d)%N; [|discriminate].
    apply IH in H as (H1 & H2 & H3). simpl in *.
    repeat split; [lia|lia|exact H3].
Qed.

Lemma star_loop_ok p k : forall rest prev pos caps res,
  star_loop p k prev rest pos caps = Some res ->
  exists st', k st' = Some res /\ pos <= m_pos st' /\
    m_pos st' + length (m_rest st') = pos + length rest /\
    m_caps st' = caps.
Proof.
  induction rest as [|c t IH]; intros prev pos caps res H.
  - simpl in H. eexists; split; [exact H|]. simpl. auto.
  - simpl in H.
    destruct (p c).
    + destruct (star_loop p k (Some c) t (S pos) caps) eqn:E.
      * injection H as ->. apply IH in E as (st' & Hk & Hp & Hl & Hc).
        exists st'. simpl. repeat split; auto; lia.
      * eexists; split; [exact H|]. simpl. auto.
    + eexists; split; [exact H|]. simpl. auto.
Qed.

Lemma rmatch_sound r : forall st k res,
  rmatch r st k = Some res ->
  exists st', k st' = Some res /\ step_ok r st st'.
Proof.
  induction r as [ | p | s | a IHa b IHb | a IHa b IHb | p | a IHa | n a IHa
                   | ml | | | a IHa ]; intros st k res H; cbn [rmatch] in H.
  - exists st. split; [exact H|]. apply step_ok_same; auto.
  - destruct (m_rest st) as [|c t] eqn:E; [discriminate|].
    destruct (p c); [|discriminate].
    eexists; split; [exact H|].
    split; simpl; [lia|rewrite E; simpl; lia|].
    exists []. split; [reflexivity|]. split; [intros; constructor|discriminate].
  - destruct (strip_lit s st) as [st'|] eqn:E; [|discriminate].
    apply strip_lit_ok in E as (Hp & Hl & Hc).
    exists st'. split; [exact H|].
    split; simpl; [lia|lia|].
    exists []. split; [exact Hc|]. split; [intros; constructor|discriminate].
  - apply IHa in H as (st1 & H1 & [Hp1 Hl1 (x1 & Hc1 & Hg1 & Hs1)]).
    apply IHb in H1 as (st2 & H2 & [Hp2 Hl2 (x2 & Hc2 & Hg2 & Hs2)]).
    exists st2. split; [exact H2|].
    split; simpl; [lia|lia|].
    exists (x2 ++ x1). split; [rewrite Hc2, Hc1, app_assoc; reflexivity|].
    split.
    + intros Hg. apply andb_true_iff in Hg as [Ha Hb].
      unfold caps_ok in *. apply Forall_app. split; auto.
    + intros n Hn. rewrite group_app.
      apply orb_true_iff in Hn as [Hn|Hn].
      * destruct (group n x2); [discriminate|]. auto.
      * specialize (Hs2 n Hn).
        destruct (group n x2); [discriminate|]. contradiction.
  - destruct (rmatch a st k) eqn:E.
    + injection H as ->.
      apply IHa in E as (st1 & H1 & [Hp1 Hl1 (x1 & Hc1 & Hg1 & Hs1)]).
      exists st1. split; [exact H1|]. split; simpl; [lia|lia|].
      exists x1. split; [exact Hc1|]. split.
      * intros Hg. apply andb_true_iff in Hg as [Ha Hb]. auto.
      * intros n Hn. apply andb_true_iff in Hn as [Hn _]. auto.
    + apply IHb in H as (st1 & H1 & [Hp1 Hl1 (x1 & Hc1 & Hg1 & Hs1)]).
      exists st1. split; [exact H1|]. split; simpl; [lia|lia|].
      exists x1. split; [exact Hc1|]. split.
      * intros Hg. apply andb_true_iff in Hg as [Ha Hb]. auto.
      * intros n Hn. apply andb_true_iff in Hn as [_ Hn]. auto.
  - apply star_loop_ok in H as (st' & Hk & Hp & Hl & Hc).
    exists st'. split; [exact Hk|]. split; simpl; [lia|lia|].
    exists []. split; [exact Hc|]. split; [intros; constructor|discriminate].
  - destruct (rmatch a st k) eqn:E.
    + injection H as ->.
      apply IHa in E as (st1 & H1 & [Hp1 Hl1 (x1 & Hc1 & Hg1 & Hs1)]).
      exists st1. split; [exact H1|]. split; simpl; [lia|lia|].
      exists x1. split; [exact Hc1|]. split; [auto|discriminate].
    + exists st. split; [exact H|]. apply step_ok_same; auto.
  - apply IHa in H as (st1 & H1 & [Hp1 Hl1 (x1 & Hc1 & Hg1 & Hs1)]).
    eexists. split; [exact H1|]. split; simpl; [lia|lia|].
    exists ((n, take (m_pos st1 - m_pos st) (m_rest st)) :: x1).
    split; [rewrite Hc1; reflexivity|]. split.
    + intros Hg. apply andb_true_iff in Hg as [Hm Hg].
      apply Nat.ltb_lt in Hm.
      constructor; [|apply Hg1; exact Hg]. simpl.
      destruct (m_rest st) as [|c t] eqn:E; [simpl in Hl1; lia|].
      destruct (m_pos st1 - m_pos st) eqn:E2; [lia|]. discriminate.
    + intros i Hi. simpl. destruct (Nat.eqb n i) eqn:E; [discriminate|].
      simpl in Hi. auto.
  - destruct (at_line_start ml st); [|discriminate].
    exists st. split; [exact H|]. apply step_ok_same; auto.
  - destruct (m_rest st); [|discriminate].
    exists st. split; [exact H|]. apply step_ok_same; auto.
  - destruct (at_word_boundary st); [|discriminate].
    exists st. split; [exact H|]. apply step_ok_same; auto.
  - destruct (rmatch a st Some); [discriminate|].
    exists st. split; [exact H|]. apply step_ok_same; auto.
Qed.

Lemma exec_from_ok r : forall rest prev pos m,
  exec_from r prev rest pos = Some m -> match_ok r pos (pos + length rest) m.
Proof.
  induction rest as [|c t IH]; intros prev pos m H; cbn [exec_from] in H.
  - destruct (rmatch r _ Some) as [st'|] eqn:E; [|discriminate].
    injection H as <-.
    apply rmatch_sound in E as (st1 & H1 & [Hp Hl (x & Hc & Hg & Hs)]).
    injection H1 as ->. simpl in *.
    rewrite app_nil_r in Hc. subst x.
    split; simpl; auto; lia.
  - destruct (rmatch r _ Some) as [st'|] eqn:E.
    + injection H as <-.
      apply rmatch_sound in E as (st1 & H1 & [Hp Hl (x & Hc & Hg & Hs)]).
      injection H1 as ->. simpl in *.
      rewrite app_nil_r in Hc. subst x.
      split; simpl; auto; lia.
    + apply IH in H as [H1 H2 H3 H4 H5].
      split; simpl; auto; lia.
Qed.

Lemma exec_ok r text i m :
  exec r text i = Some m -> match_ok r i (length text) m.
Proof.
  unfold exec. destruct (length text <? i) eqn:E; [discriminate|].
  apply Nat.ltb_ge in E. intros H. apply exec_from_ok in H.
  rewrite length_drop in H.
  replace (i + (length text - i)) with (length text) in H by lia. exact H.
Qed.

Lemma exec_loop_ok r text : forall fuel i m,
  In m (exec_loop fuel r text i) -> match_ok r i (length text) m.
Proof.
  induction fuel as [|fuel IH]; intros i m H; [destruct H|].
  cbn [exec_loop] in H.
  destruct (exec r text i) as [m0|] eqn:E; [|destruct H].
  pose proof (exec_ok _ _ _ _ E) as [H1 H2 H3 H4 H5].
  destruct H as [<-|H]; [split; auto|].
  apply IH in H as [G1 G2 G3 G4 G5]. split; auto; lia.
Qed.

(** Enough rounds: once the fuel exceeds what is left of the text, more fuel
    does not change the matches found. *)
Lemma exec_loop_fuel r text : 0 < min_len r ->
  forall fuel i, length text < fuel + i ->
    exec_loop (S fuel) r text i = exec_loop fuel r text i.
Proof.
  intros Hr. induction fuel as [|fuel IH]; intros i Hi.
  - cbn [exec_loop]. unfold exec.
    destruct (length text <? i) eqn:E; [reflexivity|].
    apply Nat.ltb_ge in E. lia.
  - change (exec_loop (S (S fuel)) r text i) with
      (match exec r text i with
       | None => []
       | Some m => m :: exec_loop (S fuel) r text (end_index m)
       end).
    cbn [exec_loop].
    destruct (exec r text i) as [m|] eqn:E; [|reflexivity].
    apply exec_ok in E as [H1 H2 H3 _ _].
    f_equal. apply IH. lia.
Qed.

(** With that much fuel the loop stops because [exec] finds no further
    match, as the loop of the source does. *)
Lemma exec_loop_ends r text : 0 < min_len r ->
  forall fuel i, length text < fuel + i ->
    exec r text (lastIndexAfter (exec_loop fuel r text i) i) = None.
Proof.
  intros Hr. induction fuel as [|fuel IH]; intros i Hi.
  - cbn. unfold exec.
    destruct (length text <? i) eqn:E; [reflexivity|].
    apply Nat.ltb_ge in E. lia.
  - cbn [exec_loop]. destruct (exec r text i) as [m|] eqn:E.
    + cbn [lastIndexAfter]. apply IH.
      apply exec_ok in E as [H1 H2 _ _ _]. lia.
    + exact E.
Qed.

Lemma exec_all_ends r text : 0 < min_len r ->
  exec r text (lastIndexAfter (exec_all r text) 0) = None.
Proof. intros Hr. apply exec_loop_ends; [exact Hr|lia]. Qed.

Lemma exec_all_unfold r text : 0 < min_len r ->
  forall fuel, length text < fuel ->
    exec_loop fuel r text 0 = exec_all r text.
Proof.
  intros Hr fuel Hf. unfold exec_all.
  induction fuel as [|fuel IH]; [lia|].
  destruct (decide (fuel = length text)) as [->|Hne]; [reflexivity|].
  rewrite exec_loop_fuel by (auto; lia). apply IH. lia.
Qed.

Lemma caps_ok_group caps n s :
  caps_ok caps -> group n caps = Some s -> s <> [].
Proof.
  unfold caps_ok. induction caps as [|[i t] caps IH]; intros Hok H;
    [discriminate|].
  inversion Hok as [|? ? Hhd Htl]; subst. simpl in H.
  destruct (Nat.eqb i n); [injection H as <-; exact Hhd|auto].
Qed.

(** Every expression of the parser consumes at least one code unit per
    match, and so do the reference patterns of a name that is not empty:
    the loops over their matches end by themselves. *)
Lemma parser_expressions_progress :
  Forall (fun r => 0 < min_len r)
    [classRegex; methodRegex; fnRegex; pipelineRegex; aliasRegex; macroRegex;
     constRegex].
Proof. repeat (constructor; [vm_compute; lia|]). constructor. Qed.

Lemma reference_patterns_progress symbolName :
  symbolName <> [] ->
  Forall (fun r => 0 < min_len r) (References.patterns symbolName).
Proof.
  intros H. destruct symbolName as [|c s]; [contradiction|].
  repeat (constructor; [cbn; lia|]). constructor.
Qed.


(** ** The brace scanner *)

Lemma braceStep_in_string before char st :
  Parser.inString st = true ->
  braceCount (fst (braceStep before char st)) = braceCount st /\
  snd (braceStep before char st) = false.
Proof.
  intros H. unfold braceStep. rewrite H. simpl.
  destruct (_ && _); auto.
Qed.

Lemma last_default_irrel (l : jsstring) (c d d' : N) :
  List.last (c :: l) d = List.last (c :: l) d'.
Proof.
  revert c. induction l as [|x l IH]; intros c; [reflexivity|].
  change (List.last (x :: l) d = List.last (x :: l) d'). apply IH.
Qed.

Lemma last_cons_default (c : N) (l : jsstring) (b : N) :
  List.last (c :: l) b = List.last l c.
Proof.
  destruct l as [|x l]; [reflexivity|].
  change (List.last (x :: l) b = List.last (x :: l) c).
  apply last_default_irrel.
Qed.

Lemma braceLoop_string_body q body : forall b rest i d,
  staysOpen q b body = true ->
  braceLoop (Some b) (body ++ rest) i (mkBraceState d true (Some q)) =
  braceLoop (Some (List.last body b)) rest (i + length body)
    (mkBraceState d true (Some q)).
Proof.
  induction body as [|c body IH]; intros b rest i d H.
  - simpl. f_equal. lia.
  - simpl in H. apply andb_true_iff in H as [Hc Hs].
    cbn [app braceLoop].
    assert (Hstep : braceStep (Some b) c (mkBraceState d true (Some q))
                    = (mkBraceState d true (Some q), false)).
    { unfold braceStep. cbn [Parser.inString negb stringChar].
      destruct (bool_decide (Some c = Some q)) eqn:E; cbn [andb]; auto.
      apply bool_decide_eq_true in E. injection E as ->.
      rewrite N.eqb_refl in Hc. cbn in Hc.
      apply N.eqb_eq in Hc. subst b.
      rewrite bool_decide_eq_true_2 by reflexivity. reflexivity. }
    rewrite Hstep. cbn iota.
    rewrite IH by assumption.
    replace (S i + length body) with (i + length (c :: body)) by (simpl; lia).
    rewrite last_cons_default. reflexivity.
Qed.

Lemma braceLoop_string_literal q body before rest i d sc :
  q = dquote \/ q = squote ->
  staysOpen q q body = true ->
  List.last body q <> backslash ->
  braceLoop before (q :: body ++ q :: rest) i (mkBraceState d false sc) =
  braceLoop (Some q) rest (i + length body + 2) (mkBraceState d false (Some q)).
Proof.
  intros Hq Hopen Hlast.
  cbn [braceLoop].
  assert (Hstep : braceStep before q (mkBraceState d false sc)
                  = (mkBraceState d true (Some q), false)).
  { unfold braceStep. cbn [Parser.inString negb braceCount].
    destruct Hq as [-> | ->]; reflexivity. }
  rewrite Hstep. cbn iota.
  rewrite braceLoop_string_body by assumption.
  cbn [braceLoop].
  assert (Hclose : braceStep (Some (List.last body q)) q
                     (mkBraceState d true (Some q))
                   = (mkBraceState d false (Some q), false)).
  { unfold braceStep. cbn [Parser.inString negb stringChar braceCount].
    rewrite bool_decide_eq_true_2 by reflexivity.
    rewrite bool_decide_eq_false_2 by congruence. reflexivity. }
  rewrite Hclose. cbn iota. f_equal. lia.
Qed.

Lemma braceLoop_run before rest : forall i st,
  braceLoop before rest i st = None ->
  forall n, n < length rest ->
    match rest !! n with
    | Some char =>
        snd (braceStep (match n with O => before | S m => rest !! m end) char
               (braceRun before rest n st)) = false
    | None => True
    end.
Proof.
  revert before. induction rest as [|c rest IH]; intros before i st H n Hn.
  - simpl in Hn. lia.
  - cbn [braceLoop] in H.
    destruct (braceStep before c st) as [st' ret] eqn:E.
    destruct ret; [discriminate|].
    destruct n as [|n].
    + simpl. rewrite E. reflexivity.
    + simpl in Hn. specialize (IH _ _ _ H n ltac:(lia)).
      cbn [lookup list_lookup braceRun]. rewrite E. cbn [fst].
      destruct (rest !! n) eqn:En; [|exact I].
      destruct n; exact IH.
Qed.


Lemma braceLoop_none before rest : forall i st,
  (forall n, n < length rest -> roundReturns before rest st n = false) ->
  braceLoop before rest i st = None.
Proof.
  revert before. induction rest as [|c rest IH]; intros before i st H.
  - reflexivity.
  - cbn [braceLoop].
    destruct (braceStep before c st) as [st' ret] eqn:E.
    pose proof (H 0 ltac:(simpl; lia)) as H0.
    unfold roundReturns in H0. simpl in H0. rewrite E in H0. simpl in H0.
    subst ret. apply IH. intros n Hn.
    specialize (H (S n) ltac:(simpl; lia)).
    unfold roundReturns in *. cbn [lookup list_lookup braceRun] in H.
    rewrite E in H. cbn [fst] in H.
    destruct (rest !! n) eqn:En; [|reflexivity].
    destruct n; exact H.
Qed.

Lemma braceLoop_bound before rest : forall i st r,
  braceLoop before rest i st = Some r -> i < r <= i + length rest.
Proof.
  revert before. induction rest as [|c rest IH]; intros before i st r H.
  - discriminate.
  - cbn [braceLoop] in H.
    destruct (braceStep before c st) as [st' ret].
    destruct ret.
    + injection H as <-. simpl. lia.
    + apply IH in H. simpl. lia.
Qed.

Lemma prev_at_drop (text : jsstring) start n :
  prev_at text (start + S n) = drop start text !! n.
Proof.
  unfold prev_at. replace (start + S n) with (S (start + n)) by lia.
  rewrite lookup_drop. reflexivity.
Qed.

Lemma closesAt_roundReturns text start n :
  closesAt text start (start + n) =
  roundReturns (prev_at text start) (drop start text) braceInit n.
Proof.
  unfold closesAt, roundReturns, braceStateAt.
  rewrite lookup_drop.
  replace (start + n - start) with n by lia.
  destruct (text !! (start + n)); [|reflexivity].
  destruct n as [|n].
  - rewrite Nat.add_0_r. reflexivity.
  - rewrite prev_at_drop. reflexivity.
Qed.

Lemma findClassEndIndex_unbalanced text start :
  (forall i, start <= i < length text -> closesAt text start i = false) ->
  findClassEndIndex text start = length text.
Proof.
  intros H. unfold findClassEndIndex.
  rewrite braceLoop_none; [reflexivity|].
  intros n Hn. rewrite length_drop in Hn.
  rewrite <- closesAt_roundReturns. apply H. lia.
Qed.

Lemma findClassEndIndex_le text start :
  findClassEndIndex text start <= length text.
Proof.
  unfold findClassEndIndex.
  destruct (braceLoop _ _ _ _) eqn:E; [|lia].
  apply braceLoop_bound in E. rewrite length_drop in E.
  lia.
Qed.

(** ** A parse as a sequence of insertions *)

Lemma insertAll_app l1 l2 p :
  insertAll (l1 ++ l2) p = insertAll l2 (insertAll l1 p).
Proof. apply fold_left_app. Qed.

Lemma fold_insert_map {A} (f : A -> LDLSymbol) (l : list A) : forall p,
  fold_left (fun p m => insertSymbol (f m) p) l p = insertAll (map f l) p.
Proof. induction l as [|x l IH]; intros p; [reflexivity|]. simpl. apply IH. Qed.

Lemma fold_add_map {A} (f : A -> LDLSymbol) (l : list A) :
  (forall x, labels (f x) = None) ->
  forall p,
    fold_left (fun p m => addSymbol (f m) p) l p = insertAll (map f l) p.
Proof.
  intros Hf. induction l as [|x l IH]; intros p; [reflexivity|].
  simpl. rewrite IH. f_equal. unfold insertSymbol, addToLabelIndex.
  unfold addSymbol at 2. cbn [labels]. 
  replace (labels (f x)) with (@None (list jsstring)) by (symmetry; apply Hf).
  reflexivity.
Qed.

Lemma parseClassMethods_trace text document cn ci p :
  parseClassMethods text document cn ci p =
  insertAll (methodTrace text document cn ci) p.
Proof. unfold parseClassMethods, methodTrace. apply fold_insert_map. Qed.

Lemma parseClasses_trace text document p :
  parseClasses text document p = insertAll (classTrace text document) p.
Proof.
  unfold parseClasses, classTrace.
  generalize (exec_all classRegex text) as ms. intros ms. revert p.
  induction ms as [|m ms IH]; intros p; [reflexivity|].
  cbn [fold_left flat_map]. rewrite IH.
  rewrite parseClassMethods_trace.
  change (?x :: ?l ++ ?r) with ((x :: l) ++ r).
  rewrite insertAll_app. reflexivity.
Qed.

Lemma parseFunctions_trace text document p :
  parseFunctions text document p = insertAll (functionTrace text document) p.
Proof.
  unfold parseFunctions, functionTrace.
  generalize (exec_all fnRegex text) as ms. intros ms. revert p.
  induction ms as [|m ms IH]; intros p; [reflexivity|].
  cbn [fold_left List.filter]. rewrite IH.
  destruct (isInsideClass text (index m)); reflexivity.
Qed.

Lemma parseDocument_trace document p :
  parseDocument document p = insertAll (parseTrace document) newParser.
Proof.
  unfold parseDocument, parseTrace, clear.
  rewrite !insertAll_app.
  rewrite <- parseClasses_trace, <- parseFunctions_trace.
  unfold parsePipelines, parseTypeAliases, parseMacros, parseConstants.
  rewrite fold_insert_map.
  rewrite !fold_add_map; reflexivity.
Qed.

Lemma str_eqb_true a b : JS.str_eqb a b = true <-> a = b.
Proof. unfold JS.str_eqb. apply bool_decide_eq_true. Qed.

Lemma str_eqb_false a b : JS.str_eqb a b = false <-> a <> b.
Proof. unfold JS.str_eqb. apply bool_decide_eq_false. Qed.

Lemma str_eqb_refl a : JS.str_eqb a a = true.
Proof. apply str_eqb_true. reflexivity. Qed.

Section JSMapFacts.
Context {V : Type}.
Implicit Types (m : JSMap V) (k n : jsstring).

Lemma map_get_set_eq k (v : V) m : map_get k (map_set k v m) = Some v.
Proof.
  induction m as [|[k' v'] m IH]; simpl.
  - rewrite str_eqb_refl. reflexivity.
  - destruct (JS.str_eqb k' k) eqn:E; simpl; rewrite E; auto.
Qed.

Lemma map_get_set_ne k n (v : V) m :
  k <> n -> map_get n (map_set k v m) = map_get n m.
Proof.
  intros Hne. induction m as [|[k' v'] m IH]; simpl.
  - apply str_eqb_false in Hne. rewrite Hne. reflexivity.
  - destruct (JS.str_eqb k' k) eqn:E; simpl.
    + apply str_eqb_true in E. subst k'.
      apply str_eqb_false in Hne. rewrite Hne. reflexivity.
    + rewrite IH. reflexivity.
Qed.

Lemma map_get_in_keys k m : In k (map_keys m) <-> map_get k m <> None.
Proof.
  induction m as [|[k' v'] m IH]; simpl.
  - split; [intros []|congruence].
  - destruct (JS.str_eqb k' k) eqn:E.
    + apply str_eqb_true in E. split; [discriminate|auto].
    + apply str_eqb_false in E. rewrite <- IH.
      split; [intros [?|?]; [contradiction|auto]|auto].
Qed.

Lemma map_keys_set k (v : V) m :
  map_keys (map_set k v m) =
  if map_has k m then map_keys m else map_keys m ++ [k].
Proof.
  unfold map_has. induction m as [|[k' v'] m IH]; simpl; [reflexivity|].
  destruct (JS.str_eqb k' k) eqn:E; simpl; [reflexivity|].
  rewrite IH. destruct (map_get k m); reflexivity.
Qed.

End JSMapFacts.

Lemma map_push_nil {V} k (x : V) : map_push k x [] = [(k, [x])].
Proof.
  unfold map_push, map_has. simpl. rewrite str_eqb_refl. reflexivity.
Qed.

Lemma map_push_cons {V} k (x : V) k' b (m : JSMap (list V)) :
  map_push k x ((k', b) :: m) =
  if JS.str_eqb k' k then (k', b ++ [x]) :: m
  else (k', b) :: map_push k x m.
Proof.
  unfold map_push, map_has. simpl.
  destruct (JS.str_eqb k' k) eqn:E; simpl.
  - rewrite E. reflexivity.
  - destruct (map_get k m) eqn:G; simpl; rewrite ?E; simpl.
    + rewrite ?G. simpl. rewrite ?E. reflexivity.
    + rewrite ?E. rewrite map_get_set_eq. simpl. rewrite ?E. reflexivity.
Qed.

Lemma map_get_push {V} k n (x : V) (m : JSMap (list V)) :
  map_get n (map_push k x m) =
  if JS.str_eqb k n
  then Some (match map_get n m with Some b => b | None => [] end ++ [x])
  else map_get n m.
Proof.
  induction m as [|[k' b] m IH].
  - rewrite map_push_nil. simpl. destruct (JS.str_eqb k n); reflexivity.
  - rewrite map_push_cons. destruct (JS.str_eqb k' k) eqn:E; simpl.
    + apply str_eqb_true in E. subst k'.
      destruct (JS.str_eqb k n); reflexivity.
    + rewrite IH. destruct (JS.str_eqb k n) eqn:E2; [|reflexivity].
      apply str_eqb_true in E2. subst n. rewrite E. reflexivity.
Qed.

Lemma map_keys_push {V} k (x : V) (m : JSMap (list V)) :
  map_keys (map_push k x m) =
  if map_has k m then map_keys m else map_keys m ++ [k].
Proof.
  unfold map_has. induction m as [|[k' b] m IH].
  - rewrite map_push_nil. reflexivity.
  - rewrite map_push_cons. simpl. destruct (JS.str_eqb k' k) eqn:E; simpl.
    + reflexivity.
    + unfold map_keys in *. rewrite IH.
      destruct (map_get k m); reflexivity.
Qed.

Lemma map_has_in_keys {V} k (m : JSMap V) :
  map_has k m = true <-> In k (map_keys m).
Proof.
  rewrite map_get_in_keys. unfold map_has.
  destruct (map_get k m); split; congruence.
Qed.

Lemma in_values_push {V} k (x s : V) (m : JSMap (list V)) :
  In s (concat (map_values (map_push k x m))) <->
  s = x \/ In s (concat (map_values m)).
Proof.
  induction m as [|[k' b] m IH].
  - rewrite map_push_nil. simpl. intuition.
  - rewrite map_push_cons. destruct (JS.str_eqb k' k); simpl.
    + rewrite !in_app_iff. simpl. intuition.
    + unfold map_values in IH. rewrite !in_app_iff, IH. intuition.
Qed.

Lemma symbols_insertSymbol s p :
  symbols (insertSymbol s p) = map_push (name s) s (symbols p).
Proof.
  unfold insertSymbol, addToLabelIndex, addSymbol.
  destruct (labels s); reflexivity.
Qed.

Lemma labelIndex_insertSymbol s p :
  labelIndex (insertSymbol s p) =
  fold_left (fun idx label => map_push label s idx)
    (match labels s with Some ls => ls | None => [] end) (labelIndex p).
Proof.
  unfold insertSymbol, addToLabelIndex, addSymbol.
  destruct (labels s); reflexivity.
Qed.

Lemma insertAll_snoc l s p :
  insertAll (l ++ [s]) p = insertSymbol s (insertAll l p).
Proof. rewrite insertAll_app. reflexivity. Qed.

Lemma bucket_insertAll n l :
  map_get n (symbols (insertAll l newParser)) =
  match List.filter (named n) l with
  | [] => None
  | b => Some b
  end.
Proof.
  induction l as [|s l IH] using rev_ind; [reflexivity|].
  rewrite insertAll_snoc, symbols_insertSymbol, map_get_push, IH.
  rewrite List.filter_app. simpl.
  change (JS.str_eqb (name s) n) with (named n s).
  destruct (named n s).
  - destruct (List.filter (named n) l); reflexivity.
  - rewrite app_nil_r. reflexivity.
Qed.

Lemma in_getAllSymbols_insertAll s l :
  In s (getAllSymbols (insertAll l newParser)) <-> In s l.
Proof.
  unfold getAllSymbols.
  induction l as [|x l IH] using rev_ind; [simpl; tauto|].
  rewrite insertAll_snoc, symbols_insertSymbol, in_values_push, IH.
  rewrite in_app_iff. simpl. intuition.
Qed.

Lemma keys_fold_push (s : LDLSymbol) ls : forall idx l,
  In l (map_keys (fold_left (fun idx label => map_push label s idx) ls idx))
  <-> In l ls \/ In l (map_keys idx).
Proof.
  induction ls as [|x ls IH]; intros idx l; simpl; [tauto|].
  rewrite IH, map_keys_push.
  destruct (map_has x idx) eqn:E.
  - apply map_has_in_keys in E. intuition (subst; auto).
  - rewrite in_app_iff. simpl. intuition.
Qed.

Lemma keys_fold_push_NoDup (s : LDLSymbol) ls : forall idx,
  List.NoDup (map_keys idx) ->
  List.NoDup
    (map_keys (fold_left (fun idx label => map_push label s idx) ls idx)).
Proof.
  induction ls as [|x ls IH]; intros idx H; simpl; [exact H|].
  apply IH. rewrite map_keys_push.
  destruct (map_has x idx) eqn:E; [exact H|].
  assert (~ In x (map_keys idx)).
  { rewrite <- map_has_in_keys. congruence. }
  apply List.NoDup_app; auto.
  - constructor; [intros []|constructor].
  - intros y Hy [<-|[]]. contradiction.
Qed.

Lemma in_labelKeys_insertAll l lst :
  In l (map_keys (labelIndex (insertAll lst newParser))) <->
  exists s ls, In s lst /\ labels s = Some ls /\ In l ls.
Proof.
  induction lst as [|x lst IH] using rev_ind.
  - simpl. split; [intros []|intros (s & ls & [] & _)].
  - rewrite insertAll_snoc, labelIndex_insertSymbol, keys_fold_push, IH.
    split.
    + intros [H|(s & ls & H1 & H2 & H3)].
      * destruct (labels x) as [ls|] eqn:E; [|destruct H].
        exists x, ls. rewrite in_app_iff. simpl. auto.
      * exists s, ls. rewrite in_app_iff. auto.
    + intros (s & ls & H1 & H2 & H3).
      apply in_app_iff in H1 as [H1|[<-|[]]].
      * right. eauto.
      * left. rewrite H2. exact H3.
Qed.

Lemma labelKeys_insertAll_NoDup lst :
  List.NoDup (map_keys (labelIndex (insertAll lst newParser))).
Proof.
  induction lst as [|x lst IH] using rev_ind; [constructor|].
  rewrite insertAll_snoc, labelIndex_insertSymbol.
  apply keys_fold_push_NoDup. exact IH.
Qed.


Lemma cap_set_nonempty r text m n :
  In m (exec_all r text) -> groups_nonempty r = true ->
  sets_group n r = true -> or_empty (cap n m) <> [].
Proof.
  intros Hm Hg Hs. apply exec_loop_ok in Hm as [_ _ _ Hc Hn].
  specialize (Hn n Hs). unfold cap.
  destruct (group n (groups m)) as [s|] eqn:E; [|contradiction].
  simpl. eapply caps_ok_group; eauto.
Qed.

Lemma cap_opt_nonempty r text m n :
  In m (exec_all r text) -> groups_nonempty r = true -> cap n m <> Some [].
Proof.
  intros Hm Hg. apply exec_loop_ok in Hm as [_ _ _ Hc _].
  unfold cap. intros E. eapply caps_ok_group in E; eauto.
Qed.

Ltac symbol_fields :=
  match goal with
  | |- context [parseLabelsAndDocumentation ?t ?i] =>
      destruct (parseLabelsAndDocumentation t i)
  end; cbn.

Lemma classSymbol_wf text document m :
  In m (exec_all classRegex text) ->
  wellFormed (classSymbol text document m) /\
  type (classSymbol text document m) = class.
Proof.
  intros Hm.
  pose proof (cap_set_nonempty _ _ _ 1 Hm eq_refl eq_refl) as Hn.
  unfold wellFormed, classSymbol. symbol_fields.
  repeat split; try congruence; try discriminate.
Qed.

Lemma methodSymbol_wf text document cn ci body m :
  In m (exec_all methodRegex body) -> cn <> [] ->
  wellFormed (methodSymbol text document cn ci m) /\
  type (methodSymbol text document cn ci m) = method.
Proof.
  intros Hm Hcn.
  pose proof (cap_set_nonempty _ _ _ 2 Hm eq_refl eq_refl) as Hn.
  pose proof (cap_opt_nonempty _ _ _ 3 Hm eq_refl) as Hv.
  unfold wellFormed, methodSymbol. symbol_fields.
  repeat split; try congruence; try discriminate.
Qed.

Lemma functionSymbol_wf text document m :
  In m (exec_all fnRegex text) ->
  wellFormed (functionSymbol text document m) /\
  type (functionSymbol text document m) = function.
Proof.
  intros Hm.
  pose proof (cap_set_nonempty _ _ _ 2 Hm eq_refl eq_refl) as Hn.
  pose proof (cap_opt_nonempty _ _ _ 3 Hm eq_refl) as Hv.
  unfold wellFormed, functionSymbol. symbol_fields.
  repeat split; try congruence; try discriminate.
Qed.

Lemma pipelineSymbol_wf text document m :
  In m (exec_all pipelineRegex text) ->
  wellFormed (pipelineSymbol text document m) /\
  type (pipelineSymbol text document m) = pipeline.
Proof.
  intros Hm.
  pose proof (cap_set_nonempty _ _ _ 1 Hm eq_refl eq_refl) as Hn.
  unfold wellFormed, pipelineSymbol. symbol_fields.
  repeat split; try congruence; try discriminate.
Qed.

Lemma aliasSymbol_wf text document m :
  In m (exec_all aliasRegex text) ->
  wellFormed (aliasSymbol document m) /\
  type (aliasSymbol document m) = type_alias.
Proof.
  intros Hm.
  pose proof (cap_set_nonempty _ _ _ 1 Hm eq_refl eq_refl) as Hn.
  unfold wellFormed, aliasSymbol. cbn.
  repeat split; try congruence; try discriminate.
Qed.

Lemma macroSymbol_wf text document m :
  In m (exec_all macroRegex text) ->
  wellFormed (macroSymbol document m) /\
  type (macroSymbol document m) = macro.
Proof.
  intros Hm.
  pose proof (cap_set_nonempty _ _ _ 1 Hm eq_refl eq_refl) as Hn.
  unfold wellFormed, macroSymbol. cbn.
  repeat split; try congruence; try discriminate.
Qed.

Lemma constantSymbol_wf text document m :
  In m (exec_all constRegex text) ->
  wellFormed (constantSymbol document m) /\
  type (constantSymbol document m) = constant.
Proof.
  intros Hm.
  pose proof (cap_set_nonempty _ _ _ 1 Hm eq_refl eq_refl) as Hn.
  unfold wellFormed, constantSymbol. cbn.
  repeat split; try congruence; try discriminate.
Qed.

Lemma classTrace_wf text document s :
  In s (classTrace text document) ->
  wellFormed s /\ (type s = class \/ type s = method).
Proof.
  unfold classTrace. rewrite in_flat_map. intros (m & Hm & [<-|Hs]).
  - destruct (classSymbol_wf text document m Hm) as [H1 H2]. auto.
  - unfold methodTrace in Hs. apply in_map_iff in Hs as (mm & <- & Hmm).
    destruct (classSymbol_wf text document m Hm) as [(Hn & _) _].
    destruct (methodSymbol_wf text document _ (index m) _ mm Hmm Hn). auto.
Qed.

Lemma restTrace_wf document s :
  let text := getText document in
  In s (functionTrace text document
        ++ map (pipelineSymbol text document) (exec_all pipelineRegex text)
        ++ map (aliasSymbol document) (exec_all aliasRegex text)
        ++ map (macroSymbol document) (exec_all macroRegex text)
        ++ map (constantSymbol document) (exec_all constRegex text)) ->
  wellFormed s /\ type s <> class /\ type s <> method.
Proof.
  intros text. rewrite !in_app_iff. unfold functionTrace.
  rewrite !in_map_iff.
  intros H.
  repeat (destruct H as [H|H]); destruct H as (m & E & Hm); subst s.
  - apply filter_In in Hm as [Hm _].
    destruct (functionSymbol_wf text document m Hm) as [H1 H2].
    split; [exact H1|]. rewrite H2. split; discriminate.
  - destruct (pipelineSymbol_wf text document m Hm) as [H1 H2].
    split; [exact H1|]. rewrite H2. split; discriminate.
  - destruct (aliasSymbol_wf text document m Hm) as [H1 H2].
    split; [exact H1|]. rewrite H2. split; discriminate.
  - destruct (macroSymbol_wf text document m Hm) as [H1 H2].
    split; [exact H1|]. rewrite H2. split; discriminate.
  - destruct (constantSymbol_wf text document m Hm) as [H1 H2].
    split; [exact H1|]. rewrite H2. split; discriminate.
Qed.

Lemma parseTrace_wf document s : In s (parseTrace document) -> wellFormed s.
Proof.
  unfold parseTrace. rewrite in_app_iff. intros [H|H].
  - apply classTrace_wf in H. tauto.
  - apply restTrace_wf in H. tauto.
Qed.


(** ** Lookup *)

Lemma in_filter_named n s l :
  In s (List.filter (named n) l) <-> In s l /\ name s = n.
Proof.
  rewrite filter_In. unfold named. rewrite str_eqb_true. tauto.
Qed.

Lemma parsed_bucket document p0 n s :
  In s (getAllSymbols (parseDocument document p0)) -> name s = n ->
  map_get n (symbols (parseDocument document p0)) =
    Some (List.filter (named n) (parseTrace document)) /\
  In s (List.filter (named n) (parseTrace document)).
Proof.
  rewrite parseDocument_trace, in_getAllSymbols_insertAll, bucket_insertAll.
  intros Hs Hn.
  assert (Hin : In s (List.filter (named n) (parseTrace document)))
    by (apply in_filter_named; auto).
  split; [|exact Hin].
  destruct (List.filter (named n) (parseTrace document));
    [destruct Hin|reflexivity].
Qed.

Lemma in_parsed_bucket document p0 n s :
  In s (List.filter (named n) (parseTrace document)) <->
  In s (getAllSymbols (parseDocument document p0)) /\ name s = n.
Proof.
  rewrite parseDocument_trace, in_getAllSymbols_insertAll.
  apply in_filter_named.
Qed.

Lemma parsed_wf document p0 s :
  In s (getAllSymbols (parseDocument document p0)) -> wellFormed s.
Proof.
  rewrite parseDocument_trace, in_getAllSymbols_insertAll.
  apply parseTrace_wf.
Qed.

(** C1: in a parsed document that holds two declarations of one name with
    distinct version tags [v1] and [v2], [findSymbol name v1] returns a
    declaration of that name tagged [v1], never the one tagged [v2], and it is
    the declaration tagged [v1] when there is only one; [findAllSymbols name
    v1] returns exactly the declarations of the name tagged [v1]. *)
Theorem find_by_version (document : TextDocument) (p0 : LDLParser)
    (name_ v1 v2 : jsstring) (s1 s2 : LDLSymbol) :
  let p := parseDocument document p0 in
  In s1 (getAllSymbols p) -> In s2 (getAllSymbols p) ->
  name s1 = name_ -> name s2 = name_ ->
  version s1 = Some v1 -> version s2 = Some v2 -> v1 <> v2 ->
  (exists s, findSymbol p name_ (Some v1) None = Some s /\
     In s (getAllSymbols p) /\ name s = name_ /\ version s = Some v1 /\
     s <> s2) /\
  ((forall s', In s' (getAllSymbols p) -> name s' = name_ ->
      version s' = Some v1 -> s' = s1) ->
   findSymbol p name_ (Some v1) None = Some s1) /\
  (forall s, In s (findAllSymbols p name_ (Some v1) None) <->
     In s (getAllSymbols p) /\ name s = name_ /\ version s = Some v1) /\
  ~ In s2 (findAllSymbols p name_ (Some v1) None).
Proof.
  intros p H1 H2 Hn1 Hn2 Hv1 Hv2 Hne.
  destruct (parsed_bucket document p0 name_ s1 H1 Hn1) as [Hb Hin1].
  assert (Hv : v1 <> []).
  { destruct (parsed_wf _ _ _ H1) as (_ & Hv & _). congruence. }
  assert (Ht : truthy (Some v1) = true)
    by (destruct v1; [contradiction|reflexivity]).
  assert (Hfind : exists s, findSymbol p name_ (Some v1) None = Some s /\
            In s (getAllSymbols p) /\ name s = name_ /\ version s = Some v1).
  { unfold findSymbol. fold p in Hb. rewrite Hb, Ht.
    change (truthy None) with false. cbn iota.
    destruct (find _ _) as [s|] eqn:E.
    - apply find_some in E as [E1 E2]. apply bool_decide_eq_true in E2.
      apply (in_parsed_bucket document p0) in E1 as [E1 E3]. eauto.
    - eapply find_none in E; [|exact Hin1].
      apply bool_decide_eq_false in E. contradiction. }
  assert (Hall : forall s, In s (findAllSymbols p name_ (Some v1) None) <->
     In s (getAllSymbols p) /\ name s = name_ /\ version s = Some v1).
  { intros s. unfold findAllSymbols. fold p in Hb. rewrite Hb.
    rewrite Ht. change (truthy None) with false. cbn [andb]. cbn iota.
    rewrite filter_In.
    rewrite (in_parsed_bucket document p0), bool_decide_eq_true. tauto. }
  split; [|split; [|split]].
  - destruct Hfind as (s & F1 & F2 & F3 & F4). exists s.
    repeat split; auto. intros ->. congruence.
  - intros Huniq. destruct Hfind as (s & F1 & F2 & F3 & F4).
    rewrite F1. f_equal. apply Huniq; auto.
  - exact Hall.
  - rewrite Hall. intros (_ & _ & E). congruence.
Qed.

(** C2, amended: in a parsed document that holds a free function and a
    method of class [T] with the same name, [findSymbol name ver T] returns a
    method of that name owned by [T], whatever version is passed, and
    [findSymbol name] without owner and version returns the first-inserted
    symbol of the bucket of the name, which is a class or a method and not
    the free function: classes and their methods are inserted before the
    free functions. *)
Theorem find_owner_precedence (document : TextDocument) (p0 : LDLParser)
    (name_ T : jsstring) (f m : LDLSymbol) :
  let p := parseDocument document p0 in
  In f (getAllSymbols p) -> In m (getAllSymbols p) ->
  name f = name_ -> name m = name_ ->
  type f = function -> type m = method -> className m = Some T ->
  (forall ver, exists m', findSymbol p name_ ver (Some T) = Some m' /\
     In m' (getAllSymbols p) /\ name m' = name_ /\ type m' = method /\
     className m' = Some T) /\
  (exists s bucket, findSymbol p name_ None None = Some s /\
     map_get name_ (symbols p) = Some bucket /\ head bucket = Some s /\
     (type s = class \/ type s = method) /\ s <> f).
Proof.
  intros p Hf Hm Hnf Hnm Htf Htm Hcm.
  destruct (parsed_bucket document p0 name_ m Hm Hnm) as [Hb Hin].
  fold p in Hb.
  assert (HT : truthy (Some T) = true).
  { destruct (parsed_wf _ _ _ Hm) as (_ & _ & Hc & _).
    destruct T; [congruence|reflexivity]. }
  split.
  - intros ver. unfold findSymbol. rewrite Hb, HT.
    destruct (find _ _) as [m'|] eqn:E.
    + apply find_some in E as [E1 E2]. apply bool_decide_eq_true in E2.
      apply (in_parsed_bucket document p0) in E1 as [E1 E3].
      exists m'. repeat split; auto.
      destruct (parsed_wf _ _ _ E1) as (_ & _ & _ & Hty).
      apply Hty. congruence.
    + eapply find_none in E; [|exact Hin].
      apply bool_decide_eq_false in E. contradiction.
  - unfold findSymbol. rewrite Hb. cbn [truthy].
    assert (Hcm' : In m (classTrace (getText document) document)).
    { pose proof Hm as Hm'. unfold p in Hm'.
      rewrite parseDocument_trace, in_getAllSymbols_insertAll in Hm'.
      unfold parseTrace in Hm'.
      apply in_app_iff in Hm' as [Hm'|Hm']; [exact Hm'|].
      apply restTrace_wf in Hm' as (_ & _ & Hm'). contradiction. }
    unfold parseTrace. rewrite List.filter_app.
    destruct (List.filter (named name_)
                (classTrace (getText document) document)) as [|s b] eqn:E.
    { assert (Hx : In m []) by (rewrite <- E; apply in_filter_named; auto).
      destruct Hx. }
    assert (Hs : In s (classTrace (getText document) document)).
    { assert (Hx : In s (s :: b)) by (left; reflexivity).
      rewrite <- E in Hx. apply in_filter_named in Hx. tauto. }
    apply classTrace_wf in Hs as [_ Hs].
    exists s. eexists. split; [reflexivity|]. split; [reflexivity|].
    split; [reflexivity|]. split; [exact Hs|].
    intros ->. destruct Hs; congruence.
Qed.

Lemma find_by_version_witness :
  findSymbol (parseDocument overloadsDocument newParser) (u "SQ3R")
    (Some (u "academic")) None = Some academicSymbol.
Proof.
  refine (proj1 (proj2 (find_by_version overloadsDocument newParser (u "SQ3R")
           (u "academic") (u "classic") academicSymbol classicSymbol
           _ _ _ _ _ _ _)) _).
  1-6: vm_compute; tauto.
  - vm_compute; discriminate.
  - vm_compute. intros s' [<-|[<-|[]]] _ Hv; [discriminate Hv|reflexivity].
Defined.

(** C2 as stated fails: the document has a free function [foo] and a method
    [foo] of class [T], and [findSymbol foo] without owner returns the
    method. *)
Lemma find_without_owner_returns_method :
  let p := parseDocument ownerDocument newParser in
  In freeFoo (getAllSymbols p) /\ In methodFoo (getAllSymbols p) /\
  name freeFoo = name methodFoo /\
  type freeFoo = function /\ type methodFoo = method /\
  findSymbol p (u "foo") None None = Some methodFoo /\
  findSymbol p (u "foo") None None <> Some freeFoo.
Proof. vm_compute. repeat split; auto. discriminate. Qed.

Lemma find_owner_precedence_witness :
  exists m', findSymbol (parseDocument ownerDocument newParser) (u "foo")
               None (Some (u "T")) = Some m' /\ className m' = Some (u "T").
Proof.
  assert (H := proj1 (find_owner_precedence ownerDocument newParser (u "foo")
                        (u "T") freeFoo methodFoo
                        ltac:(vm_compute; tauto) ltac:(vm_compute; tauto)
                        ltac:(reflexivity) ltac:(reflexivity)
                        ltac:(reflexivity) ltac:(reflexivity)
                        ltac:(reflexivity)) None).
  destruct H as (m' & H1 & _ & _ & _ & H2). exists m'. split; assumption.
Defined.

(** ** Labels and documentation *)

Lemma scanBackward_documentation ls : forall labels_ doc0,
  snd (scanBackward ls labels_ doc0) =
  match last (List.filter isDocLine (scannedLines ls)) with
  | Some l => Some (docText l)
  | None => doc0
  end.
Proof.
  induction ls as [|l ls IH]; intros labels_ doc0; [reflexivity|].
  cbn [scanBackward scannedLines].
  destruct (match_first labelRegex (JS.trim l)) as [m|] eqn:Em.
  - assert (Hs : stopsScan l = false)
      by (unfold stopsScan, isLabelLine; rewrite Em; reflexivity).
    assert (Hd : isDocLine l = false)
      by (unfold isDocLine, isLabelLine; rewrite Em; reflexivity).
    rewrite Hs. cbn [List.filter]. rewrite Hd. apply IH.
  - destruct (JS.startsWith (u "///") (JS.trim l)) eqn:Ed.
    + assert (Hs : stopsScan l = false)
        by (unfold stopsScan, isLabelLine; rewrite Em, Ed; reflexivity).
      assert (Hd : isDocLine l = true)
        by (unfold isDocLine, isLabelLine; rewrite Em, Ed; reflexivity).
      rewrite Hs. cbn [List.filter]. rewrite Hd, IH, last_cons.
      destruct (last _); reflexivity.
    + assert (Hd : isDocLine l = false)
        by (unfold isDocLine, isLabelLine; rewrite Em, Ed; reflexivity).
      assert (Hs : stopsScan l =
                   negb (JS.str_eqb (JS.trim l) [])
                   && negb (JS.startsWith (u "@") (JS.trim l))
                   && negb (JS.startsWith (u "//") (JS.trim l)))
        by (unfold stopsScan, isLabelLine; rewrite Em, Ed; reflexivity).
      rewrite <- Hs. destruct (stopsScan l); [reflexivity|].
      cbn [List.filter]. rewrite Hd. apply IH.
Qed.

(** C3, amended: the documentation recorded for a declaration is the text
    of the documentation comment found last by the backward scan, the one
    farthest from the declaration among the lines that the scan visits. *)
Theorem documentation_last_found_wins text startIndex :
  snd (parseLabelsAndDocumentation text startIndex) =
  option_map docText
    (last
       (List.filter isDocLine
          (scannedLines
             (rev (JS.split_nl (JS.substring 0 startIndex text)))))).
Proof.
  unfold parseLabelsAndDocumentation. rewrite scanBackward_documentation.
  destruct (last _); reflexivity.
Qed.

(** C3 as stated fails: of two documentation comments above a function the
    one farther from the declaration is recorded. *)
Lemma documentation_farthest_comment_recorded :
  parseLabelsAndDocumentation (getText twoCommentsDocument) 16
    = ([], Some (u "far")) /\
  map (fun s => (name s, documentation s))
    (getAllSymbols (parseDocument twoCommentsDocument newParser))
    = [(u "f", Some (u "far"))] /\
  Some (u "far") <> Some (u "near").
Proof. vm_compute. repeat split. discriminate. Qed.

(** ** Sorting *)

Section SortBy.
Context {A : Type} (leb : A -> A -> bool).

Lemma insert_sorted_perm x l : Permutation (JS.insert_sorted leb x l) (x :: l).
Proof.
  induction l as [|y l IH]; simpl; [reflexivity|].
  destruct (leb x y); [reflexivity|].
  rewrite IH. apply perm_swap.
Qed.

Lemma sort_by_perm l : Permutation (JS.sort_by leb l) l.
Proof.
  induction l as [|x l IH]; simpl; [reflexivity|].
  rewrite insert_sorted_perm. constructor. exact IH.
Qed.

Lemma in_sort_by x l : In x (JS.sort_by leb l) <-> In x l.
Proof.
  split; apply Permutation_in; [|symmetry]; apply sort_by_perm.
Qed.

Hypothesis leb_total : forall x y, leb x y = false -> leb y x = true.
Hypothesis leb_trans :
  forall x y z, leb x y = true -> leb y z = true -> leb x z = true.

Lemma insert_sorted_sorted x l :
  StronglySorted (fun a b => leb a b = true) l ->
  StronglySorted (fun a b => leb a b = true) (JS.insert_sorted leb x l).
Proof.
  induction 1 as [|y l Hs IH Hall]; simpl; [repeat constructor|].
  destruct (leb x y) eqn:E.
  - constructor; [constructor; assumption|].
    constructor; [exact E|].
    eapply List.Forall_impl; [|exact Hall]. intros z Hz.
    eapply leb_trans; eauto.
  - constructor; [exact IH|].
    apply List.Forall_forall. intros z Hz.
    apply (Permutation_in _ (insert_sorted_perm x l)) in Hz.
    destruct Hz as [<-|Hz]; [auto|].
    rewrite List.Forall_forall in Hall. auto.
Qed.

Lemma sort_by_sorted l :
  StronglySorted (fun a b => leb a b = true) (JS.sort_by leb l).
Proof.
  induction l as [|x l IH]; simpl; [constructor|].
  apply insert_sorted_sorted. exact IH.
Qed.
End SortBy.

Lemma str_leb_total a : forall b,
  JS.str_leb a b = false -> JS.str_leb b a = true.
Proof.
  induction a as [|c a IH]; intros [|d b] H; simpl in *; try congruence.
  destruct (c <? d)%N eqn:E1; [discriminate|].
  destruct (d <? c)%N eqn:E2; [reflexivity|]. auto.
Qed.

Lemma str_leb_trans a : forall b c,
  JS.str_leb a b = true -> JS.str_leb b c = true -> JS.str_leb a c = true.
Proof.
  induction a as [|x a IH]; intros [|y b] [|z c] H1 H2; simpl in *;
    try congruence.
  destruct (x <? y)%N eqn:E1, (y <? x)%N eqn:E1', (y <? z)%N eqn:E2,
    (z <? y)%N eqn:E2', (x <? z)%N eqn:E3, (z <? x)%N eqn:E3';
    try reflexivity; try discriminate;
    rewrite ?N.ltb_lt, ?N.ltb_ge in *; try lia.
  eapply IH; eauto.
Qed.

Lemma str_leb_lexLt a : forall b,
  JS.str_leb a b = true -> a <> b -> lexLt a b.
Proof.
  induction a as [|c a IH]; intros [|d b] H Hne; simpl in *;
    try congruence; [constructor|].
  destruct (c <? d)%N eqn:E1; [apply lexLt_lt; apply N.ltb_lt; exact E1|].
  destruct (d <? c)%N eqn:E2; [discriminate|].
  apply N.ltb_ge in E1, E2. assert (c = d) by lia. subst d.
  apply lexLt_eq. apply IH; [exact H|congruence].
Qed.

Lemma sorted_nodup_strict l :
  StronglySorted (fun a b => JS.str_leb a b = true) l -> List.NoDup l ->
  StronglySorted lexLt l.
Proof.
  induction 1 as [|x l Hs IH Hall]; intros Hnd; [constructor|].
  inversion Hnd as [|? ? Hx Hl]; subst.
  constructor; [auto|].
  rewrite List.Forall_forall in *. intros y Hy.
  apply str_leb_lexLt; [auto|]. intros ->. contradiction.
Qed.

(** ** The label accessor *)

(** C10: for every parsed document [getAllLabels] returns the labels attached
    to at least one symbol of the table, each once, in strictly ascending
    lexicographic order of code units. *)
Theorem getAllLabels_sorted_distinct (document : TextDocument)
    (p0 : LDLParser) :
  StronglySorted lexLt (getAllLabels (parseDocument document p0)) /\
  (forall l, In l (getAllLabels (parseDocument document p0)) <->
     exists s ls, In s (getAllSymbols (parseDocument document p0)) /\
       labels s = Some ls /\ In l ls).
Proof.
  rewrite parseDocument_trace. unfold getAllLabels. split.
  - apply sorted_nodup_strict.
    + apply sort_by_sorted; [exact str_leb_total|exact str_leb_trans].
    + eapply Permutation_NoDup; [symmetry; apply sort_by_perm|].
      apply labelKeys_insertAll_NoDup.
  - intros l. rewrite in_sort_by, in_labelKeys_insertAll.
    split; intros (s & ls & H1 & H2); exists s, ls;
      (split; [apply in_getAllSymbols_insertAll; exact H1|exact H2]).
Qed.

(** The label index itself keeps the order of first encounter, which the
    accessor does not follow. *)
Lemma getAllLabels_not_insertion_order :
  map_keys (labelIndex (parseDocument labelsDocument newParser))
    = [u "reading"; u "academic"] /\
  getAllLabels (parseDocument labelsDocument newParser)
    = [u "academic"; u "reading"].
Proof. vm_compute. split; reflexivity. Qed.

(** ** Determinism and replacement *)

Lemma classSymbol_ext text d1 d2 m :
  (forall z, positionAt d1 z = positionAt d2 z) ->
  classSymbol text d1 m = classSymbol text d2 m.
Proof. intros H. unfold classSymbol. rewrite H. reflexivity. Qed.

Lemma methodSymbol_ext text d1 d2 cn ci m :
  (forall z, positionAt d1 z = positionAt d2 z) ->
  methodSymbol text d1 cn ci m = methodSymbol text d2 cn ci m.
Proof. intros H. unfold methodSymbol. rewrite H. reflexivity. Qed.

Lemma functionSymbol_ext text d1 d2 m :
  (forall z, positionAt d1 z = positionAt d2 z) ->
  functionSymbol text d1 m = functionSymbol text d2 m.
Proof. intros H. unfold functionSymbol. rewrite H. reflexivity. Qed.

Lemma pipelineSymbol_ext text d1 d2 m :
  (forall z, positionAt d1 z = positionAt d2 z) ->
  pipelineSymbol text d1 m = pipelineSymbol text d2 m.
Proof. intros H. unfold pipelineSymbol. rewrite H. reflexivity. Qed.

Lemma parseTrace_ext d1 d2 :
  getText d1 = getText d2 ->
  (forall z, positionAt d1 z = positionAt d2 z) ->
  parseTrace d1 = parseTrace d2.
Proof.
  intros Ht Hp. unfold parseTrace. rewrite <- Ht.
  f_equal; [|f_equal; [|f_equal; [|f_equal; [|f_equal]]]].
  - unfold classTrace. apply flat_map_ext. intros m.
    rewrite (classSymbol_ext _ d1 d2) by exact Hp. f_equal.
    unfold methodTrace. apply map_ext. intros mm.
    apply methodSymbol_ext. exact Hp.
  - unfold functionTrace. apply map_ext. intros m.
    apply functionSymbol_ext. exact Hp.
  - apply map_ext. intros m. apply pipelineSymbol_ext. exact Hp.
  - apply map_ext. intros m. unfold aliasSymbol. rewrite Hp. reflexivity.
  - apply map_ext. intros m. unfold macroSymbol. rewrite Hp. reflexivity.
  - apply map_ext. intros m. unfold constantSymbol. rewrite Hp. reflexivity.
Qed.

(** C4: the result of [parseDocument] is a function of the text of the
    document and of the positions of its offsets: parsing an unchanged text
    again, with any parser, gives the same symbol table and label index,
    entry for entry and in the same order; the tables that the parser held
    before the call leave no trace, every symbol and every label key of the
    result comes from the document parsed. *)
Theorem parse_deterministic_and_atomic (d1 d2 : TextDocument)
    (p q : LDLParser) :
  getText d1 = getText d2 ->
  (forall offset, positionAt d1 offset = positionAt d2 offset) ->
  parseDocument d1 p = parseDocument d2 q /\
  parseDocument d1 (parseDocument d1 p) = parseDocument d1 p /\
  parseDocument d1 p = parseDocument d1 newParser /\
  (forall s, In s (getAllSymbols (parseDocument d1 p)) <->
     In s (parseTrace d1)) /\
  (forall l, In l (map_keys (labelIndex (parseDocument d1 p))) <->
     exists s ls, In s (parseTrace d1) /\ labels s = Some ls /\ In l ls).
Proof.
  intros Ht Hp. rewrite !parseDocument_trace.
  rewrite (parseTrace_ext d1 d2 Ht Hp).
  split; [reflexivity|]. split; [reflexivity|]. split; [reflexivity|].
  split.
  - intros s. apply in_getAllSymbols_insertAll.
  - intros l. apply in_labelKeys_insertAll.
Qed.

Lemma parse_deterministic_and_atomic_witness :
  parseDocument ownerDocument staleParser
    = parseDocument (mkDocument (u "copy.ldl") (getText ownerDocument))
        (parseDocument labelsDocument newParser).
Proof.
  refine (proj1 (parse_deterministic_and_atomic ownerDocument
            (mkDocument (u "copy.ldl") (getText ownerDocument))
            staleParser (parseDocument labelsDocument newParser) _ _)).
  - reflexivity.
  - intros offset. reflexivity.
Defined.

(** ** The parser cache *)

Lemma getParserForDocument_cached d t st e :
  Cache.parsedDocuments st !! uri d = Some e ->
  (t <= Cache.lastModified e)%Z ->
  Cache.getParserForDocument d t st = (Cache.parser e, st).
Proof.
  intros He Ht. unfold Cache.getParserForDocument. rewrite He.
  apply Z.leb_le in Ht. rewrite Ht. reflexivity.
Qed.

Lemma getParserForDocument_fresh d t st :
  (forall e, Cache.parsedDocuments st !! uri d = Some e ->
     (Cache.lastModified e < t)%Z) ->
  Cache.getParserForDocument d t st =
  (length (Cache.heap st),
   Cache.mkProvider
     (<[uri d := Cache.mkEntry (length (Cache.heap st)) t]>
        (Cache.parsedDocuments st))
     (Cache.heap st ++ [parseDocument d newParser])).
Proof.
  intros H. unfold Cache.getParserForDocument.
  destruct (Cache.parsedDocuments st !! uri d) as [e|] eqn:He; [|reflexivity].
  specialize (H e eq_refl). apply Z.leb_gt in H. rewrite H. reflexivity.
Qed.

Lemma getParserForDocument_entry d t st r st' :
  Cache.getParserForDocument d t st = (r, st') ->
  exists e, Cache.parsedDocuments st' !! uri d = Some e /\
    Cache.parser e = r /\ (t <= Cache.lastModified e)%Z /\
    (cacheNotNewer st (uri d) t -> Cache.lastModified e = t).
Proof.
  unfold Cache.getParserForDocument.
  destruct (Cache.parsedDocuments st !! uri d) as [e|] eqn:He.
  - destruct (t <=? Cache.lastModified e)%Z eqn:E; intros H;
      injection H as <- <-.
    + exists e. apply Z.leb_le in E. repeat split; auto.
      intros Hn. specialize (Hn e He). lia.
    + eexists. cbn. rewrite lookup_insert_eq.
      split; [reflexivity|]. cbn. repeat split; auto; lia.
  - intros H; injection H as <- <-.
    eexists. cbn. rewrite lookup_insert_eq.
    split; [reflexivity|]. cbn. repeat split; auto; lia.
Qed.

(** Observing the times of a file in non-decreasing order keeps the cache
    from running ahead of the file. *)
Lemma cacheNotNewer_preserved d t t' st :
  cacheNotNewer st (uri d) t -> (t <= t')%Z ->
  cacheNotNewer (snd (Cache.getParserForDocument d t st)) (uri d) t'.
Proof.
  intros Hn Ht e He.
  destruct (Cache.getParserForDocument d t st) as [r st'] eqn:E.
  apply getParserForDocument_entry in E as (e' & H1 & _ & _ & H2).
  cbn in He. rewrite H1 in He. injection He as <-.
  rewrite H2 by exact Hn. exact Ht.
Qed.

(** A call for another file leaves the entry of this one alone. *)
Lemma cacheNotNewer_other d t st uri_ t' :
  uri d <> uri_ -> cacheNotNewer st uri_ t' ->
  cacheNotNewer (snd (Cache.getParserForDocument d t st)) uri_ t'.
Proof.
  intros Hne Hn e He. apply Hn. revert He.
  unfold Cache.getParserForDocument.
  destruct (Cache.parsedDocuments st !! uri d) as [c|];
    [destruct (t <=? Cache.lastModified c)%Z|]; cbn;
    rewrite ?lookup_insert_ne by exact Hne; auto.
Qed.

Lemma cacheNotNewer_new uri_ t : cacheNotNewer Cache.newProvider uri_ t.
Proof. intros e He. cbn in He. rewrite lookup_empty in He. discriminate. Qed.

(** C5: of two successive calls of [getParserForDocument] for one file, the
    second returns the reference returned by the first and leaves the
    provider as it is (no parser is created or run) when the modification
    time is the same; when the time has advanced, the times of the file being
    observed in non-decreasing order, the second call returns a reference to
    a new parser, run on the document it was given whatever its text, and
    records it with the new time. *)
Theorem getParserForDocument_staleness (d1 d2 : TextDocument) (t1 t2 : Z)
    (st st1 st2 : Cache.Provider) (r1 r2 : nat) :
  uri d1 = uri d2 ->
  Cache.getParserForDocument d1 t1 st = (r1, st1) ->
  Cache.getParserForDocument d2 t2 st1 = (r2, st2) ->
  (t2 = t1 -> r2 = r1 /\ st2 = st1) /\
  (cacheNotNewer st (uri d1) t1 -> (t1 < t2)%Z ->
   Cache.heap st1 !! r2 = None /\
   Cache.heap st2 = Cache.heap st1 ++ [parseDocument d2 newParser] /\
   Cache.heap st2 !! r2 = Some (parseDocument d2 newParser) /\
   Cache.parsedDocuments st2 !! uri d2 = Some (Cache.mkEntry r2 t2)).
Proof.
  intros Hu H1 H2.
  apply getParserForDocument_entry in H1 as (e & He & Hr & Hle & Heq).
  rewrite Hu in He. split.
  - intros ->.
    rewrite (getParserForDocument_cached d2 t1 st1 e He Hle) in H2.
    injection H2 as <- <-. auto.
  - intros Hn Hlt. specialize (Heq Hn).
    rewrite getParserForDocument_fresh in H2.
    + injection H2 as <- <-. cbn.
      split; [apply lookup_ge_None_2; lia|].
      split; [reflexivity|].
      split; [|apply lookup_insert_eq].
      rewrite lookup_app_r by lia. rewrite Nat.sub_diag. reflexivity.
    + intros e' He'. rewrite He in He'. injection He' as <-. lia.
Qed.

Lemma getParserForDocument_staleness_witness :
  Cache.heap
    (snd (Cache.getParserForDocument ownerDocument 200
            (snd (Cache.getParserForDocument ownerDocument 100
                    Cache.newProvider))))
  = Cache.heap (snd (Cache.getParserForDocument ownerDocument 100
                       Cache.newProvider))
    ++ [parseDocument ownerDocument newParser].
Proof.
  exact (proj1 (proj2
    (proj2 (getParserForDocument_staleness ownerDocument ownerDocument
              100 200 Cache.newProvider _ _ _ _ eq_refl
              (surjective_pairing _) (surjective_pairing _))
       (cacheNotNewer_new _ _) ltac:(lia)))).
Defined.

(** ** Reference search *)

Import References.

Lemma samePosition_false a b : samePosition a b = false -> a <> b.
Proof.
  unfold samePosition. intros H ->.
  rewrite !Nat.eqb_refl in H. discriminate.
Qed.

Lemma existsb_false {A} (f : A -> bool) l :
  existsb f l = false -> forall x, In x l -> f x = false.
Proof.
  induction l as [|y l IH]; intros H x []; simpl in H;
    apply orb_false_iff in H as [H1 H2]; subst; auto.
Qed.

Lemma in_combine_seq {A} (ls : list A) : forall s i l,
  In (i, l) (combine (seq s (length ls)) ls) ->
  nth_error ls (i - s) = Some l /\ s <= i.
Proof.
  induction ls as [|x ls IH]; intros s i l H; [destruct H|].
  simpl in H. destruct H as [H|H].
  - injection H as <- <-. rewrite Nat.sub_diag. auto.
  - apply IH in H as [H1 H2]. split; [|lia].
    replace (i - s) with (S (i - S s)) by lia. exact H1.
Qed.

Section ReferenceInvariant.
Variables (document : TextDocument) (symbolName : jsstring).

Lemma addReference_ok lineIndex line_ pattern m references :
  nth_error (JS.split_nl (getText document)) lineIndex = Some line_ ->
  In pattern (patterns symbolName) ->
  In m (exec_all pattern line_) ->
  refsOk document symbolName references ->
  refsOk document symbolName
    (addReference lineIndex line_ symbolName references m).
Proof.
  intros Hl Hp Hm [Hnd Hor]. unfold addReference.
  destruct (isInComment line_ (index m)) eqn:Ec; [split; assumption|].
  destruct (isInString line_ (index m)) eqn:Es; [split; assumption|].
  destruct (match_first _ _) as [sm|] eqn:Esm; [|split; assumption].
  destruct (existsb _ _) eqn:Ex; [split; assumption|].
  split.
  - apply List.NoDup_app; [exact Hnd|repeat constructor; intros []|].
    intros a Ha [<-|[]].
    apply (existsb_false _ _ Ex) in Ha.
    apply samePosition_false in Ha. congruence.
  - intros pos Hpos. apply in_app_iff in Hpos as [Hpos|[<-|[]]]; [auto|].
    exists line_, pattern, m, sm. repeat split; auto.
Qed.

Lemma scanPattern_ok lineIndex line_ pattern references :
  nth_error (JS.split_nl (getText document)) lineIndex = Some line_ ->
  In pattern (patterns symbolName) ->
  refsOk document symbolName references ->
  refsOk document symbolName
    (scanPattern lineIndex line_ symbolName references pattern).
Proof.
  intros Hl Hp. unfold scanPattern.
  assert (Hall : forall m, In m (exec_all pattern line_) ->
                   In m (exec_all pattern line_)) by auto.
  revert Hall references.
  generalize (exec_all pattern line_) at 1 3 as ms.
  induction ms as [|m ms IH]; intros Hall references Hok; [exact Hok|].
  simpl. apply IH; [intros; apply Hall; right; assumption|].
  apply (addReference_ok lineIndex line_ pattern); auto.
  apply Hall. left. reflexivity.
Qed.

Lemma scanLine_ok lineIndex line_ references :
  nth_error (JS.split_nl (getText document)) lineIndex = Some line_ ->
  refsOk document symbolName references ->
  refsOk document symbolName
    (scanLine symbolName references (lineIndex, line_)).
Proof.
  intros Hl. unfold scanLine.
  assert (Hall : forall p, In p (patterns symbolName) ->
                   In p (patterns symbolName)) by auto.
  revert Hall references.
  generalize (patterns symbolName) at 1 3 as ps.
  induction ps as [|p ps IH]; intros Hall references Hok; [exact Hok|].
  simpl. apply IH; [intros; apply Hall; right; assumption|].
  apply scanPattern_ok; auto. apply Hall. left. reflexivity.
Qed.

Lemma findReferencesInDocument_ok :
  refsOk document symbolName
    (findReferencesInDocument document symbolName).
Proof.
  unfold findReferencesInDocument.
  set (lines := JS.split_nl (getText document)).
  assert (Hall : forall e, In e (combine (seq 0 (length lines)) lines) ->
                   nth_error lines (fst e) = Some (snd e)).
  { intros [i l] H. apply in_combine_seq in H as [H _].
    rewrite Nat.sub_0_r in H. exact H. }
  assert (Hok : refsOk document symbolName [])
    by (split; [constructor|intros ? []]).
  revert Hall Hok. generalize (@nil Position) as references.
  generalize (combine (seq 0 (length lines)) lines) as es.
  induction es as [|[i l] es IH]; intros references Hall Hok; [exact Hok|].
  simpl. apply IH; [intros; apply Hall; right; assumption|].
  apply scanLine_ok; [|exact Hok].
  apply (Hall (i, l)). left. reflexivity.
Qed.
End ReferenceInvariant.

Lemma isInComment_after_slashes line_ p c :
  (JS.indexOf (u "//") line_ = Z.of_nat c \/
   JS.indexOf (u "///") line_ = Z.of_nat c) ->
  c <= p -> isInComment line_ p = true.
Proof.
  intros H Hc. unfold isInComment.
  assert (Hne : (Z.of_nat c =? -1)%Z = false) by (apply Z.eqb_neq; lia).
  assert (Hle : (Z.of_nat c <=? Z.of_nat p)%Z = true) by (apply Z.leb_le; lia).
  destruct (negb (JS.indexOf (u "//") line_ =? -1)%Z
            && (JS.indexOf (u "//") line_ <=? Z.of_nat p)%Z) eqn:E1;
    [reflexivity|].
  destruct H as [H|H].
  - rewrite H, Hne, Hle in E1. discriminate.
  - rewrite H, Hne, Hle. reflexivity.
Qed.

Lemma quoteStep_plain st c : isQuote c = false -> quoteStep st c = st.
Proof.
  unfold isQuote, quoteStep. intros H.
  apply orb_false_iff in H as [-> ->]. reflexivity.
Qed.

Lemma fold_quoteStep_plain s : forall st,
  forallb (fun c => negb (isQuote c)) s = true ->
  fold_left quoteStep s st = st.
Proof.
  induction s as [|c s IH]; intros st H; [reflexivity|].
  simpl in H. apply andb_true_iff in H as [Hc Hs].
  simpl. rewrite quoteStep_plain by (apply negb_true_iff; exact Hc). auto.
Qed.

(** Inside a string opened by [q], code units other than [q] leave the
    state as it is. *)
Lemma fold_quoteStep_inside q s :
  isQuote q = true ->
  forallb (fun c => negb (c =? q)%N) s = true ->
  fold_left quoteStep s
    (quoteStep (mkQuoteState false false false) q)
  = quoteStep (mkQuoteState false false false) q.
Proof.
  intros Hq. induction s as [|c s IH]; intros H; [reflexivity|].
  simpl in H. apply andb_true_iff in H as [Hc Hs].
  cbn [fold_left]. rewrite <- IH at 2 by exact Hs. f_equal.
  apply negb_true_iff in Hc.
  unfold isQuote in Hq. apply orb_true_iff in Hq as [Hq|Hq];
    apply N.eqb_eq in Hq; subst q; unfold quoteStep; cbn.
  - rewrite Hc. cbn. rewrite andb_false_r. reflexivity.
  - rewrite Hc. cbn. rewrite andb_false_r. reflexivity.
Qed.

Lemma isInString_open pre q mid rest p :
  forallb (fun c => negb (isQuote c)) pre = true ->
  isQuote q = true ->
  forallb (fun c => negb (c =? q)%N) mid = true ->
  length pre < p <= length pre + 1 + length mid ->
  isInString (pre ++ q :: mid ++ rest) p = true.
Proof.
  intros Hpre Hq Hmid Hp. unfold isInString.
  rewrite take_app. rewrite take_ge by lia.
  destruct (p - length pre) as [|n] eqn:En; [lia|].
  rewrite firstn_cons, fold_left_app.
  rewrite (fold_quoteStep_plain pre) by exact Hpre.
  cbn [fold_left].
  rewrite take_app_le by lia.
  rewrite fold_quoteStep_inside; [|exact Hq|].
  - unfold isQuote in Hq. apply orb_true_iff in Hq as [Hq|Hq];
      apply N.eqb_eq in Hq; subst q; reflexivity.
  - clear -Hmid. revert n. induction mid as [|c mid IH]; intros [|n];
      try reflexivity.
    simpl in Hmid. apply andb_true_iff in Hmid as [Hc Hm].
    cbn [take forallb]. rewrite Hc. cbn [andb]. apply IH. exact Hm.
Qed.

(** C7: the positions returned by [findReferencesInDocument] are pairwise
    different, and each comes from a match of one of the four patterns that
    starts neither in a comment nor in a string; a match that starts at or
    after the first [//] or [///] of its line is in a comment, and a match
    that starts after a quote that has not been closed is in a string, so
    such matches are discarded. *)
Theorem references_filtered_and_distinct (document : TextDocument)
    (symbolName : jsstring) :
  List.NoDup (findReferencesInDocument document symbolName) /\
  (forall pos, In pos (findReferencesInDocument document symbolName) ->
     referenceOrigin document symbolName pos) /\
  (forall line_ p c,
     JS.indexOf (u "//") line_ = Z.of_nat c \/
     JS.indexOf (u "///") line_ = Z.of_nat c ->
     c <= p -> isInComment line_ p = true) /\
  (forall pre q mid rest p,
     forallb (fun c => negb (isQuote c)) pre = true ->
     isQuote q = true ->
     forallb (fun c => negb (c =? q)%N) mid = true ->
     length pre < p <= length pre + 1 + length mid ->
     isInString (pre ++ q :: mid ++ rest) p = true).
Proof.
  destruct (findReferencesInDocument_ok document symbolName) as [H1 H2].
  split; [exact H1|]. split; [exact H2|].
  split; [exact isInComment_after_slashes|exact isInString_open].
Qed.

(** The line [let s = \x22call foo() here\x22] gives no reference to
    [foo]: its only match starts inside the string. *)
Lemma references_in_string_line :
  findReferencesInDocument stringLineDocument (u "foo") = [] /\
  map index (exec_all (callPattern (u "foo")) (getText stringLineDocument))
    = [14] /\
  isInString (getText stringLineDocument) 14 = true.
Proof. vm_compute. repeat split. Qed.

Lemma references_filtered_and_distinct_witness :
  isInString (u "let s = " ++ dquote :: u "call foo() here" ++ [dquote]) 14
  = true.
Proof.
  refine (proj2 (proj2 (proj2
            (references_filtered_and_distinct stringLineDocument (u "foo"))))
            (u "let s = ") dquote (u "call foo() here") [dquote] 14 _ _ _ _).
  - reflexivity.
  - reflexivity.
  - reflexivity.
  - vm_compute. lia.
Defined.

(** ** Ranking *)

Import Completion.

Ltac case_ifs :=
  repeat match goal with
         | |- context [if ?c then _ else _] => destruct c
         end.

Lemma matchScore_bounds lower typed item :
  (0 <= matchScore lower typed item <= 100)%Z.
Proof. unfold matchScore. case_ifs; lia. Qed.

Lemma recencyScore_bounds now usage : (0 <= recencyScore now usage <= 30)%Z.
Proof.
  unfold recencyScore. case_ifs; lia.
Qed.

Lemma usageScore_bounds h now item :
  usageOk h -> (0 <= usageScore h now item <= 80)%Z.
Proof.
  intros Hok. unfold usageScore.
  destruct (h !! label item) as [usage|] eqn:E; [|lia].
  specialize (Hok _ _ E). pose proof (recencyScore_bounds now usage).
  unfold frequencyScore. lia.
Qed.

Lemma contextScore_bounds context item :
  (0 <= contextScore context item <= 25)%Z.
Proof.
  unfold contextScore.
  destruct (currentFunction context), (detail item); try lia.
  case_ifs; lia.
Qed.

Lemma itemScore_bounds lower h typed context now item :
  usageOk h -> (0 <= itemScore lower h typed context now item <= 205)%Z.
Proof.
  intros Hok. unfold itemScore.
  pose proof (matchScore_bounds lower typed item).
  pose proof (usageScore_bounds h now item Hok).
  pose proof (contextScore_bounds context item). lia.
Qed.

Section RankingOrder.
Variable toLowerCase : jsstring -> jsstring.
Variable localeCompare : jsstring -> jsstring -> Z.
Hypothesis localeCompare_ok : comparatorOk localeCompare.

Lemma sortTextLeb_total x y :
  sortTextLeb localeCompare x y = false -> sortTextLeb localeCompare y x = true.
Proof.
  unfold sortTextLeb. intros H. apply Z.leb_gt in H. apply Z.leb_le.
  apply (cmp_sign _ localeCompare_ok) in H. lia.
Qed.

Lemma sortTextLeb_trans x y z :
  sortTextLeb localeCompare x y = true ->
  sortTextLeb localeCompare y z = true ->
  sortTextLeb localeCompare x z = true.
Proof.
  unfold sortTextLeb. rewrite !Z.leb_le.
  apply (cmp_trans _ localeCompare_ok).
Qed.

Lemma sortKey_lt sa sb la lb :
  (0 <= sb)%Z -> (sb < sa)%Z -> (sa <= 205)%Z ->
  (localeCompare (sortKey sa la) (sortKey sb lb) < 0)%Z.
Proof.
  intros H1 H2 H3. unfold sortKey.
  apply (cmp_digits _ localeCompare_ok); lia.
Qed.

Lemma strongly_sorted_lookup {A} (R : A -> A -> Prop) (l : list A) :
  StronglySorted R l ->
  forall i j x y, l !! i = Some x -> l !! j = Some y -> i < j -> R x y.
Proof.
  induction 1 as [|z l Hs IH Hall]; intros i j x y Hi Hj Hlt;
    [rewrite lookup_nil in Hi; discriminate|].
  destruct j as [|j]; [lia|]. cbn in Hj.
  destruct i as [|i].
  - cbn in Hi. injection Hi as <-.
    rewrite List.Forall_forall in Hall. apply Hall.
    apply list_elem_of_In. eapply list_elem_of_lookup_2. exact Hj.
  - cbn in Hi. eapply IH; eauto. lia.
Qed.

Lemma ranked_order (st : Provider) (clock : nat -> Z)
    (completions : list CompletionItem) (textBeforeCursor : jsstring)
    (context : CompletionContext) (i j : nat) (a b : CompletionItem) :
  let typed := JS.last_word textBeforeCursor in
  let a' := rankItem toLowerCase (usageHistory st) typed context (clock i) a in
  let b' := rankItem toLowerCase (usageHistory st) typed context (clock j) b in
  let result :=
    applyIntelligentRanking toLowerCase localeCompare st clock completions
      textBeforeCursor context in
  usageOk (usageHistory st) ->
  completions !! i = Some a -> completions !! j = Some b ->
  (itemScore toLowerCase (usageHistory st) typed context (clock j) b
   < itemScore toLowerCase (usageHistory st) typed context (clock i) a)%Z ->
  (exists ia, result !! ia = Some a') /\ (exists ib, result !! ib = Some b') /\
  (forall ia ib, result !! ia = Some a' -> result !! ib = Some b' -> ia < ib).
Proof.
  intros typed a' b' result Hok Hi Hj Hlt.
  pose proof (itemScore_bounds toLowerCase (usageHistory st) typed context
                (clock i) a Hok) as Ba.
  pose proof (itemScore_bounds toLowerCase (usageHistory st) typed context
                (clock j) b Hok) as Bb.
  assert (Hkey : (localeCompare (or_empty (sortText a'))
                    (or_empty (sortText b')) < 0)%Z).
  { cbn. apply sortKey_lt; lia. }
  assert (Hin : forall k x, completions !! k = Some x ->
            exists k', result !! k' =
              Some (rankItem toLowerCase (usageHistory st) typed context
                      (clock k) x)).
  { intros k x Hk.
    apply list_elem_of_lookup_1, list_elem_of_In.
    unfold result, applyIntelligentRanking. apply in_sort_by.
    apply list_elem_of_In. eapply list_elem_of_lookup_2 with (i := k).
    rewrite list_lookup_imap, Hk. reflexivity. }
  split; [apply (Hin i a Hi)|]. split; [apply (Hin j b Hj)|].
  assert (Hsorted : StronglySorted
            (fun x y => sortTextLeb localeCompare x y = true) result).
  { apply sort_by_sorted; [exact sortTextLeb_total|exact sortTextLeb_trans]. }
  clearbody a' b' result. clear Hin.
  intros ia ib Ha Hb.
  destruct (Nat.lt_ge_cases ia ib) as [|Hge]; [assumption|exfalso].
  assert (Hba : sortTextLeb localeCompare b' a' = true).
  { destruct (Nat.eq_dec ia ib) as [->|Hne].
    - assert (a' = b') as -> by congruence.
      pose proof (proj1 (cmp_sign _ localeCompare_ok _ _) Hkey). lia.
    - eapply (strongly_sorted_lookup _ _ Hsorted ib ia); eauto. lia. }
  unfold sortTextLeb in Hba. apply Z.leb_le in Hba.
  apply (cmp_sign _ localeCompare_ok) in Hkey. lia.
Qed.
End RankingOrder.

(** The comparison by code units is a comparison function that orders the
    padded numbers as the host does. *)
Lemma codeUnitCompare_sign a : forall b,
  (codeUnitCompare a b < 0)%Z <-> (0 < codeUnitCompare b a)%Z.
Proof.
  induction a as [|c a IH]; intros [|d b]; simpl; try lia.
  destruct (c <? d)%N eqn:E1, (d <? c)%N eqn:E2;
    rewrite ?N.ltb_lt, ?N.ltb_ge in *; try lia.
  apply IH.
Qed.

Lemma codeUnitCompare_trans a : forall b c,
  (codeUnitCompare a b <= 0)%Z -> (codeUnitCompare b c <= 0)%Z ->
  (codeUnitCompare a c <= 0)%Z.
Proof.
  induction a as [|x a IH]; intros [|y b] [|z c]; simpl; try lia.
  destruct (x <? y)%N eqn:E1, (y <? x)%N eqn:E1', (y <? z)%N eqn:E2,
    (z <? y)%N eqn:E2', (x <? z)%N eqn:E3, (z <? x)%N eqn:E3';
    rewrite ?N.ltb_lt, ?N.ltb_ge in *; try lia.
  apply IH.
Qed.

Lemma codeUnitCompare_app p : forall q s t,
  length p = length q -> codeUnitCompare p q <> 0%Z ->
  codeUnitCompare (p ++ s) (q ++ t) = codeUnitCompare p q.
Proof.
  induction p as [|c p IH]; intros [|d q] s t Hl Hne; simpl in *;
    try discriminate; try congruence.
  destruct (c <? d)%N, (d <? c)%N; auto.
Qed.

Lemma in_combine_map {A B} (f : A -> B) (l : list A) x :
  In x l -> In (x, f x) (combine l (map f l)).
Proof.
  induction l as [|y l IH]; intros []; simpl; subst; auto.
Qed.

Lemma keyPrefix_table :
  let ks :=
    combine (seq 795 206)
      (map (fun n => keyPrefix (Z.of_nat n)) (seq 795 206)) in
  forallb (fun e1 =>
    forallb (fun e2 =>
      implb (fst e1 <? fst e2)
        ((codeUnitCompare (snd e1) (snd e2) =? -1)%Z
         && (length (snd e1) =? 4) && (length (snd e2) =? 4)))
      ks)
    ks = true.
Proof. vm_compute. reflexivity. Qed.

Lemma codeUnitCompare_digits x y s t :
  (795 <= x)%Z -> (x < y)%Z -> (y <= 1000)%Z ->
  (codeUnitCompare (keyPrefix x ++ s) (keyPrefix y ++ t) < 0)%Z.
Proof.
  intros H1 H2 H3.
  pose proof keyPrefix_table as T. cbv zeta in T.
  rewrite forallb_forall in T.
  assert (Hx : In (Z.to_nat x) (seq 795 206)) by (apply in_seq; lia).
  assert (Hy : In (Z.to_nat y) (seq 795 206)) by (apply in_seq; lia).
  specialize (T _ (in_combine_map (fun n => keyPrefix (Z.of_nat n)) _ _ Hx)).
  rewrite forallb_forall in T.
  specialize (T _ (in_combine_map (fun n => keyPrefix (Z.of_nat n)) _ _ Hy)).
  cbn [fst snd] in T.
  rewrite !Z2Nat.id in T by lia.
  assert (Hlt : (Z.to_nat x <? Z.to_nat y) = true) by (apply Nat.ltb_lt; lia).
  rewrite Hlt in T. cbn [implb] in T.
  apply andb_true_iff in T as [T Ly]. apply andb_true_iff in T as [C Lx].
  apply Z.eqb_eq in C. apply Nat.eqb_eq in Lx, Ly.
  rewrite codeUnitCompare_app; lia.
Qed.

Lemma codeUnitCompare_ok : comparatorOk codeUnitCompare.
Proof.
  split.
  - intros a b. apply codeUnitCompare_sign.
  - intros a b c. apply codeUnitCompare_trans.
  - apply codeUnitCompare_digits.
Qed.

Lemma usageOk_empty : usageOk ∅.
Proof. intros k usage H. rewrite lookup_empty in H. discriminate. Qed.

Lemma usageOk_insert h k usage :
  usageOk h -> (1 <= frequency usage)%Z -> usageOk (<[k := usage]> h).
Proof.
  intros Hok Hf k' usage' H.
  apply lookup_insert_Some in H as [[_ <-]|[_ H]]; [exact Hf|eauto].
Qed.

(** Accepting a candidate keeps the frequencies positive. *)
Lemma updateUsageStats_ok symbol_ context now st :
  usageOk (usageHistory st) ->
  usageOk (usageHistory (updateUsageStats symbol_ context now st)).
Proof.
  intros Hok. unfold updateUsageStats. cbn.
  destruct (usageHistory st !! symbol_) as [existing|] eqn:E.
  - apply usageOk_insert; [exact Hok|]. cbn. specialize (Hok _ _ E). lia.
  - apply usageOk_insert; [exact Hok|]. cbn. lia.
Qed.

(** ** The version generator *)

Lemma set_has_true x s : set_has x s = true <-> In x s.
Proof.
  unfold set_has. rewrite existsb_exists. split.
  - intros (y & Hy & E). apply str_eqb_true in E. subst. exact Hy.
  - intros H. exists x. split; [exact H|apply str_eqb_refl].
Qed.

Lemma set_has_false x s : set_has x s = false <-> ~ In x s.
Proof.
  rewrite <- set_has_true. destruct (set_has x s); split; congruence.
Qed.

Lemma set_add_NoDup x s : List.NoDup s -> List.NoDup (set_add x s).
Proof.
  intros H. unfold set_add. destruct (set_has x s) eqn:E; [exact H|].
  apply set_has_false in E.
  apply List.NoDup_app; [exact H|repeat constructor; intros []|].
  intros y Hy [<-|[]]. contradiction.
Qed.

Lemma in_set_add v x s : In v (set_add x s) <-> v = x \/ In v s.
Proof.
  unfold set_add. destruct (set_has x s) eqn:E.
  - apply set_has_true in E. intuition (subst; auto).
  - rewrite in_app_iff. simpl. intuition.
Qed.

Lemma truthy_version s :
  truthy (version s) = true <->
  exists v, version s = Some v /\ v <> [].
Proof.
  unfold truthy. destruct (version s) as [[|c v]|]; split;
    try discriminate; try reflexivity.
  - intros (v & H & Hne). injection H as <-. contradiction.
  - intros _. eexists. split; [reflexivity|discriminate].
  - intros (v & H & _). discriminate.
Qed.

Lemma collectVersions_fold functions : forall acc,
  List.NoDup acc ->
  let versions :=
    fold_left
      (fun versions func =>
         if truthy (version func)
         then set_add (or_empty (version func)) versions
         else versions)
      functions acc in
  List.NoDup versions /\
  forall v, In v versions <->
    In v acc \/
    (v <> [] /\ exists s, In s functions /\ version s = Some v).
Proof.
  induction functions as [|f functions IH]; intros acc Hacc; cbn zeta.
  - split; [exact Hacc|]. intros v. simpl.
    split; [auto|intros [H|(_ & s & [] & _)]; exact H].
  - cbn [fold_left]. destruct (truthy (version f)) eqn:E.
    + apply truthy_version in E as (w & Hw & Hne).
      rewrite Hw. cbn [or_empty].
      destruct (IH (set_add w acc) (set_add_NoDup w acc Hacc)) as [H1 H2].
      split; [exact H1|]. intros v. rewrite H2, in_set_add. split.
      * intros [[->|H]|(Hv & s & Hs & Hsv)]; auto.
        -- right. split; [exact Hne|]. exists f. simpl. auto.
        -- right. split; [exact Hv|]. exists s. simpl. auto.
      * intros [H|(Hv & s & [<-|Hs] & Hsv)]; auto.
        -- left. left. congruence.
        -- right. split; [exact Hv|]. exists s. auto.
    + destruct (IH acc Hacc) as [H1 H2].
      split; [exact H1|]. intros v. rewrite H2. split.
      * intros [H|(Hv & s & Hs & Hsv)]; auto.
        right. split; [exact Hv|]. exists s. simpl. auto.
      * intros [H|(Hv & s & [<-|Hs] & Hsv)]; auto.
        -- exfalso. assert (truthy (version f) = true)
             by (apply truthy_version; eauto). congruence.
        -- right. split; [exact Hv|]. exists s. auto.
Qed.

Lemma collectVersions_spec functions :
  List.NoDup (collectVersions functions) /\
  forall v, In v (collectVersions functions) <->
    v <> [] /\ exists s, In s functions /\ version s = Some v.
Proof.
  destruct (collectVersions_fold functions [] ltac:(constructor)) as [H1 H2].
  split; [exact H1|]. intros v. unfold collectVersions. rewrite H2.
  simpl. tauto.
Qed.

Lemma commonVersions_NoDup : List.NoDup commonVersions.
Proof.
  unfold commonVersions.
  repeat (constructor; [simpl; intros H; repeat destruct H as [H|H];
                        try discriminate H; exact H|]).
  constructor.
Qed.

Lemma NoDup_filter {A} (f : A -> bool) l :
  List.NoDup l -> List.NoDup (List.filter f l).
Proof.
  induction 1 as [|x l Hx Hl IH]; simpl; [constructor|].
  destruct (f x); [|exact IH].
  constructor; [|exact IH]. rewrite filter_In. tauto.
Qed.

(** The scenario of the specification: the generator returns [classic] and
    [academic] ahead of the catalog; here the ranked list keeps them ahead,
    because the call stands in the text of the declaration of [SQ3R] and
    their detail earns the context bonus. *)
Lemma version_completion_scenario :
  provideVersionCompletions (parseDocument scenarioDocument newParser)
    (u "SQ3R(version: " ++ [dquote])
  = map (existingVersionItem (u "SQ3R")) [u "classic"; u "academic"]
    ++ map commonVersionItem
         [u "basic"; u "advanced"; u "practical"; u "simplified";
          u "enhanced"] /\
  map label (completeAt scenarioDocument (mkPosition 2 15))
  = [u "academic"; u "classic"; u "advanced"; u "basic"; u "enhanced";
     u "practical"; u "simplified"].
Proof. vm_compute. split; reflexivity. Qed.

(** ** The matcher finds what the expression matches *)

Lemma star_loop_spec p k : forall rest prev pos caps,
  (forall res, star_loop p k prev rest pos caps = Some res ->
     exists st', star_steps p (MState prev rest pos caps) st' /\
       k st' = Some res) /\
  (forall st', star_steps p (MState prev rest pos caps) st' ->
     k st' <> None -> star_loop p k prev rest pos caps <> None).
Proof.
  induction rest as [|c t IH]; intros prev pos caps; split.
  - cbn. intros res H. eexists; split; [apply star_done | exact H].
  - cbn. intros st' Hs Hk. inversion Hs; subst; [exact Hk|].
    cbn in H. discriminate.
  - cbn. intros res H. destruct (p c) eqn:Hp.
    + destruct (star_loop p k (Some c) t (S pos) caps) eqn:E.
      * injection H as <-.
        destruct (proj1 (IH _ _ _) _ E) as [st' [Hs Hk]].
        exists st'. split; [|exact Hk].
        eapply star_more; [reflexivity | exact Hp | exact Hs].
      * eexists; split; [apply star_done | exact H].
    + eexists; split; [apply star_done | exact H].
  - cbn. intros st' Hs Hk. inversion Hs; subst.
    + destruct (p c); [destruct (star_loop p k (Some c) t (S pos) caps)|];
        congruence.
    + cbn in H. injection H as <- <-. rewrite H0.
      pose proof (proj2 (IH (Some c) (S pos) caps) st' H1 Hk) as Hn.
      destruct (star_loop p k (Some c) t (S pos) caps); congruence.
Qed.

(** The matcher is sound and complete for [matches]: it succeeds exactly
    when some reading of the expression lets the rest of the pattern
    succeed, and then it has taken one of these readings. *)
Lemma rmatch_spec r : forall st k,
  (forall res, rmatch r st k = Some res ->
     exists st', matches r st st' /\ k st' = Some res) /\
  (forall st', matches r st st' -> k st' <> None -> rmatch r st k <> None).
Proof.
  induction r as [|p|s|a IHa b IHb|a IHa b IHb|p|a IHa|n a IHa|ml| | |a IHa];
    intros st k; cbn [rmatch matches].
  - split; [intros res H; eauto | intros st' -> Hk; exact Hk].
  - destruct (m_rest st) as [|c t] eqn:E.
    + split; [discriminate | intros st' (c & t & Hc & _) _; discriminate].
    + destruct (p c) eqn:Hp; split.
      * intros res H. eexists; split; [|exact H]. eauto.
      * intros st' (c' & t' & Hc & _ & ->) Hk. injection Hc as <- <-. exact Hk.
      * discriminate.
      * intros st' (c' & t' & Hc & Hp' & _) _. congruence.
  - destruct (strip_lit s st) as [st1|] eqn:E; split.
    + intros res H. eauto.
    + intros st' H Hk. injection H as <-. exact Hk.
    + discriminate.
    + intros st' H _. discriminate.
  - split.
    + intros res H. apply (IHa st) in H as (st1 & Ha & H).
      apply (IHb st1) in H as (st' & Hb & H). eauto.
    + intros st' (st1 & Ha & Hb) Hk.
      eapply (proj2 (IHa st _)); [exact Ha|].
      eapply (proj2 (IHb st1 _)); eauto.
  - split.
    + intros res H. destruct (rmatch a st k) eqn:E.
      * injection H as <-. apply (IHa st) in E as (st' & Ha & H). eauto.
      * apply (IHb st) in H as (st' & Hb & H). eauto.
    + intros st' [Ha|Hb] Hk.
      * pose proof (proj2 (IHa st k) st' Ha Hk).
        destruct (rmatch a st k); congruence.
      * pose proof (proj2 (IHb st k) st' Hb Hk).
        destruct (rmatch a st k); congruence.
  - destruct st as [prev rest pos caps]. cbn. apply star_loop_spec.
  - split.
    + intros res H. destruct (rmatch a st k) eqn:E.
      * injection H as <-. apply (IHa st) in E as (st' & Ha & H). eauto.
      * eauto.
    + intros st' [Ha| ->] Hk.
      * pose proof (proj2 (IHa st k) st' Ha Hk).
        destruct (rmatch a st k); congruence.
      * destruct (rmatch a st k); congruence.
  - split.
    + intros res H. apply (IHa st) in H as (st1 & Ha & H). eauto.
    + intros st' (st1 & Ha & ->) Hk.
      eapply (proj2 (IHa st _)); [exact Ha|]. exact Hk.
  - destruct (at_line_start ml st); split;
      [eauto | intros st' [_ ->] Hk; exact Hk | discriminate
      | intros st' [H _]; discriminate].
  - destruct (m_rest st); split;
      [eauto | intros st' [_ ->] Hk; exact Hk | discriminate
      | intros st' [H _]; discriminate].
  - destruct (at_word_boundary st); split;
      [eauto | intros st' [_ ->] Hk; exact Hk | discriminate
      | intros st' [H _]; discriminate].
  - split.
    + intros res H. destruct (rmatch a st Some) eqn:E; [discriminate|].
      exists st. split; [|exact H]. split; [|reflexivity].
      intros st1 Ha.
      apply (proj2 (IHa st Some) st1 Ha); [discriminate | exact E].
    + intros st' [Hn ->] Hk. destruct (rmatch a st Some) eqn:E; [|exact Hk].
      apply (IHa st) in E as (st1 & Ha & _). destruct (Hn st1 Ha).
Qed.

Lemma rmatch_sound_matches r st st' :
  rmatch r st Some = Some st' -> matches r st st'.
Proof.
  intros H. apply rmatch_spec in H as (st1 & Hm & E). now injection E as <-.
Qed.

Lemma rmatch_complete r st st' :
  matches r st st' -> rmatch r st Some <> None.
Proof. intros H. eapply rmatch_spec; [exact H | discriminate]. Qed.

(** *** Positions as offsets of the subject *)

Lemma prev_at_S (text : jsstring) i : prev_at text (S i) = text !! i.
Proof. reflexivity. Qed.

Lemma drop_cons_lookup (text : jsstring) i c t :
  drop i text = c :: t <-> text !! i = Some c /\ t = drop (S i) text.
Proof.
  split.
  - intros H. assert (Hc : text !! i = Some c).
    { rewrite <- (Nat.add_0_r i), <- lookup_drop, H. reflexivity. }
    split; [exact Hc|]. rewrite (drop_S _ _ _ Hc) in H. congruence.
  - intros [Hc ->]. apply drop_S, Hc.
Qed.

Lemma advance_at text i caps c t :
  drop i text = c :: t -> advance (at_ text i caps) c t = at_ text (S i) caps.
Proof.
  intros H. apply drop_cons_lookup in H as [Hc ->].
  unfold advance, at_. cbn. now rewrite Hc.
Qed.

Lemma all_in_nil p text i j : j <= i -> all_in p text i j.
Proof. intros H k Hk. lia. Qed.

Lemma all_in_cons p text i j x :
  text !! i = Some x -> p x = true -> all_in p text (S i) j ->
  all_in p text i j.
Proof.
  intros Hx Hp H k Hk. destruct (decide (k = i)) as [->|]; [eauto|].
  apply H. lia.
Qed.

Lemma all_in_le p text i j : i < j -> all_in p text i j -> j <= length text.
Proof.
  intros Hij H. destruct (H (j - 1)) as (x & Hx & _); [lia|].
  apply lookup_lt_Some in Hx. lia.
Qed.

Lemma all_in_weaken (p q : N -> bool) text i j :
  (forall x, p x = true -> q x = true) -> all_in p text i j ->
  all_in q text i j.
Proof. intros Hpq H k Hk. destruct (H k Hk) as (x & Hx & Hp). eauto. Qed.

Lemma all_in_split p text i m j :
  i <= m <= j -> all_in p text i j -> all_in p text i m /\ all_in p text m j.
Proof. intros Hm H. split; intros k Hk; apply H; lia. Qed.

Lemma all_in_join p text i m j :
  all_in p text i m -> all_in p text m j -> all_in p text i j.
Proof.
  intros H1 H2 k Hk. destruct (le_lt_dec m k); [apply H2 | apply H1]; lia.
Qed.

Lemma star_steps_at_1 p text st st' :
  star_steps p st st' -> forall i caps, st = at_ text i caps ->
  exists j, i <= j /\ all_in p text i j /\ st' = at_ text j caps.
Proof.
  induction 1 as [st|st c t st' Hr Hp Hs IH]; intros i caps ->.
  - exists i. split; [lia|]. split; [apply all_in_nil; lia | reflexivity].
  - cbn in Hr. destruct (IH (S i) caps) as (j & Hj & Hall & ->).
    { now apply advance_at. }
    exists j. split; [lia|]. split; [|reflexivity].
    apply drop_cons_lookup in Hr as [Hc _]. eapply all_in_cons; eauto.
Qed.

Lemma star_steps_at_2 p text caps : forall n i j,
  j = i + n -> all_in p text i j ->
  star_steps p (at_ text i caps) (at_ text j caps).
Proof.
  induction n as [|n IH]; intros i j -> H.
  - rewrite Nat.add_0_r. apply star_done.
  - destruct (H i) as (x & Hx & Hp); [lia|].
    assert (Hd : drop i text = x :: drop (S i) text) by now apply drop_S.
    eapply star_more; [exact Hd | exact Hp |].
    rewrite (advance_at _ _ _ _ _ Hd). apply IH; [lia|].
    intros k Hk. apply H. lia.
Qed.

Lemma star_steps_at p text i caps st' :
  star_steps p (at_ text i caps) st' <->
  exists j, i <= j /\ all_in p text i j /\ st' = at_ text j caps.
Proof.
  split.
  - intros H. eapply star_steps_at_1; eauto.
  - intros (j & Hj & Hall & ->). apply (star_steps_at_2 p text caps (j - i));
      [lia | exact Hall].
Qed.

Lemma strip_lit_at s : forall text i caps st',
  strip_lit s (at_ text i caps) = Some st' <->
  take (length s) (drop i text) = s /\ st' = at_ text (i + length s) caps.
Proof.
  induction s as [|c s IH]; intros text i caps st'; cbn [strip_lit length].
  - rewrite Nat.add_0_r. cbn. split; [intros [= <-]; tauto | intros [_ ->]; auto].
  - cbn [m_rest at_]. destruct (drop i text) as [|d t] eqn:Hd.
    + split; [discriminate | intros [H _]; discriminate].
    + cbn [take]. destruct (N.eqb_spec c d) as [<-|Hne].
      * rewrite (advance_at _ _ _ _ _ Hd), IH.
        apply drop_cons_lookup in Hd as [_ ->].
        replace (i + S (length s)) with (S i + length s) by lia.
        split; intros [H ->]; (split; [congruence | reflexivity]).
      * split; [discriminate | intros [H _]; congruence].
Qed.

Lemma chr_at p text i caps st' :
  matches (Chr p) (at_ text i caps) st' <->
  exists x, text !! i = Some x /\ p x = true /\ st' = at_ text (S i) caps.
Proof.
  cbn [matches m_rest at_]. split.
  - intros (c & t & Hd & Hp & ->). exists c.
    rewrite (advance_at _ _ _ _ _ Hd).
    apply drop_cons_lookup in Hd as [Hc _]. auto.
  - intros (x & Hx & Hp & ->).
    assert (Hd : drop i text = x :: drop (S i) text) by now apply drop_S.
    exists x, (drop (S i) text). rewrite (advance_at _ _ _ _ _ Hd). auto.
Qed.

Lemma eol_at text i caps st' :
  matches Eol (at_ text i caps) st' <->
  length text <= i /\ st' = at_ text i caps.
Proof.
  cbn [matches m_rest at_]. split.
  - intros [Hd ->]. split; [|reflexivity].
    apply (f_equal length) in Hd. rewrite length_drop in Hd. cbn in Hd. lia.
  - intros [Hi ->]. split; [|reflexivity]. apply drop_ge, Hi.
Qed.

Lemma wordb_at text i caps st' :
  matches WordB (at_ text i caps) st' <->
  xorb (opt_is_word (prev_at text i)) (opt_is_word (text !! i)) = true /\
  st' = at_ text i caps.
Proof.
  cbn [matches]. unfold at_word_boundary. cbn [m_prev m_rest at_].
  replace (head (drop i text)) with (text !! i); [reflexivity|].
  destruct (drop i text) as [|c d] eqn:Hd.
  - apply lookup_ge_None_2. apply (f_equal length) in Hd.
    rewrite length_drop in Hd. cbn in Hd. lia.
  - now apply drop_cons_lookup in Hd as [-> _].
Qed.

(** Matching moves forward in the subject and stays within it. *)
Lemma matches_at r text : forall i caps st',
  matches r (at_ text i caps) st' ->
  exists j caps', i <= j /\ (i <= length text -> j <= length text) /\
    st' = at_ text j caps'.
Proof.
  induction r as [|p|s|a IHa b IHb|a IHa b IHb|p|a IHa|n a IHa|ml| | |a IHa];
    intros i caps st' H.
  - cbn in H. subst. exists i, caps. auto.
  - apply chr_at in H as (x & Hx & _ & ->). exists (S i), caps.
    apply lookup_lt_Some in Hx. split; [lia|]. split; [lia | reflexivity].
  - cbn [matches] in H. apply strip_lit_at in H as [Ht ->].
    exists (i + length s), caps. split; [lia|]. split; [|reflexivity].
    intros Hi. apply (f_equal length) in Ht.
    rewrite length_take, length_drop in Ht. lia.
  - destruct H as (st1 & Ha & Hb).
    apply IHa in Ha as (j1 & c1 & Hj1 & Hl1 & ->).
    apply IHb in Hb as (j2 & c2 & Hj2 & Hl2 & ->).
    exists j2, c2. split; [lia|]. split; [auto | reflexivity].
  - destruct H as [H|H]; [apply IHa in H | apply IHb in H]; exact H.
  - apply star_steps_at in H as (j & Hj & Hall & ->). exists j, caps.
    split; [lia|]. split; [|reflexivity]. intros Hi.
    destruct (decide (j = i)) as [->|]; [lia|].
    apply (all_in_le p text i j); [lia | exact Hall].
  - destruct H as [H| ->]; [now apply IHa in H|]. exists i, caps. auto.
  - destruct H as (st1 & Ha & ->).
    apply IHa in Ha as (j1 & c1 & Hj1 & Hl1 & ->).
    eexists j1, _. split; [lia|]. split; [auto | reflexivity].
  - destruct H as [_ ->]. exists i, caps. auto.
  - destruct H as [_ ->]. exists i, caps. auto.
  - destruct H as [_ ->]. exists i, caps. auto.
  - destruct H as [_ ->]. exists i, caps. auto.
Qed.

Lemma bol_at text i caps st' :
  i <= length text ->
  matches (Bol false) (at_ text i caps) st' <-> i = 0 /\ st' = at_ text i caps.
Proof.
  intros Hi. cbn [matches]. unfold at_line_start. cbn [m_prev at_].
  destruct i as [|i].
  - cbn. tauto.
  - rewrite prev_at_S. destruct (lookup_lt_is_Some_2 text i) as [x ->]; [lia|].
    cbn. split; [intros [H _]; discriminate | intros [H _]; discriminate].
Qed.

(** *** The search for the leftmost match *)

Lemma exec_from_spec r text : forall n i, i + n = length text ->
  (forall m, exec_from r (prev_at text i) (drop i text) i = Some m ->
     exists j st', i <= j <= length text /\ matches r (at_ text j []) st' /\
       rmatch r (at_ text j []) Some = Some st' /\
       m = Match j (take (m_pos st' - j) (drop j text)) (m_pos st')
             (m_caps st') /\
       forall j' st'', i <= j' < j -> ~ matches r (at_ text j' []) st'') /\
  (forall j st', i <= j <= length text -> matches r (at_ text j []) st' ->
     exec_from r (prev_at text i) (drop i text) i <> None).
Proof.
  induction n as [|n IH]; intros i Hi.
  - assert (Hd : drop i text = []) by (apply drop_ge; lia).
    rewrite Hd. cbn [exec_from]. fold (at_ text i []).
    replace (MState (prev_at text i) [] i []) with (at_ text i [])
      by (unfold at_; now rewrite Hd).
    split.
    + intros m H. destruct (rmatch r (at_ text i []) Some) as [st'|] eqn:E;
        [|discriminate].
      injection H as <-. exists i, st'. split; [lia|].
      split; [now apply rmatch_sound_matches|]. split; [exact E|].
      split; [now rewrite Hd | intros; lia].
    + intros j st' Hj Hm. assert (j = i) as -> by lia.
      apply rmatch_complete in Hm.
      destruct (rmatch r (at_ text i []) Some); congruence.
  - destruct (lookup_lt_is_Some_2 text i) as [c Hc]; [lia|].
    assert (Hd : drop i text = c :: drop (S i) text) by now apply drop_S.
    rewrite Hd. cbn [exec_from]. rewrite <- Hd. fold (at_ text i []).
    specialize (IH (S i) ltac:(lia)). rewrite prev_at_S, Hc in IH.
    split.
    + intros m H. destruct (rmatch r (at_ text i []) Some) as [st'|] eqn:E.
      * injection H as <-. exists i, st'. split; [lia|].
        split; [now apply rmatch_sound_matches|]. split; [exact E|].
        split; [reflexivity | intros; lia].
      * apply (proj1 IH) in H as (j & st' & Hj & Hm & Hr & -> & Hleft).
        exists j, st'. split; [lia|]. do 3 (split; [assumption || reflexivity|]).
        intros j' st'' Hj' Hm'. destruct (decide (j' = i)) as [->|].
        -- apply rmatch_complete in Hm'. congruence.
        -- apply (Hleft j' st''); [lia | exact Hm'].
    + intros j st' Hj Hm.
      destruct (rmatch r (at_ text i []) Some) as [st1|] eqn:E; [discriminate|].
      destruct (decide (j = i)) as [->|].
      * apply rmatch_complete in Hm. congruence.
      * apply (proj2 IH j st'); [lia | exact Hm].
Qed.

Lemma exec_0 r (text : jsstring) :
  exec r text 0 = exec_from r (prev_at text 0) (drop 0 text) 0.
Proof. reflexivity. Qed.

(** [r.test(text)] is true exactly when the expression matches somewhere. *)
Lemma test_spec r text :
  test r text = true <->
  exists j st', j <= length text /\ matches r (at_ text j []) st'.
Proof.
  unfold test. rewrite exec_0.
  destruct (exec_from_spec r text (length text) 0 eq_refl) as [Hs Hc].
  destruct (exec_from r (prev_at text 0) (drop 0 text) 0) as [m|] eqn:E.
  - split; [intros _ | reflexivity].
    destruct (Hs m eq_refl) as (j & st' & Hj & Hm & _). exists j, st'.
    split; [lia | exact Hm].
  - split; [discriminate|]. intros (j & st' & Hj & Hm).
    destruct (Hc j st'); [lia | exact Hm | reflexivity].
Qed.

(** [text.match(r)] returns the leftmost match, read as the matcher reads
    it. *)
Lemma match_first_spec r text m :
  match_first r text = Some m ->
  exists st', index m <= length text /\
    matches r (at_ text (index m) []) st' /\
    rmatch r (at_ text (index m) []) Some = Some st' /\
    end_index m = m_pos st' /\ groups m = m_caps st' /\
    matched m = take (m_pos st' - index m) (drop (index m) text) /\
    forall j st'', j < index m -> ~ matches r (at_ text j []) st''.
Proof.
  unfold match_first. rewrite exec_0. intros H.
  apply (proj1 (exec_from_spec r text (length text) 0 eq_refl)) in H
    as (j & st' & Hj & Hm & Hr & -> & Hleft).
  exists st'. cbn. split; [lia|]. do 5 (split; [assumption || reflexivity|]).
  intros j' st'' Hj'. apply Hleft. lia.
Qed.

Lemma match_first_none r text :
  match_first r text = None <->
  forall j st', j <= length text -> ~ matches r (at_ text j []) st'.
Proof.
  unfold match_first. rewrite exec_0.
  destruct (exec_from_spec r text (length text) 0 eq_refl) as [Hs Hc].
  destruct (exec_from r (prev_at text 0) (drop 0 text) 0) as [m|] eqn:E.
  - split; [discriminate|]. intros H.
    destruct (Hs m eq_refl) as (j & st' & Hj & Hm & _).
    destruct (H j st'); [lia | exact Hm].
  - split; [|reflexivity]. intros _ j st' Hj Hm.
    destruct (Hc j st'); [lia | exact Hm | reflexivity].
Qed.

(** ** The order of the contexts in [provideCompletionItems] *)

Lemma alpha_cls_under x : alpha_cls x = true -> alpha__cls x = true.
Proof. unfold alpha__cls, JS.or_cls. intros ->. reflexivity. Qed.

Lemma keyword_context_is_call_context t :
  isKeywordContext t = true -> isFunctionCallContext t = true.
Proof.
  unfold isKeywordContext, isFunctionCallContext.
  rewrite !orb_true_iff, !test_spec.
  intros [(j & st' & Hj & H)|(j & st' & Hj & H)].
  - left. cbn [seq_all] in H.
    destruct H as (st1 & Hb & st2 & Hs1 & st3 & Hs2 & He).
    apply bol_at in Hb as [-> ->]; [|exact Hj].
    apply star_steps_at in Hs1 as (j1 & Hj1 & Ha1 & ->).
    apply star_steps_at in Hs2 as (j2 & Hj2 & Ha2 & ->).
    apply eol_at in He as [He ->].
    exists 0, (at_ t j2 []). split; [lia|]. cbn [seq_all].
    exists (at_ t 0 []). split; [apply bol_at; [lia | auto]|].
    exists (at_ t j1 []). split; [apply star_steps_at; eauto|].
    exists (at_ t j2 []). split; [|apply eol_at; auto].
    apply star_steps_at. exists j2. split; [lia|]. split; [|reflexivity].
    eapply all_in_weaken; [apply alpha_cls_under | exact Ha2].
  - right. cbn [seq_all] in H.
    destruct H as (st1 & Hw & st2 & Hg & st3 & Hp & st4 & Hs & He).
    destruct Hw as [_ ->].
    apply matches_at in Hg as (j0 & c0 & Hj0 & _ & ->).
    destruct Hp as (st5 & Hc & Hs1).
    apply chr_at in Hc as (x & Hx & Hsp & ->).
    apply star_steps_at in Hs1 as (j1 & Hj1 & Ha1 & ->).
    apply star_steps_at in Hs as (j2 & Hj2 & Ha2 & ->).
    apply eol_at in He as [He ->].
    exists j0, (at_ t j2 []).
    split; [apply lookup_lt_Some in Hx; lia|]. cbn [seq_all].
    exists (at_ t (S j0) []). split.
    { apply chr_at. exists x. split; [exact Hx|]. split; [|reflexivity].
      unfold JS.or_cls. now rewrite Hsp. }
    exists (at_ t j1 []). split; [apply star_steps_at; eauto|].
    exists (at_ t j2 []). split; [|apply eol_at; auto].
    apply star_steps_at. exists j2. split; [lia|]. split; [|reflexivity].
    eapply all_in_weaken; [apply alpha_cls_under | exact Ha2].
Qed.

(** X1: the keyword context is a special case of the call context, which
    [provideCompletionItems] tests first: the keyword generator is never
    asked, and the items returned do not depend on it. *)
Theorem keyword_generator_never_asked
    (toLowerCase : jsstring -> jsstring)
    (localeCompare : jsstring -> jsstring -> Z)
    (provideLabelCompletions provideFunctionCompletions
     provideKeywordCompletions provideKeywordCompletions'
     provideTypeCompletions provideParameterCompletions
     provideVariableCompletions provideIntelligentSuggestions
     : Provider -> TextDocument -> Position -> jsstring ->
       CompletionContext -> list CompletionItem)
    (st : Provider) (clock : nat -> Z) (document : TextDocument)
    (position_ : Position) :
  (forall textBeforeCursor,
     isKeywordContext textBeforeCursor = true ->
     isFunctionCallContext textBeforeCursor = true) /\
  provideCompletionItems toLowerCase localeCompare provideLabelCompletions
    provideFunctionCompletions provideKeywordCompletions
    provideTypeCompletions provideParameterCompletions
    provideVariableCompletions provideIntelligentSuggestions st clock
    document position_
  = provideCompletionItems toLowerCase localeCompare provideLabelCompletions
      provideFunctionCompletions provideKeywordCompletions'
      provideTypeCompletions provideParameterCompletions
      provideVariableCompletions provideIntelligentSuggestions st clock
      document position_.
Proof.
  split; [exact keyword_context_is_call_context|].
  unfold provideCompletionItems. cbv zeta.
  destruct (isLabelContext _); [reflexivity|].
  destruct (isFunctionCallContext _) eqn:E; [reflexivity|].
  destruct (isKeywordContext _) eqn:K; [|reflexivity].
  apply keyword_context_is_call_context in K. congruence.
Qed.

(** ** The label index *)

Lemma bucket_push {V} k n (x : V) (m : JSMap (list V)) :
  bucket n (map_push k x m) =
  bucket n m ++ (if JS.str_eqb k n then [x] else []).
Proof.
  unfold bucket. rewrite map_get_push.
  destruct (JS.str_eqb k n); [reflexivity|]. now rewrite app_nil_r.
Qed.

Lemma bucket_fold_push (s : LDLSymbol) lab ls : forall idx,
  bucket lab (fold_left (fun idx label => map_push label s idx) ls idx) =
  bucket lab idx
  ++ repeat s (length (List.filter (fun l => JS.str_eqb l lab) ls)).
Proof.
  induction ls as [|x ls IH]; intros idx; cbn [fold_left List.filter].
  - cbn. now rewrite app_nil_r.
  - rewrite IH, bucket_push, <- app_assoc.
    destruct (JS.str_eqb x lab); reflexivity.
Qed.

Lemma findSymbolsByLabel_insertAll lab l :
  findSymbolsByLabel (insertAll l newParser) lab = labelled lab l.
Proof.
  change (findSymbolsByLabel (insertAll l newParser) lab)
    with (bucket lab (labelIndex (insertAll l newParser))).
  induction l as [|s l IH] using rev_ind; [reflexivity|].
  rewrite insertAll_snoc, labelIndex_insertSymbol, bucket_fold_push, IH.
  unfold labelled. rewrite flat_map_app. cbn [flat_map].
  rewrite app_nil_r. unfold labelCount. destruct (labels s); reflexivity.
Qed.

Lemma in_labelled lab l s :
  In s (labelled lab l) <->
  In s l /\ exists ls, labels s = Some ls /\ In lab ls.
Proof.
  unfold labelled. rewrite in_flat_map. split.
  - intros (x & Hx & Hr). apply repeat_spec in Hr as E. subst x.
    split; [exact Hx|]. unfold labelCount in Hr.
    destruct (labels s) as [ls|]; [|destruct Hr]. exists ls.
    split; [reflexivity|].
    destruct (List.filter (fun l0 => JS.str_eqb l0 lab) ls) as [|y f] eqn:E;
      [destruct Hr|].
    assert (Hy : In y (y :: f)) by (left; reflexivity).
    rewrite <- E in Hy. apply filter_In in Hy as [Hy Hq].
    apply str_eqb_true in Hq. now subst y.
  - intros (Hs & ls & Hl & Hlab). exists s. split; [exact Hs|].
    unfold labelCount. rewrite Hl.
    assert (Hf : In lab (List.filter (fun l0 => JS.str_eqb l0 lab) ls)).
    { apply filter_In. split; [exact Hlab | apply str_eqb_refl]. }
    destruct (List.filter (fun l0 => JS.str_eqb l0 lab) ls);
      [destruct Hf | left; reflexivity].
Qed.

(** The declarations that are indexed by label are those that can carry
    labels. *)
Lemma parseTrace_labels document s :
  In s (parseTrace document) ->
  (labels s <> None /\
   (type s = class \/ type s = method \/ type s = function
    \/ type s = pipeline)) \/
  (labels s = None /\
   (type s = type_alias \/ type s = macro \/ type s = constant)).
Proof.
  unfold parseTrace, classTrace, functionTrace, methodTrace.
  rewrite !in_app_iff, in_flat_map, !in_map_iff.
  intros H.
  repeat (destruct H as [H|H]).
  - destruct H as (m & _ & [<-|H]).
    + left. unfold classSymbol. symbol_fields. split; [discriminate | auto].
    + apply in_map_iff in H as (mm & <- & _). left.
      unfold methodSymbol. symbol_fields. split; [discriminate | auto].
  - destruct H as (m & <- & _). left.
    unfold functionSymbol. symbol_fields. split; [discriminate | auto].
  - destruct H as (m & <- & _). left.
    unfold pipelineSymbol. symbol_fields. split; [discriminate | auto].
  - destruct H as (m & <- & _). right. cbn. auto.
  - destruct H as (m & <- & _). right. cbn. auto.
  - destruct H as (m & <- & _). right. cbn. auto.
Qed.

(** X2: after a parse, [findSymbolsByLabel] returns the
    declarations that carry the label, in the order in which the parse met
    them, each once for every time the label is written above it; they are
    symbols of the table, and classes, methods, functions or pipelines only:
    type aliases, macros and constants are never indexed. *)
Theorem findSymbolsByLabel_spec (document : TextDocument) (p0 : LDLParser)
    (lab : jsstring) :
  findSymbolsByLabel (parseDocument document p0) lab
    = labelled lab (parseTrace document) /\
  (forall s, In s (findSymbolsByLabel (parseDocument document p0) lab) <->
     In s (getAllSymbols (parseDocument document p0)) /\
     exists ls, labels s = Some ls /\ In lab ls) /\
  (forall s, In s (findSymbolsByLabel (parseDocument document p0) lab) ->
     type s = class \/ type s = method \/ type s = function
     \/ type s = pipeline).
Proof.
  rewrite parseDocument_trace, findSymbolsByLabel_insertAll.
  split; [reflexivity|]. split.
  - intros s. rewrite in_labelled, in_getAllSymbols_insertAll. reflexivity.
  - intros s Hs. apply in_labelled in Hs as (Hs & ls & Hl & _).
    apply parseTrace_labels in Hs as [[_ H]|[H _]]; [exact H | congruence].
Qed.

(** ** The owner and the version in a lookup *)

Lemma find_none {A} (f : A -> bool) l :
  (forall x, In x l -> f x = false) -> find f l = None.
Proof.
  induction l as [|x l IH]; intros H; [reflexivity|]. cbn.
  rewrite (H x (or_introl eq_refl)). apply IH. intros y Hy. apply H. now right.
Qed.

Lemma filter_none {A} (f : A -> bool) l :
  (forall x, In x l -> f x = false) -> List.filter f l = [].
Proof.
  induction l as [|x l IH]; intros H; [reflexivity|]. cbn.
  rewrite (H x (or_introl eq_refl)). apply IH. intros y Hy. apply H. now right.
Qed.

Lemma find_head_filter {A} (f : A -> bool) l :
  find f l = head (List.filter f l).
Proof.
  induction l as [|x l IH]; [reflexivity|]. cbn. now destruct (f x).
Qed.

(** X3: the owner of a lookup is a preference, and it hides the
    version.  When some symbol of the name belongs to the owner,
    [findSymbol] returns the first of them whatever version is asked for;
    when none does, [findSymbol] and [findAllSymbols] answer as if no owner
    had been given. *)
Theorem find_owner_rules (p : LDLParser) (name_ owner : jsstring)
    (ver : option jsstring) :
  owner <> [] ->
  (forall m,
     find (fun s => bool_decide (className s = Some owner))
       (findAllSymbols p name_ None None) = Some m ->
     findSymbol p name_ ver (Some owner) = Some m) /\
  ((forall s, In s (findAllSymbols p name_ None None) ->
      className s <> Some owner) ->
   findSymbol p name_ ver (Some owner) = findSymbol p name_ ver None /\
   findAllSymbols p name_ ver (Some owner)
     = findAllSymbols p name_ ver None).
Proof.
  intros Ho. assert (Ht : truthy (Some owner) = true)
    by (destruct owner; [contradiction | reflexivity]).
  unfold findSymbol, findAllSymbols. rewrite Ht.
  change (truthy None) with false. cbn [andb].
  destruct (map_get name_ (symbols p)) as [b|]; [|split; [discriminate|auto]].
  split.
  - intros m ->. reflexivity.
  - intros H.
    assert (Hf : forall x, In x b ->
              bool_decide (className x = Some owner) = false).
    { intros x Hx. apply bool_decide_eq_false, H, Hx. }
    rewrite (find_none _ _ Hf), (filter_none _ _ Hf). split; reflexivity.
Qed.

Lemma find_owner_rules_witness :
  (otherOwner <> [] /\
   forall s,
     In s (findAllSymbols (parseDocument ownerDocument newParser) (u "foo")
             None None) ->
     className s <> Some otherOwner) /\
  findSymbol (parseDocument ownerDocument newParser) (u "foo") None
    (Some otherOwner) = Some methodFoo /\
  findAllSymbols (parseDocument ownerDocument newParser) (u "foo") None
    (Some otherOwner) = [methodFoo; freeFoo].
Proof.
  assert (E : findAllSymbols (parseDocument ownerDocument newParser)
                (u "foo") None None = [methodFoo; freeFoo])
    by (vm_compute; reflexivity).
  assert (Ho : otherOwner <> []) by discriminate.
  assert (H : forall s,
     In s (findAllSymbols (parseDocument ownerDocument newParser) (u "foo")
             None None) ->
     className s <> Some otherOwner).
  { rewrite E. intros s [<-|[<-|[]]]; discriminate. }
  split; [split; [exact Ho | exact H]|].
  destruct (proj2 (find_owner_rules (parseDocument ownerDocument newParser)
                     (u "foo") otherOwner None Ho) H) as [-> ->].
  split; vm_compute; reflexivity.
Defined.

(** X4: without an owner [findSymbol] returns the first element
    of what [findAllSymbols] returns for the same name and version, and
    nothing exactly when [findAllSymbols] returns nothing; for a name that
    the table does not hold the answers are [undefined] and the empty array,
    whatever version and owner are given. *)
Theorem findSymbol_first_of_all (p : LDLParser) (name_ : jsstring)
    (ver owner : option jsstring) :
  findSymbol p name_ ver None = head (findAllSymbols p name_ ver None) /\
  (findSymbol p name_ ver None = None <->
   findAllSymbols p name_ ver None = []) /\
  (map_get name_ (symbols p) = None ->
   findSymbol p name_ ver owner = None /\
   findAllSymbols p name_ ver owner = []).
Proof.
  assert (H : findSymbol p name_ ver None
              = head (findAllSymbols p name_ ver None)).
  { unfold findSymbol, findAllSymbols. change (truthy None) with false.
    cbn [andb]. destruct (map_get name_ (symbols p)) as [b|]; [|reflexivity].
    destruct (truthy ver); [apply find_head_filter | reflexivity]. }
  split; [exact H|]. split.
  - rewrite H. destruct (findAllSymbols p name_ ver None); cbn;
      split; congruence.
  - intros E. unfold findSymbol, findAllSymbols. rewrite E. auto.
Qed.

Lemma findSymbol_first_of_all_witness :
  map_get (u "bar") (symbols (parseDocument ownerDocument newParser)) = None /\
  findSymbol (parseDocument ownerDocument newParser) (u "bar") None
    (Some (u "T")) = None /\
  findAllSymbols (parseDocument ownerDocument newParser) (u "bar") None
    (Some (u "T")) = [].
Proof.
  assert (E : map_get (u "bar")
                (symbols (parseDocument ownerDocument newParser)) = None)
    by (vm_compute; reflexivity).
  split; [exact E|].
  exact (proj2 (proj2 (findSymbol_first_of_all
                         (parseDocument ownerDocument newParser) (u "bar")
                         None (Some (u "T")))) E).
Defined.

(** ** The order of the table *)

Lemma perm_values_push {V} k (x : V) (m : JSMap (list V)) :
  Permutation (concat (map_values (map_push k x m)))
    (concat (map_values m) ++ [x]).
Proof.
  induction m as [|[k' b] m IH].
  - rewrite map_push_nil. reflexivity.
  - rewrite map_push_cons. destruct (JS.str_eqb k' k); cbn.
    + rewrite <- !app_assoc. apply Permutation_app_head.
      apply Permutation_app_comm.
    + unfold map_values in IH. rewrite IH. now rewrite app_assoc.
Qed.

Lemma getAllSymbols_insertAll_perm l :
  Permutation (getAllSymbols (insertAll l newParser)) l.
Proof.
  unfold getAllSymbols. induction l as [|s l IH] using rev_ind; [reflexivity|].
  rewrite insertAll_snoc, symbols_insertSymbol, perm_values_push.
  now apply Permutation_app_tail.
Qed.

Lemma set_has_map_has {V} k (m : JSMap V) :
  Completion.set_has k (map_keys m) = map_has k m.
Proof.
  destruct (map_has k m) eqn:E.
  - apply set_has_true, map_has_in_keys, E.
  - apply set_has_false. rewrite <- map_has_in_keys. congruence.
Qed.

Lemma symbolKeys_insertAll l :
  map_keys (symbols (insertAll l newParser)) = namesInOrder l.
Proof.
  unfold namesInOrder. induction l as [|s l IH] using rev_ind; [reflexivity|].
  rewrite insertAll_snoc, symbols_insertSymbol, map_keys_push, fold_left_app.
  cbn [fold_left]. rewrite <- IH. unfold Completion.set_add.
  now rewrite set_has_map_has.
Qed.

Lemma namesInOrder_NoDup l : List.NoDup (namesInOrder l).
Proof.
  unfold namesInOrder. induction l as [|s l IH] using rev_ind; [constructor|].
  rewrite fold_left_app. cbn [fold_left]. apply set_add_NoDup, IH.
Qed.

Lemma in_namesInOrder l n :
  In n (namesInOrder l) <-> exists s, In s l /\ name s = n.
Proof.
  unfold namesInOrder. induction l as [|s l IH] using rev_ind.
  - cbn. split; [intros [] | intros (s & [] & _)].
  - rewrite fold_left_app. cbn [fold_left]. rewrite in_set_add, IH. split.
    + intros [->|(x & Hx & Hn)].
      * exists s. rewrite in_app_iff. cbn. auto.
      * exists x. rewrite in_app_iff. auto.
    + intros (x & Hx & Hn). apply in_app_iff in Hx as [Hx|[<-|[]]]; eauto.
Qed.

Lemma flat_map_ext_in {A B} (f g : A -> list B) l :
  (forall a, In a l -> f a = g a) -> flat_map f l = flat_map g l.
Proof.
  induction l as [|x l IH]; intros H; [reflexivity|]. cbn.
  rewrite (H x (or_introl eq_refl)), IH; [reflexivity|].
  intros a Ha. apply H. now right.
Qed.

Lemma values_by_key {V} (m : JSMap (list V)) :
  List.NoDup (map_keys m) ->
  concat (map_values m) = flat_map (fun k => bucket k m) (map_keys m).
Proof.
  induction m as [|[k b] m IH]; intros Hnd; [reflexivity|].
  cbn in Hnd. apply List.NoDup_cons_iff in Hnd as [Hk Hnd].
  cbn [map_values map_keys map concat flat_map fst snd].
  f_equal.
  - unfold bucket. cbn. now rewrite str_eqb_refl.
  - unfold map_values, map_keys in IH. rewrite (IH Hnd).
    apply flat_map_ext_in. intros k' Hk'. unfold bucket. cbn.
    destruct (JS.str_eqb k k') eqn:E; [|reflexivity].
    apply str_eqb_true in E. subst k'. contradiction.
Qed.

Lemma getAllSymbols_insertAll_grouped l :
  getAllSymbols (insertAll l newParser) =
  flat_map (fun n => List.filter (named n) l) (namesInOrder l).
Proof.
  unfold getAllSymbols. rewrite values_by_key.
  - rewrite symbolKeys_insertAll. apply flat_map_ext_in. intros n _.
    unfold bucket. rewrite bucket_insertAll.
    now destruct (List.filter (named n) l).
  - rewrite symbolKeys_insertAll. apply namesInOrder_NoDup.
Qed.

(** X5: [getAllSymbols] returns every declaration found by the
    parse exactly once, grouped by name: the names in the order in which the
    parse first met them, and under a name its declarations in the order of
    the parse. *)
Theorem getAllSymbols_grouped (document : TextDocument) (p0 : LDLParser) :
  Permutation (getAllSymbols (parseDocument document p0))
    (parseTrace document) /\
  getAllSymbols (parseDocument document p0) =
    flat_map (fun n => List.filter (named n) (parseTrace document))
      (namesInOrder (parseTrace document)) /\
  map_keys (symbols (parseDocument document p0))
    = namesInOrder (parseTrace document) /\
  List.NoDup (namesInOrder (parseTrace document)) /\
  (forall n, In n (namesInOrder (parseTrace document)) <->
     exists s, In s (getAllSymbols (parseDocument document p0)) /\
       name s = n).
Proof.
  rewrite parseDocument_trace.
  split; [apply getAllSymbols_insertAll_perm|].
  split; [apply getAllSymbols_insertAll_grouped|].
  split; [apply symbolKeys_insertAll|].
  split; [apply namesInOrder_NoDup|].
  intros n. rewrite in_namesInOrder. split; intros (s & Hs & Hn); exists s;
    (split; [|exact Hn]); now apply in_getAllSymbols_insertAll.
Qed.

(** ** The labels above a declaration *)

Lemma scanBackward_labels ls : forall labels_ doc0,
  fst (scanBackward ls labels_ doc0) =
  rev (map labelText (List.filter isLabelLine (scannedLines ls))) ++ labels_.
Proof.
  induction ls as [|l ls IH]; intros labels_ doc0; [reflexivity|].
  cbn [scanBackward scannedLines].
  destruct (match_first labelRegex (JS.trim l)) as [m|] eqn:Em.
  - assert (Hs : stopsScan l = false)
      by (unfold stopsScan, isLabelLine; rewrite Em; reflexivity).
    assert (Hd : isLabelLine l = true)
      by (unfold isLabelLine; rewrite Em; reflexivity).
    rewrite Hs. cbn [List.filter]. rewrite Hd, IH. cbn [map rev].
    rewrite <- app_assoc. cbn. unfold labelText. now rewrite Em.
  - assert (Hd : isLabelLine l = false)
      by (unfold isLabelLine; rewrite Em; reflexivity).
    destruct (JS.startsWith (u "///") (JS.trim l)) eqn:Ed.
    + assert (Hs : stopsScan l = false)
        by (unfold stopsScan, isLabelLine; rewrite Em, Ed; reflexivity).
      rewrite Hs. cbn [List.filter]. rewrite Hd. apply IH.
    + assert (Hs : stopsScan l =
                   negb (JS.str_eqb (JS.trim l) [])
                   && negb (JS.startsWith (u "@") (JS.trim l))
                   && negb (JS.startsWith (u "//") (JS.trim l)))
        by (unfold stopsScan, isLabelLine; rewrite Em, Ed; reflexivity).
      rewrite <- Hs. destruct (stopsScan l); [reflexivity|].
      cbn [List.filter]. rewrite Hd. apply IH.
Qed.

Lemma scanBackward_stops l ls labels_ doc0 :
  stopsScan l = true -> scanBackward (l :: ls) labels_ doc0 = (labels_, doc0).
Proof.
  unfold stopsScan, isLabelLine. cbn [scanBackward]. intros H.
  destruct (match_first labelRegex (JS.trim l)); [discriminate|].
  destruct (JS.startsWith (u "///") (JS.trim l)); [discriminate|].
  cbn [negb andb] in H. now rewrite H.
Qed.

(** X6: the labels recorded for a declaration are those of the
    label lines that the backward scan visits, in the order of the source,
    top to bottom; and when the text between the start of the line and the
    declaration is neither blank nor the start of an annotation or comment,
    the scan stops at once: no label and no documentation is recorded. *)
Theorem labels_in_source_order (text : jsstring) (startIndex : nat) :
  fst (parseLabelsAndDocumentation text startIndex) =
    rev (map labelText
           (List.filter isLabelLine
              (scannedLines
                 (rev (JS.split_nl (JS.substring 0 startIndex text)))))) /\
  (forall above l,
     JS.split_nl (JS.substring 0 startIndex text) = above ++ [l] ->
     stopsScan l = true ->
     parseLabelsAndDocumentation text startIndex = ([], None)).
Proof.
  unfold parseLabelsAndDocumentation. split.
  - rewrite scanBackward_labels. apply app_nil_r.
  - intros above l -> Hl. rewrite rev_app_distr. cbn [rev app].
    now apply scanBackward_stops.
Qed.

Lemma labels_in_source_order_witness :
  (JS.split_nl (JS.substring 0 42 (getText labelsDocument))
     = [u "@label(" ++ quoted "reading" ++ u ")";
        u "@label(" ++ quoted "academic" ++ u ")"] ++ [u "fn SQ"]
   /\ stopsScan (u "fn SQ") = true) /\
  parseLabelsAndDocumentation (getText labelsDocument) 36
    = ([u "reading"; u "academic"], None) /\
  parseLabelsAndDocumentation (getText labelsDocument) 42 = ([], None).
Proof.
  assert (E : JS.split_nl (JS.substring 0 42 (getText labelsDocument))
     = [u "@label(" ++ quoted "reading" ++ u ")";
        u "@label(" ++ quoted "academic" ++ u ")"] ++ [u "fn SQ"])
    by (vm_compute; reflexivity).
  assert (Hs : stopsScan (u "fn SQ") = true) by (vm_compute; reflexivity).
  split; [split; [exact E | exact Hs]|].
  split; [vm_compute; reflexivity|].
  exact (proj2 (labels_in_source_order (getText labelsDocument) 42) _ _ E Hs).
Defined.

(** ** The syntax of a label line *)

Lemma all_in_forallb p (text : jsstring) i j :
  i <= j <= length text ->
  all_in p text i j <-> forallb p (take (j - i) (drop i text)) = true.
Proof.
  intros Hij. rewrite forallb_forall. split.
  - intros H x Hx. apply list_elem_of_In, list_elem_of_lookup_1 in Hx as [k Hk].
    apply lookup_take_Some in Hk as [Hk Hlt]. rewrite lookup_drop in Hk.
    destruct (H (i + k)) as (y & Hy & Hp); [lia|]. congruence.
  - intros H k Hk. destruct (lookup_lt_is_Some_2 text k) as [x Hx]; [lia|].
    exists x. split; [exact Hx|]. apply H.
    apply list_elem_of_In, (list_elem_of_lookup_2 _ (k - i)).
    apply lookup_take_Some. split; [|lia]. rewrite lookup_drop.
    now replace (i + (k - i)) with k by lia.
Qed.

Lemma one_of_quotes x : JS.one_of [dquote; squote] x = isQuote x.
Proof. unfold JS.one_of, isQuote. cbn. now rewrite orb_false_r. Qed.

Lemma none_of_quotes x : JS.none_of [dquote; squote] x = negb (isQuote x).
Proof. unfold JS.none_of. f_equal. apply one_of_quotes. Qed.

Lemma unquoted_prefix_unique (a b : jsstring) q r q' r' :
  forallb (fun c => negb (isQuote c)) a = true ->
  forallb (fun c => negb (isQuote c)) b = true ->
  isQuote q = true -> isQuote q' = true ->
  a ++ q :: r = b ++ q' :: r' -> a = b.
Proof.
  revert b. induction a as [|x a IH]; intros [|y b] Ha Hb Hq Hq' E; cbn in *.
  - reflexivity.
  - injection E as -> _. apply andb_prop in Hb as [Hb _].
    rewrite Hq in Hb. discriminate.
  - injection E as -> _. apply andb_prop in Ha as [Ha _].
    rewrite Hq' in Ha. discriminate.
  - injection E as -> E. apply andb_prop in Ha as [_ Ha].
    apply andb_prop in Hb as [_ Hb]. f_equal. eapply IH; eauto.
Qed.

Lemma label_line_forward line_ m :
  match_first labelRegex line_ = Some m ->
  exists q1 lab q2,
    line_ = u "@label(" ++ q1 :: lab ++ q2 :: u ")" /\
    isQuote q1 = true /\ isQuote q2 = true /\ lab <> [] /\
    forallb (fun c => negb (isQuote c)) lab = true /\
    group 1 (groups m) = Some lab.
Proof.
  intros H. apply match_first_spec in H
    as (st' & Hi & H & _ & _ & Hg & _ & _).
  rewrite Hg. clear Hg. unfold labelRegex in H. cbn [seq_all] in H.
  destruct H as (st1 & Hb & st2 & Hl & st3 & Hq1 & st4 & Hgr & st5 & Hq2
                 & st6 & Hr & He).
  apply bol_at in Hb as [E0 ->]; [|exact Hi]. rewrite E0 in *. clear E0 Hi.
  cbn [matches] in Hl. apply strip_lit_at in Hl as [Hl ->].
  apply chr_at in Hq1 as (q1 & Hq1 & Hc1 & ->).
  destruct Hgr as (st7 & Hp & ->). destruct Hp as (st8 & Hx & Hs).
  apply chr_at in Hx as (x & Hx & Hcx & ->).
  apply star_steps_at in Hs as (j & Hj & Hall & ->).
  cbn [m_prev m_rest m_pos m_caps at_] in Hq2.
  fold (at_ line_ j [(1, take (j - (0 + length (u "@label(") + 1))
                           (drop (S (0 + length (u "@label("))) line_))])
    in Hq2.
  apply chr_at in Hq2 as (q2 & Hq2 & Hc2 & ->).
  cbn [matches] in Hr. apply strip_lit_at in Hr as [Hr ->].
  apply eol_at in He as [He ->].
  cbn [m_caps at_ group Nat.eqb]. cbn [length u] in *.
  change (length (u "@label(")) with 7 in *.
  change (length (u ")")) with 1 in *.
  cbn [Nat.add] in *. rewrite drop_0 in Hl.
  rewrite one_of_quotes in Hc1, Hc2. rewrite none_of_quotes in Hcx.
  assert (Hjl : j < length line_) by (apply lookup_lt_Some in Hq2; lia).
  assert (Hlab : forallb (fun c => negb (isQuote c))
                   (take (j - 8) (drop 8 line_)) = true).
  { apply (all_in_forallb _ line_ 8 j); [lia|].
    apply (all_in_cons _ _ _ _ x Hx Hcx).
    eapply all_in_weaken; [|exact Hall].
    intros c. now rewrite none_of_quotes. }
  exists q1, (take (j - 8) (drop 8 line_)), q2.
  split; [|split; [exact Hc1|split; [exact Hc2|split; [|split;
    [exact Hlab | reflexivity]]]]].
  - rewrite <- (take_drop 7 line_) at 1. rewrite Hl. f_equal.
    rewrite (drop_S _ _ _ Hq1). f_equal.
    rewrite <- (take_drop (j - 8) (drop 8 line_)) at 1. f_equal.
    rewrite drop_drop. replace (8 + (j - 8)) with j by lia.
    rewrite (drop_S _ _ _ Hq2). f_equal.
    rewrite <- (take_drop 1 (drop (S j) line_)), Hr, drop_drop.
    rewrite (drop_ge line_ (S j + 1)) by lia. reflexivity.
  - intros E. apply (f_equal length) in E.
    rewrite length_take, length_drop in E. cbn in E. lia.
Qed.

(** X7: a line is a label line exactly when, trimmed, it is
    the annotation name and an opening parenthesis, a quote, a text that is
    not empty and holds no quote, a quote and a closing parenthesis; the two
    quotes need not be of the same kind, and the text is the label
    recorded. *)
Theorem label_line_syntax (line_ : jsstring) :
  (forall m, match_first labelRegex line_ = Some m ->
     exists q1 lab q2,
       line_ = u "@label(" ++ q1 :: lab ++ q2 :: u ")" /\
       isQuote q1 = true /\ isQuote q2 = true /\ lab <> [] /\
       forallb (fun c => negb (isQuote c)) lab = true /\
       group 1 (groups m) = Some lab) /\
  (forall q1 lab q2,
     line_ = u "@label(" ++ q1 :: lab ++ q2 :: u ")" ->
     isQuote q1 = true -> isQuote q2 = true -> lab <> [] ->
     forallb (fun c => negb (isQuote c)) lab = true ->
     exists m, match_first labelRegex line_ = Some m /\
       group 1 (groups m) = Some lab).
Proof.
  split; [apply label_line_forward|].
  intros q1 lab q2 E Hq1 Hq2 Hne Hlab.
  destruct (match_first labelRegex line_) as [m|] eqn:Em.
  - exists m. split; [reflexivity|].
    destruct (label_line_forward _ _ Em)
      as (q1' & lab' & q2' & E' & Hq1' & Hq2' & _ & Hlab' & ->).
    f_equal. rewrite E in E'. apply app_inv_head in E'.
    injection E' as _ E'. symmetry.
    exact (unquoted_prefix_unique lab lab' q2 _ q2' _ Hlab Hlab' Hq2 Hq2' E').
  - exfalso. rewrite match_first_none in Em.
    destruct lab as [|x lab]; [contradiction|].
    cbn [forallb] in Hlab. apply andb_prop in Hlab as [Hx Hlab].
    assert (Hlen : length line_ = 10 + length lab + 1).
    { rewrite E. cbn. rewrite length_app. cbn. lia. }
    assert (L7 : line_ !! 7 = Some q1) by (rewrite E; reflexivity).
    assert (L8 : line_ !! 8 = Some x) by (rewrite E; reflexivity).
    assert (Lr : drop 9 line_ = lab ++ q2 :: u ")")
      by (rewrite E; reflexivity).
    assert (Lj : line_ !! (9 + length lab) = Some q2).
    { rewrite <- lookup_drop, Lr. apply list_lookup_middle. reflexivity. }
    assert (Ld : drop (S (9 + length lab)) line_ = u ")").
    { replace (S (9 + length lab)) with (9 + S (length lab)) by lia.
      rewrite <- drop_drop, Lr.
      change (q2 :: u ")") with ([q2] ++ u ")"). rewrite app_assoc.
      rewrite drop_app_length'; [reflexivity|].
      rewrite length_app. cbn. lia. }
    apply (Em 0 (at_ line_ (S (9 + length lab) + 1)
                   [(1, take (9 + length lab - 8) (drop 8 line_))]));
      [lia|].
    unfold labelRegex. cbn [seq_all].
    exists (at_ line_ 0 []). split; [apply bol_at; [lia | auto]|].
    exists (at_ line_ 7 []). split.
    { cbn [matches]. apply strip_lit_at. split; [rewrite E|]; reflexivity. }
    exists (at_ line_ 8 []). split.
    { apply chr_at. exists q1. rewrite one_of_quotes. auto. }
    exists (at_ line_ (9 + length lab)
              [(1, take (9 + length lab - 8) (drop 8 line_))]). split.
    { exists (at_ line_ (9 + length lab) []). split; [|reflexivity].
      exists (at_ line_ 9 []). split.
      - apply chr_at. exists x. rewrite none_of_quotes. auto.
      - apply star_steps_at. exists (9 + length lab). split; [lia|].
        split; [|reflexivity].
        apply all_in_forallb; [lia|].
        replace (9 + length lab - 9) with (length lab) by lia.
        rewrite Lr, take_app_length.
        rewrite forallb_forall in Hlab. apply forallb_forall.
        intros c Hc. rewrite none_of_quotes. auto. }
    exists (at_ line_ (S (9 + length lab))
              [(1, take (9 + length lab - 8) (drop 8 line_))]). split.
    { apply chr_at. exists q2. rewrite one_of_quotes. auto. }
    exists (at_ line_ (S (9 + length lab) + 1)
              [(1, take (9 + length lab - 8) (drop 8 line_))]). split.
    { cbn [matches]. apply strip_lit_at. split; [|reflexivity].
      rewrite Ld. reflexivity. }
    apply eol_at. split; [lia | reflexivity].
Qed.

Lemma label_line_syntax_witness :
  (isQuote dquote = true /\ isQuote squote = true /\ u "x y" <> [] /\
   forallb (fun c => negb (isQuote c)) (u "x y") = true) /\
  exists m,
    match_first labelRegex (u "@label(" ++ dquote :: u "x y" ++ squote :: u ")")
      = Some m /\
    group 1 (groups m) = Some (u "x y").
Proof.
  assert (H1 : isQuote dquote = true) by reflexivity.
  assert (H2 : isQuote squote = true) by reflexivity.
  assert (H3 : u "x y" <> []) by discriminate.
  assert (H4 : forallb (fun c => negb (isQuote c)) (u "x y") = true)
    by reflexivity.
  split; [auto|].
  exact (proj2 (label_line_syntax _) dquote (u "x y") squote eq_refl
           H1 H2 H3 H4).
Defined.

(** ** What a reference points at *)

Lemma exec_spec r text i m :
  exec r text i = Some m ->
  exists st', i <= index m <= length text /\
    matches r (at_ text (index m) []) st' /\
    end_index m = m_pos st' /\ groups m = m_caps st' /\
    matched m = take (end_index m - index m) (drop (index m) text).
Proof.
  unfold exec. destruct (length text <? i) eqn:E; [discriminate|].
  apply Nat.ltb_ge in E. intros H.
  apply (proj1 (exec_from_spec r text (length text - i) i ltac:(lia))) in H
    as (j & st' & Hj & Hm & _ & -> & _).
  exists st'. cbn. auto.
Qed.

Lemma exec_loop_spec r text : forall fuel i m,
  In m (exec_loop fuel r text i) ->
  exists st', index m <= length text /\
    matches r (at_ text (index m) []) st' /\
    end_index m = m_pos st' /\ groups m = m_caps st' /\
    matched m = take (end_index m - index m) (drop (index m) text).
Proof.
  induction fuel as [|fuel IH]; intros i m H; [destruct H|].
  cbn [exec_loop] in H. destruct (exec r text i) as [m0|] eqn:E; [|destruct H].
  destruct H as [<-|H]; [|eapply IH; exact H].
  apply exec_spec in E as (st' & Hi & H). exists st'. split; [lia | exact H].
Qed.

Lemma take_drop_take (s : jsstring) n k L (x : jsstring) :
  take n (drop k (take L x)) = s -> length s = n -> take n (drop k x) = s.
Proof.
  intros H Hl. destruct n as [|n]; [destruct s; [reflexivity | discriminate]|].
  rewrite <- H in Hl.
  rewrite length_take, length_drop, length_take in Hl.
  rewrite <- H. rewrite <- (take_drop L x) at 1.
  rewrite drop_app_le by (rewrite length_take; lia).
  rewrite take_app_le; [reflexivity|].
  rewrite length_drop, length_take. lia.
Qed.

Lemma symbolPattern_at symbolName s sm :
  match_first (symbolPattern symbolName) s = Some sm ->
  take (length symbolName) (drop (index sm) s) = symbolName.
Proof.
  intros H. apply match_first_spec in H as (st' & _ & H & _).
  unfold symbolPattern in H. cbn [seq_all] in H.
  destruct H as (st1 & Hw & st2 & Hl & _).
  apply wordb_at in Hw as [_ ->]. cbn [matches] in Hl.
  now apply strip_lit_at in Hl as [Hl _].
Qed.

(** X8: every position that the reference search returns is the
    place of an occurrence of the name: on the line of the position, the
    text that starts at its column and has the length of the name is the
    name. *)
Theorem reference_points_at_name (document : TextDocument)
    (symbolName : jsstring) (pos : Position) :
  In pos (findReferencesInDocument document symbolName) ->
  exists line_,
    nth_error (JS.split_nl (getText document)) (line pos) = Some line_ /\
    JS.substring (character pos) (character pos + length symbolName) line_
      = symbolName.
Proof.
  intros H. apply findReferencesInDocument_ok in H
    as (line_ & pattern & m & sm & Hl & _ & Hm & _ & _ & Hsm & Hc).
  exists line_. split; [exact Hl|]. unfold JS.substring.
  replace (character pos + length symbolName - character pos)
    with (length symbolName) by lia.
  apply exec_loop_spec in Hm as (st' & _ & _ & _ & _ & Hmd).
  apply symbolPattern_at in Hsm. rewrite Hmd in Hsm.
  apply take_drop_take in Hsm; [|reflexivity].
  rewrite drop_drop in Hsm. now rewrite Hc.
Qed.

Lemma reference_points_at_name_witness :
  In (mkPosition 1 2) (findReferencesInDocument usesDocument (u "foo")) /\
  findReferencesInDocument usesDocument (u "foo")
    = [mkPosition 0 0; mkPosition 1 2] /\
  exists line_,
    nth_error (JS.split_nl (getText usesDocument)) 1 = Some line_ /\
    JS.substring 2 (2 + length (u "foo")) line_ = u "foo".
Proof.
  assert (E : findReferencesInDocument usesDocument (u "foo")
              = [mkPosition 0 0; mkPosition 1 2]) by (vm_compute; reflexivity).
  assert (H : In (mkPosition 1 2)
                (findReferencesInDocument usesDocument (u "foo")))
    by (rewrite E; right; left; reflexivity).
  split; [exact H|]. split; [exact E|].
  exact (reference_points_at_name usesDocument (u "foo") (mkPosition 1 2) H).
Defined.

(** ** Line comments *)

Lemma startsWith_app p q s :
  JS.startsWith (p ++ q) s = true -> JS.startsWith p s = true.
Proof.
  revert s. induction p as [|c p IH]; intros s H; [reflexivity|].
  destruct s as [|d s]; [discriminate|]. cbn in *.
  apply andb_prop in H as [-> H]. cbn. now apply IH.
Qed.

Lemma index_from_ge p s : forall i r,
  JS.index_from p s i = Some r -> i <= r.
Proof.
  induction s as [|c s IH]; intros i r; cbn.
  - destruct (JS.startsWith p []); [intros [= <-]; lia | discriminate].
  - destruct (JS.startsWith p (c :: s)); [intros [= <-]; lia|].
    intros H. apply IH in H. lia.
Qed.

Lemma index_from_longer p q s : forall i d,
  JS.index_from (p ++ q) s i = Some d ->
  exists c, JS.index_from p s i = Some c /\ c <= d.
Proof.
  induction s as [|x s IH]; intros i d; cbn.
  - destruct (JS.startsWith (p ++ q) []) eqn:E; [|discriminate].
    intros [= <-]. rewrite (startsWith_app _ _ _ E). eauto.
  - destruct (JS.startsWith (p ++ q) (x :: s)) eqn:E.
    + intros [= <-]. rewrite (startsWith_app _ _ _ E). eauto.
    + intros H. destruct (JS.startsWith p (x :: s)).
      * apply index_from_ge in H. exists i. split; [reflexivity | lia].
      * apply IH in H as (c & Hc & Hle). eauto.
Qed.

(** X9: a position counts as inside a comment exactly when two
    slashes occur on the line at or before it; the separate test for the
    documentation marker never changes the answer. *)
Theorem isInComment_iff (line_ : jsstring) (position_ : nat) :
  isInComment line_ position_ = true <->
  (0 <= JS.indexOf (u "//") line_ <= Z.of_nat position_)%Z.
Proof.
  unfold isInComment, JS.indexOf.
  destruct (JS.index_from (u "//") line_ 0) as [c|] eqn:Ec;
    destruct (JS.index_from (u "///") line_ 0) as [d|] eqn:Ed;
    try (change (u "///") with (u "//" ++ u "/") in Ed;
         apply index_from_longer in Ed as (c' & Hc' & Hle);
         rewrite Hc' in Ec; first [discriminate | injection Ec as Ec; subst]);
    repeat match goal with
           | |- context [Z.eqb ?a ?b] => destruct (Z.eqb_spec a b)
           | |- context [Z.leb ?a ?b] => destruct (Z.leb_spec a b)
           end;
    cbn [negb andb]; split; intros ?;
    first [lia | discriminate | reflexivity].
Qed.

(** ** The life of a cached parser *)

Lemma cacheValid_new : cacheValid Cache.newProvider.
Proof. intros uri_ e H. cbn in H. now rewrite lookup_empty in H. Qed.

Lemma cacheValid_clear st : cacheValid (Cache.clearCache st).
Proof. intros uri_ e H. cbn in H. now rewrite lookup_empty in H. Qed.

(** X10: the cache never changes a parser that it has handed
    out: a request only adds to the store of parsers, the reference it
    returns is a parser of the store, and after [clearCache] the next
    request for a file parses it again, whatever its modification time,
    into a parser that no earlier request has returned. *)
Theorem cached_parsers_persist (d : TextDocument) (t : Z)
    (st st' : Cache.Provider) (r : nat) :
  cacheValid st ->
  Cache.getParserForDocument d t st = (r, st') ->
  (cacheValid st' /\ r < length (Cache.heap st') /\
   (forall i q, Cache.heap st !! i = Some q -> Cache.heap st' !! i = Some q) /\
   (Cache.heap st' = Cache.heap st \/
    Cache.heap st' = Cache.heap st ++ [parseDocument d newParser] /\
    r = length (Cache.heap st))) /\
  Cache.getParserForDocument d t (Cache.clearCache st) =
    (length (Cache.heap st),
     Cache.mkProvider
       (<[uri d := Cache.mkEntry (length (Cache.heap st)) t]> ∅)
       (Cache.heap st ++ [parseDocument d newParser])).
Proof.
  intros Hv H. split; [|reflexivity].
  unfold Cache.getParserForDocument in H. cbv zeta in H.
  assert (Hfresh :
    (r, st') =
    (length (Cache.heap st),
     Cache.mkProvider
       (<[uri d := Cache.mkEntry (length (Cache.heap st)) t]>
          (Cache.parsedDocuments st))
       (Cache.heap st ++ [parseDocument d newParser])) ->
    cacheValid st' /\ r < length (Cache.heap st') /\
    (forall i q, Cache.heap st !! i = Some q -> Cache.heap st' !! i = Some q)
    /\ (Cache.heap st' = Cache.heap st \/
        Cache.heap st' = Cache.heap st ++ [parseDocument d newParser] /\
        r = length (Cache.heap st))).
  { intros [= -> ->]. cbn [Cache.heap Cache.parsedDocuments].
    rewrite length_app. cbn [length]. split; [|split; [lia|split]].
    - intros uri_ e He. cbn [Cache.heap Cache.parsedDocuments] in *.
      rewrite length_app. cbn [length].
      destruct (decide (uri_ = uri d)) as [->|Hne].
      + rewrite lookup_insert_eq in He. injection He as <-. cbn. lia.
      + rewrite lookup_insert_ne in He by congruence.
        apply Hv in He. lia.
    - intros i q Hq. now apply lookup_app_l_Some.
    - right. auto. }
  destruct (Cache.parsedDocuments st !! uri d) as [e|] eqn:E.
  - destruct (t <=? Cache.lastModified e)%Z.
    + injection H as <- <-. split; [exact Hv|]. split; [eapply Hv; eauto|].
      split; [auto | left; reflexivity].
    + apply Hfresh. now symmetry.
  - apply Hfresh. now symmetry.
Qed.

Lemma cached_parsers_persist_witness :
  cacheValid Cache.newProvider /\
  exists r st',
    Cache.getParserForDocument ownerDocument 5 Cache.newProvider = (r, st') /\
    cacheValid st' /\ r < length (Cache.heap st').
Proof.
  split; [exact cacheValid_new|].
  assert (E : Cache.getParserForDocument ownerDocument 5 Cache.newProvider =
    (length (Cache.heap Cache.newProvider),
     Cache.mkProvider
       (<[uri ownerDocument :=
            Cache.mkEntry (length (Cache.heap Cache.newProvider)) 5]>
          (Cache.parsedDocuments Cache.newProvider))
       (Cache.heap Cache.newProvider
        ++ [parseDocument ownerDocument newParser]))).
  { apply getParserForDocument_fresh. intros e He. cbn in He.
    rewrite lookup_empty in He. discriminate. }
  eexists _, _. split; [exact E|].
  destruct (proj1 (cached_parsers_persist ownerDocument 5 Cache.newProvider
                     _ _ cacheValid_new E)) as (Hv & Hr & _).
  split; [exact Hv | exact Hr].
Defined.

(** X11: the cache never goes back in time.  A request leaves
    the entries of the other files alone; for the file asked for it keeps
    the later of the time recorded and the time observed, and when the time
    observed is not later than the time recorded it returns the parser
    recorded and changes nothing, whatever the text of the document now
    is. *)
Theorem cache_keeps_latest (d : TextDocument) (t : Z)
    (st st' : Cache.Provider) (r : nat) :
  Cache.getParserForDocument d t st = (r, st') ->
  (forall uri_, uri_ <> uri d ->
     Cache.parsedDocuments st' !! uri_ = Cache.parsedDocuments st !! uri_) /\
  (forall e, Cache.parsedDocuments st !! uri d = Some e ->
     (exists e', Cache.parsedDocuments st' !! uri d = Some e' /\
        Cache.lastModified e' = Z.max t (Cache.lastModified e)) /\
     ((t <= Cache.lastModified e)%Z -> r = Cache.parser e /\ st' = st)) /\
  (Cache.parsedDocuments st !! uri d = None ->
   Cache.parsedDocuments st' !! uri d = Some (Cache.mkEntry r t)).
Proof.
  unfold Cache.getParserForDocument. cbv zeta.
  destruct (Cache.parsedDocuments st !! uri d) as [e|] eqn:E.
  - destruct (Z.leb_spec t (Cache.lastModified e)); intros [= <- <-].
    + split; [reflexivity|]. split; [|discriminate].
      intros e0 [= <-]. split; [|auto]. exists e. split; [exact E | lia].
    + cbn [Cache.parsedDocuments]. split.
      * intros uri_ Hne. now rewrite lookup_insert_ne by congruence.
      * split; [|discriminate]. intros e0 [= <-]. split; [|lia].
        eexists. rewrite lookup_insert_eq. split; [reflexivity|]. cbn. lia.
  - intros [= <- <-]. cbn [Cache.parsedDocuments]. split.
    + intros uri_ Hne. now rewrite lookup_insert_ne by congruence.
    + split; [discriminate|]. intros _. now rewrite lookup_insert_eq.
Qed.

Lemma cache_keeps_latest_witness :
  let st1 :=
    snd (Cache.getParserForDocument ownerDocument 5 Cache.newProvider) in
  Cache.parsedDocuments st1 !! uri editedDocument = Some (Cache.mkEntry 0 5)
  /\ Cache.getParserForDocument editedDocument 3 st1 = (0, st1).
Proof.
  intros st1.
  assert (E1 : Cache.parsedDocuments st1 !! uri editedDocument
               = Some (Cache.mkEntry 0 5)) by (vm_compute; reflexivity).
  split; [exact E1|].
  destruct (Cache.getParserForDocument editedDocument 3 st1) as [r st'] eqn:E.
  destruct (cache_keeps_latest editedDocument 3 st1 st' r E) as (_ & H & _).
  destruct (H _ E1) as [_ H2].
  destruct (H2 ltac:(cbn; lia)) as [-> ->]. reflexivity.
Defined.

(** ** What the ranking keeps *)

Lemma map_label_imap {A} (f : nat -> A -> CompletionItem) (l : list A)
    (g : A -> jsstring) :
  (forall i x, label (f i x) = g x) -> map label (imap f l) = map g l.
Proof.
  revert f. induction l as [|x l IH]; intros f H; [reflexivity|].
  cbn. rewrite H. f_equal. apply IH. intros i y. apply H.
Qed.

Lemma in_imap {A B} (f : nat -> A -> B) (l : list A) y :
  In y (imap f l) <-> exists i x, l !! i = Some x /\ y = f i x.
Proof.
  rewrite <- list_elem_of_In, list_elem_of_lookup. split.
  - intros (i & Hi). rewrite list_lookup_imap in Hi.
    destruct (l !! i) as [x|] eqn:E; [|discriminate].
    injection Hi as <-. eauto.
  - intros (i & x & Hx & ->). exists i. rewrite list_lookup_imap, Hx.
    reflexivity.
Qed.

(** X12: the ranking neither drops nor adds a candidate: it
    returns the candidates it was given, each with its sort text replaced by
    the key made of its score and its label, and with its other fields
    unchanged. *)
Theorem ranking_keeps_candidates (toLowerCase : jsstring -> jsstring)
    (localeCompare : jsstring -> jsstring -> Z) (st : Provider)
    (clock : nat -> Z) (completions : list CompletionItem)
    (textBeforeCursor : jsstring) (context : CompletionContext) :
  Permutation
    (map label
       (applyIntelligentRanking toLowerCase localeCompare st clock
          completions textBeforeCursor context))
    (map label completions) /\
  length (applyIntelligentRanking toLowerCase localeCompare st clock
            completions textBeforeCursor context) = length completions /\
  (forall item,
     In item (applyIntelligentRanking toLowerCase localeCompare st clock
                completions textBeforeCursor context) ->
     exists i original,
       completions !! i = Some original /\
       label item = label original /\ kind item = kind original /\
       detail item = detail original /\
       insertText item = insertText original /\
       documentation item = documentation original /\
       sortText item =
         Some (sortKey
                 (itemScore toLowerCase (usageHistory st)
                    (JS.last_word textBeforeCursor) context (clock i)
                    original)
                 (label original))) /\
  (forall i original,
     completions !! i = Some original ->
     In (rankItem toLowerCase (usageHistory st)
           (JS.last_word textBeforeCursor) context (clock i) original)
       (applyIntelligentRanking toLowerCase localeCompare st clock
          completions textBeforeCursor context)).
Proof.
  unfold applyIntelligentRanking. cbv zeta.
  set (ranked := imap _ completions).
  pose proof (sort_by_perm (sortTextLeb localeCompare) ranked) as Hp.
  split; [|split; [|split]].
  - rewrite (Permutation_map label Hp). unfold ranked.
    erewrite map_label_imap; [reflexivity|]. reflexivity.
  - rewrite (Permutation_length Hp). unfold ranked. apply length_imap.
  - intros item Hin. apply in_sort_by in Hin. unfold ranked in Hin.
    apply in_imap in Hin as (i & original & Ho & ->).
    exists i, original. cbn. auto 10.
  - intros i original Ho. apply in_sort_by. unfold ranked.
    apply in_imap. eauto.
Qed.

Lemma ranking_keeps_candidates_witness :
  map label (rankWith ∅ [plainItem "beta"; plainItem "alpha"])
    = [u "alpha"; u "beta"] /\
  In (rankItem asciiLowerCase ∅ [] noContext 10000000 (plainItem "beta"))
    (rankWith ∅ [plainItem "beta"; plainItem "alpha"]).
Proof.
  split; [vm_compute; reflexivity|].
  exact (proj2 (proj2 (proj2
           (ranking_keeps_candidates asciiLowerCase codeUnitCompare
              (mkProvider newParser ∅ [])
              (fun _ => 10000000%Z) [plainItem "beta"; plainItem "alpha"]
              [] noContext))) 0 (plainItem "beta") eq_refl).
Defined.

(** ** The symbols near the cursor *)

(** X13: [findNearbySymbols] returns the symbols of the table
    whose line is at most [range] lines from the line of the cursor, each as
    often as the table holds it, ordered by their distance from that line,
    the nearest first. *)
Theorem findNearbySymbols_sorted (p : LDLParser) (position_ : Position)
    (range : Z) :
  Permutation (findNearbySymbols p position_ range)
    (List.filter
       (fun s => (lineDistance s (line position_) <=? range)%Z)
       (getAllSymbols p)) /\
  (forall s, In s (findNearbySymbols p position_ range) <->
     In s (getAllSymbols p) /\
     (lineDistance s (line position_) <= range)%Z) /\
  StronglySorted
    (fun a b =>
       (lineDistance a (line position_) <= lineDistance b (line position_))%Z)
    (findNearbySymbols p position_ range).
Proof.
  unfold findNearbySymbols. cbv zeta.
  set (leb := fun a b : LDLSymbol => _).
  split; [apply sort_by_perm|]. split.
  - intros s. rewrite in_sort_by, filter_In, Z.leb_le. reflexivity.
  - assert (Hs : StronglySorted (fun a b => leb a b = true)
                   (JS.sort_by leb
                      (List.filter
                         (fun s =>
                            (lineDistance s (line position_) <=? range)%Z)
                         (getAllSymbols p)))).
    { apply sort_by_sorted; unfold leb.
      - intros x y H. apply Z.leb_gt in H. apply Z.leb_le. lia.
      - intros x y z H1 H2. apply Z.leb_le in H1, H2. apply Z.leb_le. lia. }
    revert Hs. generalize (JS.sort_by leb
      (List.filter (fun s => (lineDistance s (line position_) <=? range)%Z)
         (getAllSymbols p))) as l.
    induction 1 as [|a l Hs IH Hall]; constructor; [exact IH|].
    eapply List.Forall_impl; [|exact Hall]. intros b Hb. unfold leb in Hb.
    apply Z.leb_le in Hb. lia.
Qed.


(** ** Reading an expression as a division of the text *)

Lemma drop_app_next (text : jsstring) i w r :
  drop i text = w ++ r -> drop (i + length w) text = r.
Proof.
  intros H. rewrite <- drop_drop, H. now rewrite drop_app_length.
Qed.

Lemma star_seg p text i caps st' :
  star_steps p (at_ text i caps) st' ->
  exists w, forallb p w = true /\
    drop i text = w ++ drop (i + length w) text /\
    st' = at_ text (i + length w) caps.
Proof.
  intros H. apply star_steps_at in H as (j & Hj & Hall & ->).
  destruct (decide (j = i)) as [->|Hne].
  - exists []. cbn. rewrite Nat.add_0_r. auto.
  - assert (Hl : j <= length text)
      by (apply (all_in_le p text i j); [lia | exact Hall]).
    exists (take (j - i) (drop i text)).
    assert (Hlen : length (take (j - i) (drop i text)) = j - i)
      by (rewrite length_take, length_drop; lia).
    rewrite Hlen. replace (i + (j - i)) with j by lia.
    split; [apply all_in_forallb; [lia | exact Hall]|]. split; [|reflexivity].
    rewrite <- (take_drop (j - i) (drop i text)) at 1. f_equal.
    rewrite drop_drop. f_equal. lia.
Qed.

Lemma star_build p text i caps w r :
  drop i text = w ++ r -> forallb p w = true ->
  star_steps p (at_ text i caps) (at_ text (i + length w) caps).
Proof.
  intros Hd Hw. apply star_steps_at. exists (i + length w).
  split; [lia|]. split; [|reflexivity].
  destruct w as [|c w]; [apply all_in_nil; cbn; lia|].
  assert (Hl : i + length (c :: w) <= length text).
  { apply (f_equal length) in Hd. rewrite length_drop, length_app in Hd.
    cbn in *. lia. }
  apply all_in_forallb; [lia|].
  replace (i + length (c :: w) - i) with (length (c :: w)) by lia.
  rewrite Hd, take_app_length. exact Hw.
Qed.

Lemma lit_seg s text i caps st' :
  matches (Lit s) (at_ text i caps) st' ->
  drop i text = s ++ drop (i + length s) text /\
  st' = at_ text (i + length s) caps.
Proof.
  cbn [matches]. intros H. apply strip_lit_at in H as [H ->].
  split; [|reflexivity].
  rewrite <- (take_drop (length s) (drop i text)) at 1. rewrite H.
  f_equal. rewrite drop_drop. reflexivity.
Qed.

Lemma lit_build s text i caps r :
  drop i text = s ++ r ->
  matches (Lit s) (at_ text i caps) (at_ text (i + length s) caps).
Proof.
  intros H. cbn [matches]. apply strip_lit_at. split; [|reflexivity].
  rewrite H. apply take_app_length.
Qed.

Lemma chr_seg p text i caps st' :
  matches (Chr p) (at_ text i caps) st' ->
  exists x, p x = true /\ drop i text = x :: drop (i + 1) text /\
    st' = at_ text (i + 1) caps.
Proof.
  intros H. apply chr_at in H as (x & Hx & Hp & ->). exists x.
  rewrite Nat.add_1_r. split; [exact Hp|]. split; [|reflexivity].
  now apply drop_S.
Qed.

Lemma chr_build p text i caps x r :
  drop i text = x :: r -> p x = true ->
  matches (Chr p) (at_ text i caps) (at_ text (i + 1) caps).
Proof.
  intros H Hp. apply chr_at. exists x. rewrite Nat.add_1_r.
  apply drop_cons_lookup in H as [H _]. auto.
Qed.

Lemma eol_seg text i caps st' :
  matches Eol (at_ text i caps) st' -> drop i text = [].
Proof. intros H. apply eol_at in H as [H _]. now apply drop_ge. Qed.

Lemma eol_build (text : jsstring) i caps :
  drop i text = [] -> matches Eol (at_ text i caps) (at_ text i caps).
Proof.
  intros H. apply eol_at. split; [|reflexivity].
  apply (f_equal length) in H. rewrite length_drop in H. cbn in H. lia.
Qed.

(** A run of code units of a class, followed by one that is not of the
    class, is determined by the text. *)
Lemma run_unique (p : N -> bool) (a b : jsstring) q r q' r' :
  forallb p a = true -> forallb p b = true ->
  p q = false -> p q' = false ->
  a ++ q :: r = b ++ q' :: r' -> a = b.
Proof.
  revert b. induction a as [|x a IH]; intros [|y b] Ha Hb Hq Hq' E; cbn in *.
  - reflexivity.
  - injection E as -> _. apply andb_prop in Hb as [Hb _]. congruence.
  - injection E as -> _. apply andb_prop in Ha as [Ha _]. congruence.
  - injection E as -> E. apply andb_prop in Ha as [_ Ha].
    apply andb_prop in Hb as [_ Hb]. f_equal. eapply IH; eauto.
Qed.

(** ** The name that the version generator reads *)

Lemma is_word_range c : JS.is_word c = true -> (48 <= c <= 122)%N.
Proof.
  unfold JS.is_word.
  repeat match goal with
         | |- context [(?a <=? ?b)%N] => destruct (N.leb_spec a b)
         | |- context [(?a =? ?b)%N] => destruct (N.eqb_spec a b)
         end; cbn; intros Hr; try discriminate; lia.
Qed.

Lemma space_not_word c : JS.is_space c = true -> JS.is_word c = false.
Proof.
  intros Hs. destruct (JS.is_word c) eqn:Hw; [|reflexivity]. exfalso.
  apply is_word_range in Hw. unfold JS.is_space in Hs.
  repeat match type of Hs with
         | context [(?a <=? ?b)%N] =>
             destruct (N.leb_spec a b); try lia
         | context [(?a =? ?b)%N] =>
             destruct (N.eqb_spec a b); try lia
         end.
Qed.

Lemma versionTailShape_head rest :
  versionTailShape rest ->
  exists c r, rest = c :: r /\ JS.is_word c = false.
Proof.
  intros (sp & args & sp2 & sp3 & oq & tail & -> & Hsp & _).
  destruct sp as [|c sp].
  - eexists _, _. split; reflexivity.
  - cbn in Hsp. apply andb_prop in Hsp as [Hc _]. exists c. eexists.
    split; [reflexivity | now apply space_not_word].
Qed.

Lemma versionCallAt_unique text i n1 n2 :
  versionCallAt text i n1 -> versionCallAt text i n2 -> n1 = n2.
Proof.
  intros (_ & Hw1 & r1 & E1 & S1) (_ & Hw2 & r2 & E2 & S2).
  apply versionTailShape_head in S1 as (c1 & t1 & -> & Hc1).
  apply versionTailShape_head in S2 as (c2 & t2 & -> & Hc2).
  rewrite E1 in E2.
  exact (run_unique JS.is_word n1 n2 c1 t1 c2 t2 Hw1 Hw2 Hc1 Hc2 E2).
Qed.

Lemma versionCall_sound text i st' :
  matches versionCallRegex (at_ text i []) st' ->
  exists name_, versionCallAt text i name_ /\
    group 1 (m_caps st') = Some name_.
Proof.
  unfold versionCallRegex. cbn [seq_all]. 
  intros (st1 & Hg & st2 & Hs1 & st3 & Hl1 & st4 & Hs2 & st5 & Hl2
          & st6 & Hs3 & st7 & Hl3 & st8 & Hs4 & st9 & Ho & st10 & Hs5 & He).
  destruct Hg as (st0 & Hp & ->). destruct Hp as (sta & Hc & Hs0).
  apply chr_seg in Hc as (x & Hx & Dx & ->).
  apply star_seg in Hs0 as (w & Hw & Dw & ->).
  cbn [m_prev m_rest m_pos m_caps at_] in Hs1.
  set (i1 := i + 1 + length w) in *.
  set (caps := [(1, take (i1 - i) (drop i text))]) in *.
  fold (at_ text i1 caps) in Hs1.
  apply star_seg in Hs1 as (sp & Hsp & Dsp & ->).
  apply lit_seg in Hl1 as [D1 ->].
  apply star_seg in Hs2 as (args & Hargs & Dargs & ->).
  apply lit_seg in Hl2 as [D2 ->].
  apply star_seg in Hs3 as (sp2 & Hsp2 & Dsp2 & ->).
  apply lit_seg in Hl3 as [D3 ->].
  apply star_seg in Hs4 as (sp3 & Hsp3 & Dsp3 & ->).
  assert (Hoq : exists oq j,
            (oq = [] \/ exists q, isQuote q = true /\ oq = [q]) /\
            drop (i1 + length sp + length (u "(") + length args
                  + length (u "version") + length sp2 + length (u ":")
                  + length sp3) text = oq ++ drop j text /\
            st9 = at_ text j caps).
  { destruct Ho as [Ho| ->].
    - apply chr_seg in Ho as (q & Hq & Dq & ->). exists [q]. eexists.
      split; [right; exists q; rewrite <- one_of_quotes; auto|].
      split; [exact Dq | reflexivity].
    - exists []. eexists. split; [left; reflexivity|].
      split; reflexivity. }
  destruct Hoq as (oq & j & Hoq & Doq & ->).
  apply star_seg in Hs5 as (tail & Htail & Dtail & ->).
  apply eol_at in He as [He ->]. apply (drop_ge text) in He.
  exists (x :: w). split.
  - split; [discriminate|]. split; [cbn; now rewrite Hx|].
    exists (drop i1 text). split.
    + rewrite Dx, Dw. unfold i1. cbn. reflexivity.
    + exists sp, args, sp2, sp3, oq, tail.
      split; [|split; [exact Hsp|split; [exact Hargs|split; [exact Hsp2|
        split; [exact Hsp3|split; [exact Hoq|]]]]]].
      * rewrite Dsp at 1. f_equal. rewrite D1 at 1. f_equal.
        rewrite Dargs at 1. f_equal. rewrite D2 at 1. f_equal.
        rewrite Dsp2 at 1. f_equal. rewrite D3 at 1. f_equal.
        rewrite Dsp3 at 1. f_equal. rewrite Doq at 1. f_equal.
        rewrite Dtail at 1. rewrite He. apply app_nil_r.
      * rewrite forallb_forall in *. intros c Hc.
        rewrite <- none_of_quotes. auto.
  - cbn [m_caps at_]. unfold caps. cbn [group Nat.eqb]. f_equal.
    rewrite Dx, Dw. unfold i1.
    replace (i + 1 + length w - i) with (length (x :: w)) by (cbn; lia).
    change (x :: w ++ ?r) with ((x :: w) ++ r).
    apply take_app_length.
Qed.

Lemma versionCall_complete text i name_ :
  versionCallAt text i name_ ->
  exists st', matches versionCallRegex (at_ text i []) st'.
Proof.
  intros (Hne & Hw & rest & Dn & sp & args & sp2 & sp3 & oq & tail & ->
          & Hsp & Hargs & Hsp2 & Hsp3 & Hoq & Htail).
  destruct name_ as [|x w]; [contradiction|].
  cbn [forallb] in Hw. apply andb_prop in Hw as [Hx Hw].
  cbn [app] in Dn.
  pose proof (drop_app_next text i [x] _ Dn) as D0. cbn [length] in D0.
  pose proof (drop_app_next text _ w _ D0) as D1.
  pose proof (drop_app_next text _ sp _ D1) as D2.
  pose proof (drop_app_next text _ (u "(") _ D2) as D3.
  pose proof (drop_app_next text _ args _ D3) as D4.
  pose proof (drop_app_next text _ (u "version") _ D4) as D5.
  pose proof (drop_app_next text _ sp2 _ D5) as D6.
  pose proof (drop_app_next text _ (u ":") _ D6) as D7.
  pose proof (drop_app_next text _ sp3 _ D7) as D8.
  pose proof (drop_app_next text _ oq _ D8) as D9.
  assert (D10 := D9). rewrite <- (app_nil_r tail) in D10.
  apply drop_app_next in D10.
  set (i1 := i + 1 + length w) in *.
  set (caps := [(1, take (i1 - i) (drop i text))]).
  eexists. unfold versionCallRegex. cbn [seq_all].
  exists (at_ text i1 caps). split.
  { exists (at_ text i1 []). split; [|reflexivity].
    exists (at_ text (i + 1) []). split.
    - eapply chr_build; eauto.
    - eapply star_build; eauto. }
  eexists. split; [eapply star_build; [exact D1 | exact Hsp]|].
  eexists. split; [eapply lit_build; exact D2|].
  eexists. split; [eapply star_build; [exact D3 | exact Hargs]|].
  eexists. split; [eapply lit_build; exact D4|].
  eexists. split; [eapply star_build; [exact D5 | exact Hsp2]|].
  eexists. split; [eapply lit_build; exact D6|].
  eexists. split; [eapply star_build; [exact D7 | exact Hsp3]|].
  eexists. split.
  { instantiate (1 := at_ text
      (i1 + length sp + length (u "(") + length args + length (u "version")
       + length sp2 + length (u ":") + length sp3 + length oq) caps).
    destruct Hoq as [->|(q & Hq & ->)].
    - right. cbn [length]. now rewrite Nat.add_0_r.
    - left. eapply chr_build; [exact D8|]. now rewrite one_of_quotes. }
  eexists. split.
  { eapply (star_build _ _ _ _ tail []); [rewrite app_nil_r; exact D9|].
    rewrite forallb_forall in *. intros c Hc. rewrite none_of_quotes. auto. }
  apply eol_build. exact D10.
Qed.

Lemma versionCallAt_lt text i name_ :
  versionCallAt text i name_ -> i < length text.
Proof.
  intros (Hne & _ & rest & E & _). apply (f_equal length) in E.
  rewrite length_drop, length_app in E. destruct name_; [contradiction|].
  cbn in E. lia.
Qed.

(** The name captured by the expression of [provideVersionCompletions] is
    the leftmost such word. *)
Lemma match_first_versionCall text :
  (forall m, match_first versionCallRegex text = Some m ->
     exists name_, versionCallAt text (index m) name_ /\
       cap 1 m = Some name_ /\
       forall j name', j < index m -> ~ versionCallAt text j name') /\
  (match_first versionCallRegex text = None ->
   forall i name_, ~ versionCallAt text i name_).
Proof.
  split.
  - intros m Hm. apply match_first_spec in Hm
      as (st' & _ & Hm & _ & _ & Hg & _ & Hleft).
    apply versionCall_sound in Hm as (name_ & Hc & Hcap).
    exists name_. split; [exact Hc|]. split.
    + unfold cap. now rewrite Hg.
    + intros j name' Hj Hc'. apply versionCall_complete in Hc' as [st'' H].
      exact (Hleft j st'' Hj H).
  - intros Hn i name_ Hc. rewrite match_first_none in Hn.
    pose proof (versionCallAt_lt _ _ _ Hc) as Hi.
    apply versionCall_complete in Hc as [st' H].
    apply (Hn i st'); [lia | exact H].
Qed.

Lemma findAllSymbols_parsed document p0 name_ s :
  In s (findAllSymbols (parseDocument document p0) name_ None None) <->
  In s (getAllSymbols (parseDocument document p0)) /\ name s = name_.
Proof.
  rewrite <- (in_parsed_bucket document p0).
  unfold findAllSymbols. change (truthy None) with false. cbn [andb].
  rewrite parseDocument_trace, bucket_insertAll.
  destruct (List.filter (named name_) (parseTrace document)); reflexivity.
Qed.

(** C9, amended: the version generator reads the text before the cursor
    for the leftmost word that is followed by white space (or none), an
    opening parenthesis, arguments without a closing parenthesis, the
    keyword [version], a colon, at most one quote and no quote after it up
    to the cursor.  When the text holds no such word the generator returns
    nothing.  Otherwise it returns one candidate for each distinct non-empty
    version of the symbols of that name in the table of the parser it is
    given, in the order of the table, and after them one candidate for each
    name of the catalog that is not among these versions; no label occurs
    twice.  The parser is the provider's own: after a parse its symbols of
    that name are those of the document parsed. *)
Theorem provideVersionCompletions_spec (p : LDLParser)
    (textBeforeCursor : jsstring) :
  ((forall i name_, ~ versionCallAt textBeforeCursor i name_) ->
   provideVersionCompletions p textBeforeCursor = []) /\
  ((exists i name_, versionCallAt textBeforeCursor i name_) ->
   exists i name_, versionCallAt textBeforeCursor i name_ /\
     forall j name', j < i -> ~ versionCallAt textBeforeCursor j name') /\
  (forall i name_,
     versionCallAt textBeforeCursor i name_ ->
     (forall j name', j < i -> ~ versionCallAt textBeforeCursor j name') ->
     provideVersionCompletions p textBeforeCursor =
       map (existingVersionItem name_)
         (collectVersions (findAllSymbols p name_ None None))
       ++ map commonVersionItem
            (List.filter
               (fun v =>
                  negb (set_has v
                          (collectVersions
                             (findAllSymbols p name_ None None))))
               commonVersions) /\
     List.NoDup (collectVersions (findAllSymbols p name_ None None)) /\
     (forall v,
        In v (collectVersions (findAllSymbols p name_ None None)) <->
        v <> [] /\
        exists s, In s (findAllSymbols p name_ None None) /\
          version s = Some v) /\
     List.NoDup (map label (provideVersionCompletions p textBeforeCursor)))
  /\
  (forall document p0 name_ s,
     In s (findAllSymbols (parseDocument document p0) name_ None None) <->
     In s (getAllSymbols (parseDocument document p0)) /\ name s = name_).
Proof.
  destruct (match_first_versionCall textBeforeCursor) as [Hsome Hnone].
  split; [|split; [|split; [|intros; apply findAllSymbols_parsed]]].
  - intros Hno. unfold provideVersionCompletions.
    destruct (match_first versionCallRegex textBeforeCursor) as [m|] eqn:E;
      [|reflexivity].
    destruct (Hsome m eq_refl) as (name_ & Hc & _). destruct (Hno _ _ Hc).
  - intros (i & name_ & Hc).
    destruct (match_first versionCallRegex textBeforeCursor) as [m|] eqn:E.
    + destruct (Hsome m eq_refl) as (name' & Hc' & _ & Hleft). eauto.
    + destruct (Hnone eq_refl _ _ Hc).
  - intros i name_ Hc Hleft.
    destruct (match_first versionCallRegex textBeforeCursor) as [m|] eqn:E;
      [|destruct (Hnone eq_refl _ _ Hc)].
    destruct (Hsome m eq_refl) as (name' & Hc' & Hcap & Hleft').
    assert (Hi : index m = i).
    { destruct (lt_eq_lt_dec (index m) i) as [[Hlt|Heq]|Hgt]; [|exact Heq|].
      - destruct (Hleft _ _ Hlt Hc').
      - destruct (Hleft' _ _ Hgt Hc). }
    rewrite Hi in Hc'.
    assert (name' = name_) as -> by (eapply versionCallAt_unique; eauto).
    set (functions := findAllSymbols p name_ None None).
    destruct (collectVersions_spec functions) as [Hnd Hin].
    assert (Heq : provideVersionCompletions p textBeforeCursor =
      map (existingVersionItem name_) (collectVersions functions)
      ++ map commonVersionItem
           (List.filter
              (fun v => negb (set_has v (collectVersions functions)))
              commonVersions)).
    { unfold provideVersionCompletions. rewrite E, Hcap. reflexivity. }
    split; [exact Heq|]. split; [exact Hnd|]. split; [exact Hin|].
    rewrite Heq, map_app, !map_map.
    cbn [existingVersionItem label commonVersionItem].
    rewrite !map_id.
    apply List.NoDup_app; [exact Hnd| |].
    + apply NoDup_filter, commonVersions_NoDup.
    + intros v Hv Hf. apply filter_In in Hf as [_ Hf].
      apply negb_true_iff, set_has_false in Hf. contradiction.
Qed.

Lemma versionCallAt_outer :
  versionCallAt (u "outer(SQ3R(version: " ++ [dquote]) 0 (u "outer").
Proof.
  split; [discriminate|]. split; [reflexivity|].
  exists (u "(SQ3R(version: " ++ [dquote]). split; [reflexivity|].
  exists [], (u "SQ3R("), [], (u " "), [dquote], [].
  split; [reflexivity|]. repeat (split; [reflexivity|]).
  split; [|reflexivity]. right. exists dquote. split; reflexivity.
Qed.

Lemma provideVersionCompletions_witness :
  versionCallAt (u "outer(SQ3R(version: " ++ [dquote]) 0 (u "outer") /\
  map label
    (provideVersionCompletions (parseDocument nestedDocument newParser)
       (u "outer(SQ3R(version: " ++ [dquote]))
  = [u "zeta"; u "basic"; u "advanced"; u "academic"; u "practical";
     u "simplified"; u "enhanced"].
Proof.
  assert (Hl : forall j name', j < 0 ->
     ~ versionCallAt (u "outer(SQ3R(version: " ++ [dquote]) j name')
    by (intros j name' Hj; lia).
  split; [exact versionCallAt_outer|].
  destruct (proj1 (proj2 (proj2
              (provideVersionCompletions_spec
                 (parseDocument nestedDocument newParser)
                 (u "outer(SQ3R(version: " ++ [dquote]))))
              0 (u "outer") versionCallAt_outer Hl) as [-> _].
  vm_compute. reflexivity.
Defined.

(** C9 as stated fails.  A version declared in another file of the
    workspace is not offered in the file being edited.  When the call is
    typed inside another function the ranked list, sorted by score and then
    by label, has the catalog names [advanced] and [basic] before the
    existing version [classic].  With the cursor in the call of [SQ3R] that
    is an argument of a call of [outer], the name read is [outer]: its
    version [zeta] is offered and the version [classic] of [SQ3R] is not.
    And a version typed after an argument that is itself a call is in
    version context, yet no name is read and nothing is offered, not even
    the catalog. *)
Lemma version_completion_counterexamples :
  (map version
     (findAllSymbols (parseDocument libraryDocument newParser) (u "SQ3R")
        None None)
   = [Some (u "classic")] /\
   isVersionContext (u "SQ3R(version: " ++ [dquote]) = true /\
   map label (completeAt callerDocument (mkPosition 0 15))
   = [u "academic"; u "advanced"; u "basic"; u "enhanced"; u "practical";
      u "simplified"]) /\
  (map version
     (findAllSymbols (parseDocument bodiesDocument newParser) (u "SQ3R")
        None None)
   = [Some (u "classic"); Some (u "academic")] /\
   map label (completeAt bodiesDocument (mkPosition 5 17))
   = [u "academic"; u "advanced"; u "basic"; u "classic"; u "enhanced";
      u "practical"; u "simplified"]) /\
  (map version
     (findAllSymbols (parseDocument nestedDocument newParser) (u "SQ3R")
        None None)
   = [Some (u "classic")] /\
   lineAt nestedDocument 2 = u "outer(SQ3R(version: " ++ [dquote] /\
   map label
     (provideVersionCompletions (parseDocument nestedDocument newParser)
        (u "outer(SQ3R(version: " ++ [dquote]))
   = [u "zeta"; u "basic"; u "advanced"; u "academic"; u "practical";
      u "simplified"; u "enhanced"] /\
   map label (completeAt nestedDocument (mkPosition 2 21))
   = [u "academic"; u "advanced"; u "basic"; u "enhanced"; u "practical";
      u "simplified"; u "zeta"]) /\
  (isVersionContext afterCallText = true /\
   provideVersionCompletions (parseDocument nestedDocument newParser)
     afterCallText = []).
Proof. vm_compute. repeat split; reflexivity. Qed.

(** ** Usage is never recorded *)



(** ** A literal that ends in an escaped backslash *)

(** C6: the scanner tells an escaped quote by the one code unit before it,
    so the quote that closes a literal ending in an escaped backslash is
    taken for an escaped one.  In the sample text the literal of [s] spans
    the offsets 14 to 18; at offset 19 the scanner is still inside a string,
    it leaves the string at the opening quote of the literal of [t], counts
    the brace inside that literal at offset 25 and returns 26, while the
    brace that closes the class is at offset 28 of 29.  In the sample
    document the method [m] therefore lies outside the body found and is
    recorded as a free function: the table has no method. *)
Theorem findClassEndIndex_escaped_backslash :
  length escapedBackslashText = 29 /\
  JS.substring 14 19 escapedBackslashText
  = [dquote] ++ u "a" ++ [backslash; backslash; dquote] /\
  JS.substring 24 27 escapedBackslashText = quoted "}" /\
  escapedBackslashText !! 28 = Some (JS.chr "}") /\
  Parser.inString (braceStateAt escapedBackslashText 0 19) = true /\
  Parser.inString (braceStateAt escapedBackslashText 0 25) = false /\
  findClassEndIndex escapedBackslashText 0 = 26 /\
  map (fun s => (name s, type s, className s))
    (getAllSymbols (parseDocument escapedBackslashDocument newParser))
  = [(u "A", class, None); (u "m", function, None)].
Proof. vm_compute. repeat split; reflexivity. Qed.

(** X14: the offset returned by [findClassEndIndex] is the length of
    the text or lies one past a closing brace that stands at or after the
    start offset; it never exceeds the length of the text. *)
Theorem findClassEndIndex_result (text : jsstring) (startIndex : nat) :
  findClassEndIndex text startIndex <= length text /\
  (findClassEndIndex text startIndex = length text \/
   startIndex < findClassEndIndex text startIndex /\
   text !! (findClassEndIndex text startIndex - 1) = Some (JS.chr "}")).
Proof.
  split; [apply findClassEndIndex_le|].
  unfold findClassEndIndex.
  destruct (braceLoop _ _ _ _) as [r|] eqn:E; [right|left; reflexivity].
  assert (G : forall rest before i st r,
            braceLoop before rest i st = Some r ->
            i < r /\ rest !! (r - 1 - i) = Some (JS.chr "}")).
  { clear. induction rest as [|c rest IH]; intros before i st r H;
      [discriminate|].
    cbn [braceLoop] in H.
    destruct (braceStep before c st) as [st' ret] eqn:Es.
    destruct ret.
    - injection H as <-. split; [lia|].
      replace (i + 1 - 1 - i) with 0 by lia. cbn.
      unfold braceStep in Es.
      destruct (negb (Parser.inString st)).
      + destruct ((c =? dquote)%N || (c =? squote)%N); [congruence|].
        destruct (c =? JS.chr "{")%N; [congruence|].
        destruct (N.eqb_spec c (JS.chr "}")) as [->|];
          [reflexivity|congruence].
      + destruct (_ && _); congruence.
    - apply IH in H as [H1 H2]. split; [lia|].
      replace (r - 1 - i) with (S (r - 1 - S i)) by lia. exact H2. }
  apply G in E as [E1 E2]. split; [exact E1|].
  rewrite lookup_drop in E2.
  replace (startIndex + (r - 1 - startIndex)) with (r - 1) in E2 by lia.
  exact E2.
Qed.

(** X15: outside a string, the scanner passes over a whole literal in
    single or double quotes with the brace count unchanged and goes on
    behind its closing quote, when inside the literal every quote of the
    same kind follows a backslash and the last code unit of the literal is
    no backslash. *)
Theorem string_literal_skipped (q : N) (body : jsstring) (before : option N)
    (rest : jsstring) (i : nat) (d : Z) (sc : option N) :
  q = dquote \/ q = squote ->
  staysOpen q q body = true ->
  List.last body q <> backslash ->
  braceLoop before (q :: body ++ q :: rest) i (mkBraceState d false sc) =
  braceLoop (Some q) rest (i + length body + 2)
    (mkBraceState d false (Some q)).
Proof. apply braceLoop_string_literal. Qed.

Lemma string_literal_skipped_witness :
  braceLoop (Some 32%N) (quoted "}" ++ u " }") 14 (mkBraceState 1 false None)
  = braceLoop (Some dquote) (u " }") (14 + length (u "}") + 2)
      (mkBraceState 1 false (Some dquote)).
Proof.
  refine (string_literal_skipped dquote (u "}") (Some 32%N) (u " }") 14 1 None
            _ _ _).
  - left; reflexivity.
  - reflexivity.
  - vm_compute; discriminate.
Defined.

(** ** Order of the ranked list *)

(** X16: the ranked list is in descending order of score.  When the
    string comparison of the host is a comparison function that orders the
    padded numbers of the keys, and the recorded frequencies are counts, a
    candidate with a larger score than another stands before it in the
    ranked list, wherever the two stood in the list of the generator. *)
Theorem ranking_by_score (toLowerCase : jsstring -> jsstring)
    (localeCompare : jsstring -> jsstring -> Z) (st : Provider)
    (clock : nat -> Z) (completions : list CompletionItem)
    (textBeforeCursor : jsstring) (context : CompletionContext)
    (i j : nat) (a b : CompletionItem) :
  comparatorOk localeCompare ->
  usageOk (usageHistory st) ->
  completions !! i = Some a -> completions !! j = Some b ->
  (itemScore toLowerCase (usageHistory st) (JS.last_word textBeforeCursor)
     context (clock j) b
   < itemScore toLowerCase (usageHistory st) (JS.last_word textBeforeCursor)
       context (clock i) a)%Z ->
  forall ia ib,
    applyIntelligentRanking toLowerCase localeCompare st clock completions
      textBeforeCursor context !! ia
    = Some (rankItem toLowerCase (usageHistory st)
              (JS.last_word textBeforeCursor) context (clock i) a) ->
    applyIntelligentRanking toLowerCase localeCompare st clock completions
      textBeforeCursor context !! ib
    = Some (rankItem toLowerCase (usageHistory st)
              (JS.last_word textBeforeCursor) context (clock j) b) ->
    ia < ib.
Proof.
  intros Hcmp Hok Hi Hj Hlt.
  apply (ranked_order toLowerCase localeCompare Hcmp st clock completions
           textBeforeCursor context i j a b Hok Hi Hj Hlt).
Qed.

Lemma ranking_by_score_witness :
  let ranked :=
    applyIntelligentRanking asciiLowerCase codeUnitCompare
      newCompletionProvider (fun _ => 1000%Z)
      [plainItem "alpha"; plainItem "beta"] (u "x = be") noContext in
  ranked !! 0
  = Some (rankItem asciiLowerCase ∅ (u "be") noContext 1000
            (plainItem "beta")) /\
  ranked !! 1
  = Some (rankItem asciiLowerCase ∅ (u "be") noContext 1000
            (plainItem "alpha")) /\
  0 < 1.
Proof.
  assert (H0 : applyIntelligentRanking asciiLowerCase codeUnitCompare
                 newCompletionProvider (fun _ => 1000%Z)
                 [plainItem "alpha"; plainItem "beta"] (u "x = be") noContext
               !! 0
               = Some (rankItem asciiLowerCase ∅ (u "be") noContext 1000
                         (plainItem "beta")))
    by (vm_compute; reflexivity).
  assert (H1 : applyIntelligentRanking asciiLowerCase codeUnitCompare
                 newCompletionProvider (fun _ => 1000%Z)
                 [plainItem "alpha"; plainItem "beta"] (u "x = be") noContext
               !! 1
               = Some (rankItem asciiLowerCase ∅ (u "be") noContext 1000
                         (plainItem "alpha")))
    by (vm_compute; reflexivity).
  cbv zeta. split; [exact H0|]. split; [exact H1|].
  refine (ranking_by_score asciiLowerCase codeUnitCompare
            newCompletionProvider (fun _ => 1000%Z)
            [plainItem "alpha"; plainItem "beta"] (u "x = be") noContext
            1 0 (plainItem "beta") (plainItem "alpha")
            codeUnitCompare_ok usageOk_empty eq_refl eq_refl _ 0 1 H0 H1).
  vm_compute. reflexivity.
Defined.

(** ** The generators of label and function candidates *)

Lemma commonLabels_NoDup : List.NoDup Generators.commonLabels.
Proof.
  unfold Generators.commonLabels.
  repeat (constructor; [simpl; intros H; repeat destruct H as [H|H];
                        try discriminate H; exact H|]).
  constructor.
Qed.

Lemma filter_lookup {A} (f : A -> bool) (l : list A) j y :
  List.filter f l !! j = Some y -> exists k, l !! k = Some y.
Proof.
  intros H. apply list_elem_of_lookup_2, list_elem_of_In in H.
  apply filter_In in H as [H _].
  apply list_elem_of_In, list_elem_of_lookup_1 in H. exact H.
Qed.

(** The elements kept by [filter] keep their order. *)
Lemma filter_lookup_order {A} (f : A -> bool) (l : list A) :
  forall i j x y,
    List.filter f l !! i = Some x -> List.filter f l !! j = Some y -> i < j ->
    exists i' j', l !! i' = Some x /\ l !! j' = Some y /\ i' < j'.
Proof.
  induction l as [|a l IH]; intros i j x y Hi Hj Hij;
    [destruct i; discriminate|].
  cbn [List.filter] in Hi, Hj. destruct (f a).
  - destruct j as [|j]; [lia|]. cbn in Hj. destruct i as [|i].
    + cbn in Hi. injection Hi as <-.
      apply filter_lookup in Hj as [k Hk].
      exists 0, (S k). split; [reflexivity|]. split; [exact Hk|lia].
    + cbn in Hi. destruct (IH i j x y Hi Hj ltac:(lia)) as (i' & j' & ? & ? & ?).
      exists (S i'), (S j'). split; [assumption|]. split; [assumption|lia].
  - destruct (IH i j x y Hi Hj Hij) as (i' & j' & ? & ? & ?).
    exists (S i'), (S j'). split; [assumption|]. split; [assumption|lia].
Qed.

Lemma includes_true x l : Generators.includes_ x l = true <-> In x l.
Proof. apply set_has_true. Qed.

(** X17: after the provider has parsed a document, the label
    generator offers the labels of the document as [getAllLabels] lists
    them, and behind them the labels of the catalog that the document does
    not use, in the order of the catalog: no label is offered twice, every
    label of the catalog is offered, and only the candidates taken from the
    catalog carry a sort text. *)
Theorem provideLabelCompletions_labels (document : TextDocument)
    (p0 : LDLParser) (usage_ : gmap jsstring UsageStats)
    (history : list jsstring) (document' : TextDocument) (position_ : Position)
    (textBeforeCursor : jsstring) (context : CompletionContext) :
  let st := mkProvider (parseDocument document p0) usage_ history in
  let existing := getAllLabels (parseDocument document p0) in
  let result :=
    Generators.provideLabelCompletions st document' position_
      textBeforeCursor context in
  map label result
  = existing
    ++ List.filter (fun l => negb (Generators.includes_ l existing))
         Generators.commonLabels /\
  List.NoDup (map label result) /\
  (forall l, In l Generators.commonLabels -> In l (map label result)) /\
  (forall item, In item result ->
     kind item = EnumMember /\
     insertText item = Some (PlainText (label item)) /\
     (sortText item = None /\ In (label item) existing \/
      sortText item = Some (u "z_" ++ label item) /\
      ~ In (label item) existing /\ In (label item) Generators.commonLabels)).
Proof.
  intros st existing result.
  assert (Hmap : map label result
                 = existing
                   ++ List.filter
                        (fun l => negb (Generators.includes_ l existing))
                        Generators.commonLabels).
  { unfold result, Generators.provideLabelCompletions. cbn [parser st].
    fold existing. rewrite map_app, !map_map. cbn [label
      Generators.existingLabelItem Generators.commonLabelItem].
    rewrite !map_id. reflexivity. }
  assert (Hnd : List.NoDup existing).
  { unfold existing, getAllLabels. rewrite parseDocument_trace.
    eapply Permutation_NoDup; [symmetry; apply sort_by_perm|].
    apply labelKeys_insertAll_NoDup. }
  split; [exact Hmap|]. split; [|split].
  - rewrite Hmap. apply List.NoDup_app.
    + exact Hnd.
    + apply NoDup_filter, commonLabels_NoDup.
    + intros l H1 H2. apply filter_In in H2 as [_ H2].
      apply negb_true_iff in H2.
      apply includes_true in H1. congruence.
  - intros l Hl. rewrite Hmap. apply in_app_iff.
    destruct (Generators.includes_ l existing) eqn:E.
    + left. apply includes_true. exact E.
    + right. apply filter_In. split; [exact Hl|]. rewrite E. reflexivity.
  - intros item Hitem.
    unfold result, Generators.provideLabelCompletions in Hitem.
    cbn [parser st] in Hitem. fold existing in Hitem.
    apply in_app_iff in Hitem as [H|H]; apply in_map_iff in H as (l & <- & H).
    + cbn. split; [reflexivity|]. split; [reflexivity|]. left. auto.
    + apply filter_In in H as [H1 H2]. apply negb_true_iff in H2.
      cbn. split; [reflexivity|]. split; [reflexivity|]. right.
      split; [reflexivity|]. split; [|exact H1].
      intros Hin. apply includes_true in Hin. congruence.
Qed.

(** X18: the function generator offers one candidate for each
    function, pipeline and method of the table, in the order of the table,
    and none for a symbol of another type; the candidate has the name of the
    symbol as its label, a snippet with a place for the arguments unless the
    symbol is a pipeline, and a sort text that starts with [a] when the
    symbol has documentation or is a pipeline and with [b] otherwise. *)
Theorem provideFunctionCompletions_symbols (st : Provider)
    (document : TextDocument) (position_ : Position)
    (textBeforeCursor : jsstring) (context : CompletionContext) :
  let callable (s : LDLSymbol) :=
    type s = function \/ type s = pipeline \/ type s = method in
  let result :=
    Generators.provideFunctionCompletions st document position_
      textBeforeCursor context in
  (exists functions,
     result = map Generators.functionItem functions /\
     map label result = map name functions /\
     (forall s, In s functions <->
        In s (getAllSymbols (parser st)) /\ callable s) /\
     forall s1 s2 i j,
       functions !! i = Some s1 -> functions !! j = Some s2 -> i < j ->
       exists i' j', getAllSymbols (parser st) !! i' = Some s1 /\
                     getAllSymbols (parser st) !! j' = Some s2 /\ i' < j') /\
  (forall s,
     kind (Generators.functionItem s) = Function /\
     insertText (Generators.functionItem s)
     = Some (if bool_decide (type s = pipeline)
                || negb (bool_decide (type s = function)
                         || bool_decide (type s = method))
             then PlainText (name s)
             else SnippetString (name s ++ u "($1)$0")) /\
     sortText (Generators.functionItem s)
     = Some ((if truthy (Parser.documentation s)
                 || bool_decide (type s = pipeline)
              then u "a" else u "b") ++ u "_" ++ name s)).
Proof.
  intros callable result. split.
  - eexists. split; [reflexivity|]. split; [|split].
    + unfold result, Generators.provideFunctionCompletions. cbv zeta.
      rewrite map_map. reflexivity.
    + intros s. rewrite filter_In. unfold callable.
      rewrite !orb_true_iff, !bool_decide_eq_true. tauto.
    + intros s1 s2 i j H1 H2 Hij.
      eapply filter_lookup_order; eauto.
  - intros s. split; [reflexivity|]. split.
    + cbn. f_equal.
      destruct (type s); reflexivity.
    + cbn. unfold Generators.getFunctionSortText. f_equal.
      destruct (truthy (Parser.documentation s)), (type s); reflexivity.
Qed.
